(** * Wake-word streaming engine: frame assembly, decoding, detection

    A shallow embedding of the two wake-word scripts of the repository,
    [src/python/openwakeword_server.py] (the "server" variant) and
    [src/scripts/openwakeword-detector.py] (the "detector" variant), and
    the properties of their main loops.

    Modelling choices.
    - A [bytes] object is a [list byte]; [len], [+=] and the slices
      [b[:n]], [b[n:]] are [length], [++], [firstn n] and [skipn n].
    - A score is a rational together with the precision in which Python
      compares it with a float.  Every finite binary float is a
      rational, and [>], [>=] on two floats of one format agree with the
      order of the rationals; a Python float that meets a
      [numpy.float32] is first rounded to binary32.  NaN is not
      modelled, and thresholds are finite.
    - A decoded sample is the rational [s / 32768].  The quotient of a
      16-bit integer by a power of two is exactly representable in
      binary32, so the float32 division of the source is exact.
    - The scoring capability ([openwakeword.model.Model]) is an
      interface with a state: [predict] returns the new state and either
      the scores or the message of the exception it raised.
    - What the loop does to the outside world is a trace of [effect]s:
      the calls of [predict] with what they returned, the calls of
      [reset], and the records printed on stdout, in program order.
    - The input is the list of the results of the successive reads of
      stdin; a read of zero bytes, or the end of the list, is the end of
      the stream.  The loops are defined for reads of any sizes;
      [reads_of] gives the reads of a blocking stream.
    - The command line reaches [main] as what its parsing gives: the
      result of [float] on the threshold argument in the server, the
      outcome of [parser.parse_args()] in the detector, with their exits.
    - Within the loop, exceptions come from the scoring call.  A failing
      [print] and signals ([KeyboardInterrupt], which the detector turns
      into a [break] and the server does not catch) are not modelled. *)

From Stdlib Require Import Strings.Ascii Strings.String Strings.Byte.
From Stdlib Require Import ZArith QArith Qround Qabs Qpower.
From Stdlib Require Import Bool Lia Lqa Arith List.
Import ListNotations.

Local Open Scope nat_scope.

(** ** Bytes and frames *)

Definition bytes := list byte.

(** [CHUNK_SIZE = 1280] samples, 80 ms at 16 kHz, in both scripts. *)
Definition CHUNK_SIZE : nat := 1280.

(** [frame_size = CHUNK_SIZE * 2] (server), [bytes_per_chunk = CHUNK_SIZE * 2]
    (detector): 2560 bytes per frame. *)
Definition frame_size : nat := CHUNK_SIZE * 2.

Definition byte_val (b : byte) : Z := Z.of_N (Byte.to_N b).

(** One little-endian signed 16-bit sample, as [dtype=np.int16] reads it:
    the unsigned value [lo + 256 * hi] wrapped into two's complement. *)
Definition int16_le (lo hi : byte) : Z :=
  let u := (byte_val lo + 256 * byte_val hi)%Z in
  if (u <? 32768)%Z then u else (u - 65536)%Z.

(** [np.frombuffer(frame, dtype=np.int16)].  numpy rejects a buffer of odd
    length; the frames of the loops have 2560 bytes, so the last clause
    is never reached for them. *)
Fixpoint frombuffer (frame : bytes) : list Z :=
  match frame with
  | lo :: hi :: rest => int16_le lo hi :: frombuffer rest
  | _ => []
  end.

(** [x.astype(np.float32) / 32768.0] on one sample. *)
Definition normalize (s : Z) : Q := s # 32768.

(** [audio = np.frombuffer(frame, dtype=np.int16).astype(np.float32) / 32768.0] *)
Definition decode (frame : bytes) : list Q := map normalize (frombuffer frame).

(** Modelled from the spec: the re-quantizer of the round-trip bound is not
    in the repository; it multiplies a normalized sample by 32768 and
    rounds the product to an integer.  The spec does not fix the rounding,
    so every usual mode is given. *)
Inductive rounding := RoundDown | RoundUp | RoundTowardZero | RoundHalfUp.

(** Modelled from the spec: rounding a rational to an integer in the
    mode [r]. *)
Definition round_to_Z (r : rounding) (q : Q) : Z :=
  match r with
  | RoundDown => Qfloor q
  | RoundUp => Qceiling q
  | RoundTowardZero => if Qle_bool 0 q then Qfloor q else Qceiling q
  | RoundHalfUp => Qfloor (q + (1 # 2))
  end.

(** Modelled from the spec: re-quantizing, "multiplying by 32768 and
    rounding back to a 16-bit integer". *)
Definition requantize (r : rounding) (q : Q) : Z :=
  round_to_Z r (q * inject_Z 32768).

(** ** Scores, events and effects *)

(** [a > b] on scores. *)
Definition Qgtb (a b : Q) : bool := negb (Qle_bool a b).

(** [a >= b] on scores. *)
Definition Qgeb (a b : Q) : bool := Qle_bool b a.

(** Nearest integer, ties to the even one. *)
Definition round_half_even (q : Q) : Z :=
  let fl := Qfloor q in
  match Qcompare (q - inject_Z fl) (1 # 2) with
  | Lt => fl
  | Gt => (fl + 1)%Z
  | Eq => if Z.even fl then fl else (fl + 1)%Z
  end.

(** [round(x, 3)] and the [.3f] format: the decimal with three places
    nearest to [x]. *)
Definition round3 (q : Q) : Q := round_half_even (q * inject_Z 1000) # 1000.

(** [floor (log2 x)] for a positive [x]. *)
Definition Qlog2 (x : Q) : Z :=
  let e := (Z.log2 (Qnum x) - Z.log2 (Zpos (Qden x)))%Z in
  if Qle_bool (2 ^ e) x then e else (e - 1)%Z.

(** The exponent of the unit in the last place of the binary32 numbers
    around [x]: 24 bits of significand, and the spacing [2 ^ -149] of the
    subnormal numbers below [2 ^ -126]. *)
Definition ulp32 (x : Q) : Z := Z.max (Qlog2 (Qabs x) - 23) (-149).

(** The multiple of the unit in the last place nearest to [x], ties to
    the even significand. *)
Definition round32 (x : Q) : Q :=
  (inject_Z (round_half_even (x / 2 ^ ulp32 x)) * 2 ^ ulp32 x)%Q.

(** A binary32 value other than NaN. *)
Inductive float32 :=
| Finite (r : Q)
| Infinity (negative : bool).

(** The conversion of a Python float to [numpy.float32]: rounding to the
    nearest binary32, to an infinity from [2 ^ 128 - 2 ^ 103] on (half a
    unit above the largest finite binary32). *)
Definition to_float32 (x : Q) : float32 :=
  let r := round32 x in
  if Qle_bool (2 ^ 128) (Qabs r) then Infinity (negb (Qle_bool 0 x))
  else Finite r.

(** A score as [predict] returns it, with the way Python compares it
    with a Python float [x] (detector, lines 134 and 137, where the score
    is compared as it is).
    - [py_float v]: the comparison is the one of binary64, which is exact.
      This is a Python float (openWakeWord writes [0.0] over the score
      of a model that warms up), a [numpy.float64], and also a
      [numpy.float32] under NumPy 1, which promotes both sides to
      float64.
    - [np_float32 v]: a [numpy.float32] scalar, the output of a model,
      under NumPy 2: the Python float is converted to float32 first. *)
Inductive score :=
| py_float (v : Q)
| np_float32 (v : Q).

(** [float(score)], which is exact. *)
Definition value (s : score) : Q :=
  match s with py_float v | np_float32 v => v end.

Coercion value : score >-> Q.

(** [score >= x] for a Python float [x]. *)
Definition score_ge (s : score) (x : Q) : bool :=
  match s with
  | py_float v => Qgeb v x
  | np_float32 v =>
      match to_float32 x with
      | Finite r => Qgeb v r
      | Infinity negative => negative
      end
  end.

(** [score > x] for a Python float [x]. *)
Definition score_gt (s : score) (x : Q) : bool :=
  match s with
  | py_float v => Qgtb v x
  | np_float32 v =>
      match to_float32 x with
      | Finite r => Qgtb v r
      | Infinity negative => negative
      end
  end.

(** A binary32 number: a significand of 24 bits and an exponent between
    the one of the subnormal numbers and the largest one. *)
Definition binary32 (x : Q) : Prop :=
  exists m e : Z, (Z.abs m < 2 ^ 24)%Z /\ (-149 <= e <= 104)%Z /\
                  (x == inject_Z m * 2 ^ e)%Q.

(** A score that its type can hold: a [numpy.float32] is a binary32. *)
Definition well_formed (s : score) : Prop :=
  match s with
  | py_float _ => True
  | np_float32 v => binary32 v
  end.

(** The records written to stdout, one JSON object per line.
    - [ReadyEvent]: [{"status": "ready", "model": .., "threshold": ..}],
      with [chunk_size] (server) or [features] (detector) left out
    - [FatalError]: [{"status": "error", "message": ..}] (server) or
      [{"error": ..}] (detector), followed by [sys.exit(1)]
    - [DetectionEvent]: [{"event": "wakeword", "keyword": .., "score": ..}]
      (server) or [{"detected": true, "model": .., "score": ..}] (detector)
    - [DebugEvent]: [{"event": "debug", "frames": .., "max_score": ..}]
    - [ScoreLog]: [{"debug": "<name>: <score:.3f>"}] (detector, [--debug])
    - [LoadingNote]: [{"debug": "Loading custom model: .."}] or
      [{"debug": "Loading built-in model: .."}] (detector, [--debug])
    - [ErrorEvent]: [{"event": "error", "message": ..}] (server) or
      [{"error": ..}] (detector)
    - [StoppedEvent]: [{"status": "stopped"}]
    - [HelpText]: the help of the argument parser (detector, [--help]),
      the one output that is not a JSON object *)
Inductive event :=
| ReadyEvent (model_name : string) (threshold : Q)
| FatalError (message : string)
| DetectionEvent (name : string) (score : Q)
| DebugEvent (frames : nat) (max_score : Q)
| ScoreLog (name : string) (score : Q)
| LoadingNote (custom : bool) (model_name : string)
| ErrorEvent (message : string)
| StoppedEvent
| HelpText.

(** What [model.predict(audio)] gives back: the items of the prediction,
    in the order of the dictionary, or the message of the exception. *)
Inductive outcome :=
| Scores (prediction : list (string * score))
| Raises (message : string).

(** What the loop does: [Predict frame res] is the call
    [model.predict(audio)] on the decoded [frame] and what it gave back,
    [ResetModel] the call [model.reset()], [Emit e] a [print] of the
    record [e]. *)
Inductive effect :=
| Predict (frame : bytes) (res : outcome)
| ResetModel
| Emit (e : event).

Definition trace := list effect.

(** How a block of statements ends. *)
Inductive completion :=
| Normal
| Exception (message : string).

(** The scoring capability: the two methods the loops call. *)
Class ScoringCapability (M : Type) := {
  predict : M -> list Q -> M * outcome;
  reset : M -> M
}.

(** The part of a list of reads that the loop consumes: a read of zero
    bytes is the end of the stream and nothing after it is read. *)
Fixpoint fed (reads : list bytes) : list bytes :=
  match reads with
  | [] => []
  | [] :: _ => []
  | chunk :: rest => chunk :: fed rest
  end.

(** What the successive calls of [sys.stdin.buffer.read(n)] return on a
    blocking stream (a pipe or a file) that carries the bytes [stream]:
    the buffered reader returns [n] bytes as long as the stream has
    them, however they were written on the other end, and then the
    bytes that are left, if there are any; the read after these finds the
    end of the stream.  [fuel] bounds the number of reads. *)
Fixpoint blocking_reads (fuel n : nat) (stream : bytes) : list bytes :=
  match fuel with
  | 0 => []
  | S fuel' =>
      match stream with
      | [] => []
      | _ => firstn n stream :: blocking_reads fuel' n (skipn n stream)
      end
  end.

(** One read per byte is more than enough. *)
Definition reads_of (n : nat) (stream : bytes) : list bytes :=
  blocking_reads (length stream) n stream.

(** The frames handed to the scoring capability, in order. *)
Fixpoint frames_of (tr : trace) : list bytes :=
  match tr with
  | [] => []
  | Predict frame _ :: tr' => frame :: frames_of tr'
  | _ :: tr' => frames_of tr'
  end.

(** The records printed, in order. *)
Fixpoint events_of (tr : trace) : list event :=
  match tr with
  | [] => []
  | Emit e :: tr' => e :: events_of tr'
  | _ :: tr' => events_of tr'
  end.

(** The scores of a score map, as Python floats. *)
Definition values (items : list (string * score)) : list Q :=
  map (fun item => value (snd item)) items.

(** The scores the scoring capability returned, in order. *)
Fixpoint scores_of (tr : trace) : list Q :=
  match tr with
  | [] => []
  | Predict _ (Scores items) :: tr' => values items ++ scores_of tr'
  | _ :: tr' => scores_of tr'
  end.

(** A telemetry record. *)
Definition is_debug (x : effect) : bool :=
  match x with Emit (DebugEvent _ _) => true | _ => false end.

(** A scoring call that raised. *)
Definition is_raise (x : effect) : bool :=
  match x with Predict _ (Raises _) => true | _ => false end.

(** The telemetry window that is open at the end of a trace: what
    happened after the last [DebugEvent]. *)
Fixpoint since_debug (tr : trace) : trace :=
  match tr with
  | [] => []
  | x :: tr' => if existsb is_debug tr' then since_debug tr'
                else if is_debug x then tr' else x :: tr'
  end.

(** ** The server variant: [src/python/openwakeword_server.py] *)
Module Server.
Section WithModel.
Context {M : Type} `{ScoringCapability M}.

Record state := mkState {
  audio_buffer : bytes;
  frames_processed : nat;
  max_score : Q;
  model : M
}.

Definition AVAILABLE_MODELS : list string :=
  ["alexa"; "hey_jarvis"; "hey_mycroft"; "hey_rhasspy";
   "current_weather"; "timers"]%string.

(** The body of [for name, scores in prediction.items()] (lines 107-124).
    Line 109 takes the latest element when the value is an array, and
    converts it to a Python float: the comparisons that follow are those
    of binary64. *)
Definition check (threshold : Q) (item : string * score) (m : M) (mx : Q)
  : M * Q * trace :=
  let (name, scores) := item in
  let score := value scores in
  let mx1 := if Qgtb score mx then score else mx in
  if Qgtb score threshold
  then (reset m, 0%Q, [Emit (DetectionEvent name score); ResetModel])
  else (m, mx1, []).

Fixpoint evaluate (threshold : Q) (items : list (string * score)) (m : M)
    (mx : Q) : M * Q * trace :=
  match items with
  | [] => (m, mx, [])
  | item :: rest =>
      let '(m1, mx1, tr1) := check threshold item m mx in
      let '(m2, mx2, tr2) := evaluate threshold rest m1 mx1 in
      (m2, mx2, tr1 ++ tr2)
  end.

(** The body of [while len(audio_buffer) >= frame_size] (lines 95-129). *)
Definition process_frame (threshold : Q) (st : state)
  : state * trace * completion :=
  let frame := firstn frame_size (audio_buffer st) in
  let rest := skipn frame_size (audio_buffer st) in
  let n := frames_processed st + 1 in
  let audio := decode frame in
  match predict (model st) audio with
  | (m1, Raises msg) =>
      (mkState rest n (max_score st) m1,
       [Predict frame (Raises msg)], Exception msg)
  | (m1, Scores items) =>
      let '(m2, mx, tr) := evaluate threshold items m1 (max_score st) in
      if n mod 50 =? 0
      then (mkState rest n 0 m2,
            Predict frame (Scores items) :: tr
              ++ [Emit (DebugEvent n (round3 mx))], Normal)
      else (mkState rest n mx m2,
            Predict frame (Scores items) :: tr, Normal)
  end.

(** [while len(audio_buffer) >= frame_size] (line 94).  [fuel] bounds the
    number of rounds; [length (audio_buffer st)] rounds always suffice,
    since each round takes [frame_size] bytes off the buffer. *)
Fixpoint drain (fuel : nat) (threshold : Q) (st : state)
  : state * trace * completion :=
  match fuel with
  | 0 => (st, [], Normal)
  | S fuel' =>
      if frame_size <=? length (audio_buffer st) then
        match process_frame threshold st with
        | (st1, tr1, Normal) =>
            let '(st2, tr2, c) := drain fuel' threshold st1 in
            (st2, tr1 ++ tr2, c)
        | (st1, tr1, Exception msg) => (st1, tr1, Exception msg)
        end
      else (st, [], Normal)
  end.

Definition push (st : state) (chunk : bytes) : state :=
  mkState (audio_buffer st ++ chunk) (frames_processed st)
          (max_score st) (model st).

(** One round of [while True] after a read that returned [chunk]
    (lines 90-133): the [try] block, and the handler that prints the
    error record and continues. *)
Definition iteration (threshold : Q) (st : state) (chunk : bytes)
  : state * trace :=
  let st0 := push st chunk in
  match drain (length (audio_buffer st0)) threshold st0 with
  | (st1, tr, Normal) => (st1, tr)
  | (st1, tr, Exception msg) => (st1, tr ++ [Emit (ErrorEvent msg)])
  end.

(** [while True] (lines 81-133) over the successive results of
    [sys.stdin.buffer.read(4096)]; after the last one the stream is at
    its end and the read returns no byte. *)
Fixpoint loop (threshold : Q) (st : state) (reads : list bytes)
  : state * trace :=
  match reads with
  | [] => (st, [])
  | [] :: _ => (st, [])
  | chunk :: rest =>
      let (st1, tr1) := iteration threshold st chunk in
      let (st2, tr2) := loop threshold st1 rest in
      (st2, tr1 ++ tr2)
  end.

Definition init (m : M) : state := mkState [] 0 0 m.

(** [main] (lines 43-133), with the import at lines 22-27, which runs
    first.  [installed] tells whether [openwakeword] imports; [float] is
    the built-in of Python on a string, which gives the number or raises
    [ValueError] ([None]); [load] is the download and the construction of
    the model, which gives the model or the message of the exception;
    [argv] is [sys.argv] without the name of the script.  The result is
    what was printed on stdout and the exit status.  The [ValueError] of
    line 46 is not caught: the interpreter prints the traceback on stderr
    and exits with status 1.  The numbers that [float] gives are finite
    here: a threshold [inf] or [nan], which [float] also accepts, is not
    modelled. *)
Definition main (installed : bool) (float : string -> option Q)
    (load : string -> M + string) (argv : list string)
    (reads : list bytes) : trace * Z :=
  if negb installed
  then ([Emit (FatalError "openwakeword not installed")], 1%Z)
  else
    let model_name :=
      match argv with s :: _ => s | [] => "hey_jarvis"%string end in
    match (match argv with
           | _ :: s :: _ => float s
           | _ => Some (1 # 2)%Q
           end) with
    | None => ([], 1%Z)
    | Some threshold =>
        if negb (existsb (String.eqb model_name) AVAILABLE_MODELS)
        then ([Emit (FatalError
                       ("Unknown model: " ++ model_name ++ ". Available: "
                        ++ String.concat ", " AVAILABLE_MODELS)%string)], 1%Z)
        else
          match load model_name with
          | inr msg => ([Emit (FatalError msg)], 1%Z)
          | inl m =>
              (Emit (ReadyEvent model_name threshold)
                 :: snd (loop threshold (init m) reads), 0%Z)
          end
    end.
End WithModel.
Arguments state M : clear implicits.
End Server.

(** ** The detector variant: [src/scripts/openwakeword-detector.py] *)
Module Detector.
Section WithModel.
Context {M : Type} `{ScoringCapability M}.

(** The options of the command line that the loop reads.  The other
    ones ([--vad-threshold], [--models-dir]) only choose how the model
    is constructed. *)
Record args := mkArgs {
  arg_model : string;
  threshold : Q;
  debug : bool
}.

(** What [parser.parse_args()] (line 35) does with the command line: it
    returns the namespace; or, for [-h] and [--help], it prints the help
    on stdout and exits with status 0; or, for an option it does not
    know or a value that [float] rejects, it prints a usage message on
    stderr and exits with status 2.  As in the server, a threshold
    [inf] or [nan] is not modelled. *)
Inductive parse_result :=
| Namespace (a : args)
| Help
| UsageError.

(** The double nearest to [0.65], the default of [--threshold]. *)
Definition float_0_65 : Q := 5854679515581645 # 9007199254740992.

(** The double nearest to [0.1], the bound of the score log. *)
Definition float_0_1 : Q := 3602879701896397 # 36028797018963968.

(** The defaults of the argument parser (lines 25-32). *)
Definition default_args : args := mkArgs "hey_jarvis" float_0_65 false.

Record state := mkState {
  buffer : bytes;
  oww_model : M
}.

(** The body of [for model_name, score in prediction.items()]
    (lines 134-145).  The score is compared as [predict] returned it;
    [float(score)] is what the detection record carries. *)
Definition check (a : args) (item : string * score) (m : M) : M * trace :=
  let (model_name, score) := item in
  let log :=
    if debug a && score_gt score float_0_1
    then [Emit (ScoreLog model_name (round3 score))] else [] in
  if score_ge score (threshold a)
  then (reset m, log ++ [Emit (DetectionEvent model_name score); ResetModel])
  else (m, log).

Fixpoint evaluate (a : args) (items : list (string * score)) (m : M)
  : M * trace :=
  match items with
  | [] => (m, [])
  | item :: rest =>
      let (m1, tr1) := check a item m in
      let (m2, tr2) := evaluate a rest m1 in
      (m2, tr1 ++ tr2)
  end.

(** The body of [while len(buffer) >= bytes_per_chunk] (lines 123-145). *)
Definition process_frame (a : args) (st : state)
  : state * trace * completion :=
  let chunk := firstn frame_size (buffer st) in
  let rest := skipn frame_size (buffer st) in
  let audio := decode chunk in
  match predict (oww_model st) audio with
  | (m1, Raises msg) =>
      (mkState rest m1, [Predict chunk (Raises msg)], Exception msg)
  | (m1, Scores items) =>
      let (m2, tr) := evaluate a items m1 in
      (mkState rest m2, Predict chunk (Scores items) :: tr, Normal)
  end.

(** [while len(buffer) >= bytes_per_chunk] (line 122), with the same
    bound on the number of rounds as in the server. *)
Fixpoint drain (fuel : nat) (a : args) (st : state)
  : state * trace * completion :=
  match fuel with
  | 0 => (st, [], Normal)
  | S fuel' =>
      if frame_size <=? length (buffer st) then
        match process_frame a st with
        | (st1, tr1, Normal) =>
            let '(st2, tr2, c) := drain fuel' a st1 in
            (st2, tr1 ++ tr2, c)
        | (st1, tr1, Exception msg) => (st1, tr1, Exception msg)
        end
      else (st, [], Normal)
  end.

Definition push (st : state) (data : bytes) : state :=
  mkState (buffer st ++ data) (oww_model st).

(** One round of [while True] after a read that returned [data]
    (lines 119-152): the handler prints the error record only with
    [--debug], and continues. *)
Definition iteration (a : args) (st : state) (data : bytes)
  : state * trace :=
  let st0 := push st data in
  match drain (length (buffer st0)) a st0 with
  | (st1, tr, Normal) => (st1, tr)
  | (st1, tr, Exception msg) =>
      (st1, tr ++ (if debug a then [Emit (ErrorEvent msg)] else []))
  end.

(** [while True] (lines 112-152) over the successive results of
    [sys.stdin.buffer.read(bytes_per_chunk)]. *)
Fixpoint loop (a : args) (st : state) (reads : list bytes)
  : state * trace :=
  match reads with
  | [] => (st, [])
  | [] :: _ => (st, [])
  | data :: rest =>
      let (st1, tr1) := iteration a st data in
      let (st2, tr2) := loop a st1 rest in
      (st2, tr1 ++ tr2)
  end.

Definition init (m : M) : state := mkState [] m.

(** [main] (lines 23-154).  [cmdline] is what [parser.parse_args()] does
    with the command line, [installed] tells whether [openwakeword]
    imports, [custom] whether the custom model file exists, and [load]
    is the construction of the model.  The result is what was printed on
    stdout and the exit status. *)
Definition main (cmdline : parse_result) (installed : bool) (custom : bool)
    (load : string -> M + string) (reads : list bytes) : trace * Z :=
  match cmdline with
  | Help => ([Emit HelpText], 0%Z)
  | UsageError => ([], 2%Z)
  | Namespace a =>
      if negb installed
      then ([Emit (FatalError "openwakeword not installed")], 1%Z)
      else
        let note :=
          if debug a then [Emit (LoadingNote custom (arg_model a))]
          else [] in
        match load (arg_model a) with
        | inr msg =>
            (note ++ [Emit (FatalError
                              ("Failed to load model: " ++ msg)%string)],
             1%Z)
        | inl m =>
            (note ++ Emit (ReadyEvent (arg_model a) (threshold a))
               :: snd (loop a (init m) reads) ++ [Emit StoppedEvent], 0%Z)
        end
  end.
End WithModel.
Arguments state M : clear implicits.
End Detector.

(** ** Typing the transcript: [type_to_terminal] in [src/scripts/listen.py]

    A Python string is modelled by its UTF-8 bytes.  The three patterns
    replaced are ASCII characters, which never occur inside the encoding
    of another character, so replacing them byte by byte is replacing
    them character by character. *)
Module Listen.

Definition backslash : Ascii.ascii := "\"%char.
Definition dquote : Ascii.ascii := "034"%char.
Definition newline : Ascii.ascii := "010"%char.

(** [s.replace(old, new)] for a pattern [old] of one character. *)
Fixpoint replace (old : Ascii.ascii) (new : string) (s : string) : string :=
  match s with
  | EmptyString => EmptyString
  | String c s' =>
      if Ascii.eqb c old then (new ++ replace old new s')%string
      else String c (replace old new s')
  end.

(** Line 97, the three calls of [replace] in a row: a backslash becomes
    two backslashes, then a double quote becomes a backslash and the
    quote, then a newline becomes a backslash and the letter n. *)
Definition escape (text : string) : string :=
  replace newline (String backslash (String "n" EmptyString))
    (replace dquote (String backslash (String dquote EmptyString))
       (replace backslash (String backslash (String backslash EmptyString))
          text)).

(** What precedes and what follows the escaped text in the script of
    lines 99-104. *)
Definition script_head : string :=
  (String newline "    tell application "
   ++ String dquote "System Events"
   ++ String dquote (String newline "        keystroke ")
   ++ String dquote EmptyString)%string.

Definition script_tail : string :=
  (String dquote (String newline "        key code 36")
   ++ String newline "    end tell"
   ++ String newline "    ")%string.

(** The script handed to [osascript -e]. *)
Definition script (text : string) : string :=
  (script_head ++ escape text ++ script_tail)%string.

(** Reading a string literal with backslash escapes, from the character
    after the opening quote: the text it denotes and what follows the
    closing quote, or nothing when the literal is not closed.  After a
    backslash, [n] stands for a newline and any other character for
    itself. *)
Fixpoint read_literal (s : string) : option (string * string) :=
  match s with
  | EmptyString => None
  | String c s' =>
      if Ascii.eqb c dquote then Some (EmptyString, s')
      else if Ascii.eqb c backslash then
        match s' with
        | EmptyString => None
        | String e s'' =>
            match read_literal s'' with
            | Some (text, rest) =>
                Some (String (if Ascii.eqb e "n" then newline else e) text,
                      rest)
            | None => None
            end
        end
      else
        match read_literal s' with
        | Some (text, rest) => Some (String c text, rest)
        | None => None
        end
  end.

End Listen.

(** ** A synthetic scoring capability

    Its state is the script of what the next calls of [predict] return;
    past the end of the script every score map is empty.  [reset] leaves
    the script as it is. *)
Definition scripted := list outcome.

#[export] Instance scripted_capability : ScoringCapability scripted := {
  predict := fun m _ =>
    match m with
    | [] => ([], Scores [])
    | o :: m' => (m', o)
    end;
  reset := fun m => m
}.

(** A scoring capability that keeps a record of what [predict] is
    called with: [inner] is the capability that scores, [heard] the
    arguments of the calls so far, oldest first. *)
Record recording (M : Type) := mkRecording {
  inner : M;
  heard : list (list Q)
}.
Arguments mkRecording {M}.
Arguments inner {M}.
Arguments heard {M}.

#[export] Instance recording_capability {M : Type} `{ScoringCapability M}
  : ScoringCapability (recording M) := {
  predict := fun m audio =>
    let (m', res) := predict (inner m) audio in
    (mkRecording m' (heard m ++ [audio]), res);
  reset := fun m => mkRecording (reset (inner m)) (heard m)
}.

(** The state of a loop that runs on a recording capability, with the
    record taken off. *)
Definition server_inner {M : Type} (st : Server.state (recording M))
  : Server.state M :=
  Server.mkState (Server.audio_buffer st) (Server.frames_processed st)
    (Server.max_score st) (inner (Server.model st)).

Definition detector_inner {M : Type} (st : Detector.state (recording M))
  : Detector.state M :=
  Detector.mkState (Detector.buffer st) (inner (Detector.oww_model st)).

Definition zeros (n : nat) : bytes := repeat x00 n.

(** One read per byte of the stream. *)
Definition bytewise (stream : bytes) : list bytes := map (fun b => [b]) stream.

(** ** Invariants of traces *)

(** The calls of the scoring capability in a trace: [true] for a reset,
    [false] for a prediction. *)
Fixpoint calls_of (tr : trace) : list bool :=
  match tr with
  | [] => []
  | Predict _ _ :: tr' => false :: calls_of tr'
  | ResetModel :: tr' => true :: calls_of tr'
  | Emit _ :: tr' => calls_of tr'
  end.

(** The effects of the detection evaluator: records other than the
    telemetry record, and resets. *)
Definition is_verdict (x : effect) : bool :=
  match x with
  | ResetModel => true
  | Emit (DebugEvent _ _) => false
  | Emit _ => true
  | Predict _ _ => false
  end.


(** Every frame has [frame_size] bytes. *)
Definition well_framed (frames : list bytes) : Prop :=
  Forall (fun f => length f = frame_size) frames.

(** The rolling maximum after the scores [l], starting from [mx]: the
    update of lines 112-113 applied to each score in turn. *)
Definition rolling (mx : Q) (l : list Q) : Q :=
  fold_left (fun m s => if Qgtb s m then s else m) l mx.

(** No score observed in [w] exceeded the threshold. *)
Definition window_quiet (threshold : Q) (w : trace) : Prop :=
  forall s, In s (scores_of w) -> (s <= threshold)%Q.

(** The rolling maximum at the start of the window open at the end of
    [pre]: 0 after a telemetry record, else the value [mx0] the trace
    started with. *)
Definition window_start (mx0 : Q) (pre : trace) : Q :=
  if existsb is_debug pre then 0%Q else mx0.

(** The telemetry invariant of a piece of trace [tr] that starts with
    [n0] frames processed and rolling maximum [mx0] and ends with [n'] and
    [mx']: every telemetry record carries the number of frames processed so
    far, a multiple of 50, and, if its window was quiet, the rounded
    rolling maximum of the scores of its window. *)
Definition telemetry_ok (threshold : Q) (n0 : nat) (mx0 : Q) (tr : trace)
    (n' : nat) (mx' : Q) : Prop :=
  (forall pre n r post,
     tr = pre ++ Emit (DebugEvent n r) :: post ->
     n = n0 + length (frames_of pre) /\ n mod 50 = 0 /\
     (window_quiet threshold (since_debug pre) ->
      r = round3 (rolling (window_start mx0 pre)
                    (scores_of (since_debug pre))))) /\
  n' = n0 + length (frames_of tr) /\
  (window_quiet threshold (since_debug tr) ->
   mx' = rolling (window_start mx0 tr) (scores_of (since_debug tr))).

(** ** Runs used as examples *)

(** Scripts of the synthetic capability used in the examples: one that
    never raises, one whose first call raises and one whose second call
    raises. *)
Definition silent : scripted := [].
Definition fails_first : scripted := [Raises "scoring failed"].
Definition fails_second : scripted := [Scores []; Raises "scoring failed"].

(** The scoring capability of scenario E of the spec: the seventh call
    raises, the other ones return an empty score map. *)
Definition fails_seventh : scripted :=
  repeat (Scores []) 6 ++ [Raises "scoring failed"].

(** Eight frames of silence, as five full reads of the server and as
    eight reads of one frame. *)
Definition five_reads : list bytes := repeat (zeros 4096) 5.
Definition eight_reads : list bytes := repeat (zeros 2560) 8.

(** The server after a first read of 2559 bytes, with a capability whose
    first call raises. *)
Definition one_byte_short : Server.state scripted :=
  Server.mkState (zeros 2559) 0 0 fails_first.

(** A capability that returns 49 times the score 1/4 and then 3/10 for
    the one detector. *)
Definition near_misses : scripted :=
  repeat (Scores [("hey_jarvis"%string, py_float (1 # 4))]) 49
    ++ [Scores [("hey_jarvis"%string, py_float (3 # 10))]].

(** Fifty frames of silence, one per read. *)
Definition fifty_reads : list bytes := repeat (zeros 2560) 50.

(** The capability of scenario C of the spec: the score 0.9 for
    ["hey_jarvis"] on the third frame, 0 on the other ones. *)
Definition third_fires : scripted :=
  [Scores [("hey_jarvis"%string, py_float 0)];
   Scores [("hey_jarvis"%string, py_float 0)];
   Scores [("hey_jarvis"%string, py_float (9 # 10))];
   Scores [("hey_jarvis"%string, py_float 0)]].

(** Four frames of silence, one per read. *)
Definition four_reads : list bytes := repeat (zeros 2560) 4.

(** ** The shape of a run *)

(** What the server prints and does for one item of a score map. *)
Definition server_verdict (threshold : Q) (item : string * score) : trace :=
  let (name, score) := item in
  if Qgtb score threshold
  then [Emit (DetectionEvent name score); ResetModel] else [].

(** The traces of the server's loop from [n] frames processed: a
    sequence of blocks, one per frame.  A scored frame gives the call, the
    verdicts on its score map and, when it is frame number 50, 100, ...,
    a telemetry record; a frame whose scoring raises gives the call and
    the error record. *)
Inductive server_run (threshold : Q) : nat -> trace -> Prop :=
| server_run_end n : server_run threshold n []
| server_run_scored n frame items r tr :
    server_run threshold (n + 1) tr ->
    server_run threshold n
      (Predict frame (Scores items)
         :: flat_map (server_verdict threshold) items
         ++ (if (n + 1) mod 50 =? 0
             then [Emit (DebugEvent (n + 1) r)] else [])
         ++ tr)
| server_run_raised n frame msg tr :
    server_run threshold (n + 1) tr ->
    server_run threshold n
      (Predict frame (Raises msg) :: Emit (ErrorEvent msg) :: tr).

(** What the detector prints and does for one item of a score map. *)
Definition detector_verdict (a : Detector.args) (item : string * score)
  : trace :=
  let (name, score) := item in
  (if Detector.debug a && score_gt score Detector.float_0_1
   then [Emit (ScoreLog name (round3 score))] else [])
  ++ (if score_ge score (Detector.threshold a)
      then [Emit (DetectionEvent name score); ResetModel] else []).

(** The traces of the detector's loop, block by block. *)
Inductive detector_run (a : Detector.args) : trace -> Prop :=
| detector_run_end : detector_run a []
| detector_run_scored frame items tr :
    detector_run a tr ->
    detector_run a
      (Predict frame (Scores items)
         :: flat_map (detector_verdict a) items ++ tr)
| detector_run_raised frame msg tr :
    detector_run a tr ->
    detector_run a
      (Predict frame (Raises msg)
         :: (if Detector.debug a then [Emit (ErrorEvent msg)] else [])
         ++ tr).

(** Every detection record is followed at once by a reset and there is
    no other reset. *)
Fixpoint resets_paired (tr : trace) : bool :=
  match tr with
  | [] => true
  | Emit (DetectionEvent _ _) :: ResetModel :: tr' => resets_paired tr'
  | Emit (DetectionEvent _ _) :: _ => false
  | ResetModel :: _ => false
  | _ :: tr' => resets_paired tr'
  end.

(** Every scoring call that raised is followed at once by the error
    record of its message and there is no other error record. *)
Fixpoint errors_reported (tr : trace) : bool :=
  match tr with
  | [] => true
  | Predict _ (Raises msg) :: Emit (ErrorEvent msg') :: tr' =>
      String.eqb msg msg' && errors_reported tr'
  | Predict _ (Raises _) :: _ => false
  | Emit (ErrorEvent _) :: _ => false
  | _ :: tr' => errors_reported tr'
  end.

(** A scoring call, a reset or a detection record. *)
Definition plain_effect (x : effect) : bool :=
  match x with
  | Predict _ _ | ResetModel | Emit (DetectionEvent _ _) => true
  | Emit _ => false
  end.

(** The items of the score maps returned during a trace, in order. *)
Fixpoint items_of (tr : trace) : list (string * score) :=
  match tr with
  | [] => []
  | Predict _ (Scores items) :: tr' => items ++ items_of tr'
  | _ :: tr' => items_of tr'
  end.

(** A score at which [float(score) > threshold] and [score >= threshold]
    give the same answer: a Python float other than the threshold, and a
    binary32 other than the threshold rounded to binary32. *)
Definition clear_of (threshold : Q) (s : score) : Prop :=
  match s with
  | py_float v => ~ (v == threshold)%Q
  | np_float32 v => binary32 v /\ ~ (v == round32 threshold)%Q
  end.

(** What the detector does with the frames [frames] taken one after the
    other: the blocks of its loop for these frames, and the scoring
    capability at the end. *)
Fixpoint detector_frames {M : Type} `{ScoringCapability M}
    (a : Detector.args) (m : M) (frames : list bytes) : M * trace :=
  match frames with
  | [] => (m, [])
  | frame :: rest =>
      match predict m (decode frame) with
      | (m1, Raises msg) =>
          let (m2, tr) := detector_frames a m1 rest in
          (m2, Predict frame (Raises msg)
                 :: (if Detector.debug a then [Emit (ErrorEvent msg)] else [])
                 ++ tr)
      | (m1, Scores items) =>
          let (m2, tr0) := Detector.evaluate a items m1 in
          let (m3, tr) := detector_frames a m2 rest in
          (m3, Predict frame (Scores items) :: tr0 ++ tr)
      end
  end.

(** The bound that the rolling maximum keeps: it is not negative, and it
    is at most the threshold or it is 0. *)
Definition max_bounded (threshold mx : Q) : Prop :=
  (0 <= mx)%Q /\ ((mx <= threshold)%Q \/ mx = 0%Q).

(** The same bound on the maximum that a telemetry record reports. *)
Definition telemetry_bounded (threshold : Q) (x : effect) : Prop :=
  match x with
  | Emit (DebugEvent _ r) =>
      (0 <= r)%Q /\ ((r <= round3 threshold)%Q \/ (r == 0)%Q)
  | _ => True
  end.

(** * Properties *)

(** ** The sample decoder *)

Lemma frame_size_val : frame_size = 2560.
Proof. reflexivity. Qed.

Lemma byte_val_range (b : byte) : (0 <= byte_val b <= 255)%Z.
Proof.
  unfold byte_val. pose proof (Byte.to_N_bounded b). lia.
Qed.

Lemma int16_le_range (lo hi : byte) : (-32768 <= int16_le lo hi <= 32767)%Z.
Proof.
  unfold int16_le.
  pose proof (byte_val_range lo). pose proof (byte_val_range hi).
  destruct (Z.ltb_spec (byte_val lo + 256 * byte_val hi) 32768); lia.
Qed.

(** The sample is the two's complement reading of the little-endian pair. *)
Lemma int16_le_mod (lo hi : byte) :
  (int16_le lo hi mod 65536 = byte_val lo + 256 * byte_val hi)%Z.
Proof.
  unfold int16_le.
  pose proof (byte_val_range lo). pose proof (byte_val_range hi).
  destruct (Z.ltb_spec (byte_val lo + 256 * byte_val hi) 32768).
  - apply Z.mod_small. lia.
  - symmetry. apply (Zmod_unique _ _ (-1)); lia.
Qed.

Lemma frombuffer_length (frame : bytes) :
  length (frombuffer frame) = length frame / 2.
Proof.
  assert (G : forall n (f : bytes), length f <= n ->
              length (frombuffer f) = length f / 2).
  { induction n as [|n IH]; intros f Hf.
    - destruct f; [reflexivity | simpl in Hf; lia].
    - destruct f as [|lo [|hi rest]]; try reflexivity.
      cbn [frombuffer length]. rewrite IH by (simpl in Hf; lia).
      replace (S (S (length rest))) with (length rest + 1 * 2) by lia.
      rewrite Nat.div_add by lia. lia. }
  apply (G (length frame)). lia.
Qed.

Lemma frombuffer_nth (i : nat) : forall frame : bytes,
  2 * i + 1 < length frame ->
  nth i (frombuffer frame) 0%Z
  = int16_le (nth (2 * i) frame x00) (nth (2 * i + 1) frame x00).
Proof.
  induction i as [|i IH]; intros [|lo [|hi rest]] Hlen; simpl in Hlen; try lia.
  - reflexivity.
  - cbn [frombuffer]. replace (2 * S i) with (S (S (2 * i))) by lia.
    cbn [nth plus]. apply IH. lia.
Qed.

Lemma normalize_range (x : Z) :
  (-32768 <= x <= 32767)%Z -> (- (1) <= normalize x /\ normalize x <= 1)%Q.
Proof.
  intros Hx. unfold normalize, Qle. cbn [Qnum Qden Qopp]. lia.
Qed.

(** The sample divided by 32768, as a quotient of rationals. *)
Lemma normalize_quotient (x : Z) :
  (normalize x == inject_Z x / inject_Z 32768)%Q.
Proof.
  unfold normalize, Qeq, Qdiv, Qmult, Qinv, inject_Z. cbn [Qnum Qden]. lia.
Qed.

(** The float32 division of the source is exact: the quotient is a
    binary32 number, an integer significand below [2^24] times [2^-15]. *)
Lemma normalize_binary32 (x : Z) :
  (-32768 <= x <= 32767)%Z ->
  (Z.abs x < 2 ^ 24)%Z /\ (normalize x == inject_Z x * (1 # 2 ^ 15))%Q.
Proof.
  intros Hx. split; [lia |].
  unfold normalize, Qeq, Qmult, inject_Z. cbn [Qnum Qden]. lia.
Qed.

(** C8: the decoder maps a frame of 2560 bytes to 1280 samples; sample [i]
    is the little-endian signed 16-bit value of bytes [2i], [2i+1] divided
    by 32768, and every signed 16-bit value is mapped into [-1, 1]. *)
Theorem decode_frame (frame : bytes) :
  length frame = frame_size ->
  length (decode frame) = CHUNK_SIZE /\
  (forall i, i < CHUNK_SIZE ->
     let lo := nth (2 * i) frame x00 in
     let hi := nth (2 * i + 1) frame x00 in
     let s := int16_le lo hi in
     (s mod 65536 = byte_val lo + 256 * byte_val hi)%Z /\
     (-32768 <= s <= 32767)%Z /\
     nth i (decode frame) 0%Q = normalize s /\
     (normalize s == inject_Z s / inject_Z 32768)%Q /\
     (- (1) <= nth i (decode frame) 0 /\ nth i (decode frame) 0 <= 1)%Q) /\
  (forall x : Z, (-32768 <= x <= 32767)%Z ->
     (normalize x == inject_Z x / inject_Z 32768)%Q /\
     (- (1) <= normalize x /\ normalize x <= 1)%Q).
Proof.
  intros Hlen. rewrite frame_size_val in Hlen.
  split; [| split].
  - unfold decode. rewrite length_map, frombuffer_length, Hlen. reflexivity.
  - intros i Hi lo hi s. unfold CHUNK_SIZE in Hi.
    assert (Hnth : nth i (decode frame) 0%Q = normalize s).
    { unfold decode.
      rewrite (nth_indep _ 0%Q (normalize 0%Z))
        by (rewrite length_map, frombuffer_length, Hlen;
            change (2560 / 2) with 1280; lia).
      rewrite map_nth, frombuffer_nth by lia. reflexivity. }
    split; [apply int16_le_mod |].
    split; [apply int16_le_range |].
    split; [exact Hnth |].
    split; [apply normalize_quotient |].
    rewrite Hnth. apply normalize_range, int16_le_range.
  - intros x Hx. split; [apply normalize_quotient | now apply normalize_range].
Qed.

Lemma decode_frame_witness :
  length (zeros 2560) = frame_size /\
  length (decode (zeros 2560)) = CHUNK_SIZE.
Proof.
  split; [reflexivity | apply (decode_frame (zeros 2560)); reflexivity].
Defined.

(** Re-quantizing a decoded sample gives the sample back, in every
    rounding mode. *)
Lemma requantize_normalize (r : rounding) (x : Z) :
  requantize r (normalize x) = x.
Proof.
  assert (E : (normalize x * inject_Z 32768 == inject_Z x)%Q).
  { unfold normalize, Qeq, Qmult, inject_Z. cbn [Qnum Qden]. lia. }
  assert (Efl : Qfloor (normalize x * inject_Z 32768) = x)
    by (rewrite (Qfloor_comp _ _ E); apply Qfloor_Z).
  assert (Ece : Qceiling (normalize x * inject_Z 32768) = x)
    by (rewrite (Qceiling_comp _ _ E); apply Qceiling_Z).
  unfold requantize, round_to_Z.
  destruct r; try assumption.
  - now destruct (Qle_bool 0 (normalize x * inject_Z 32768)).
  - unfold normalize, Qfloor, Qplus, Qmult, inject_Z. cbn [Qnum Qden].
    replace (x * 32768 * 2 + 1 * Z.pos (32768 * 1))%Z
      with (32768 + x * 65536)%Z by lia.
    change (Z.pos (32768 * 1 * 2)) with 65536%Z.
    rewrite Z.div_add by lia. reflexivity.
Qed.

(** C9: decoding a signed 16-bit sample and re-quantizing it gives the
    sample back within one least-significant bit. *)
Theorem decode_requantize_within_1_lsb (r : rounding) (x : Z) :
  (-32768 <= x <= 32767)%Z ->
  (Z.abs (requantize r (normalize x) - x) <= 1)%Z.
Proof.
  intros _. rewrite requantize_normalize. lia.
Qed.

Lemma decode_requantize_within_1_lsb_witness :
  (-32768 <= -32768 <= 32767)%Z /\
  (Z.abs (requantize RoundHalfUp (normalize (-32768)) - -32768) <= 1)%Z.
Proof.
  split; [lia | apply (decode_requantize_within_1_lsb RoundHalfUp (-32768)); lia].
Defined.

(** ** Traces *)

#[local] Opaque frame_size.

Lemma frames_of_app (a b : trace) :
  frames_of (a ++ b) = frames_of a ++ frames_of b.
Proof.
  induction a as [|[f o| |e] a IH]; cbn [frames_of app]; rewrite ?IH; reflexivity.
Qed.

Lemma events_of_app (a b : trace) :
  events_of (a ++ b) = events_of a ++ events_of b.
Proof.
  induction a as [|[f o| |e] a IH]; cbn [events_of app]; rewrite ?IH; reflexivity.
Qed.

Lemma scores_of_app (a b : trace) :
  scores_of (a ++ b) = scores_of a ++ scores_of b.
Proof.
  induction a as [|[f [items|msg]| |e] a IH]; cbn [scores_of app];
    rewrite ?IH, ?app_assoc; reflexivity.
Qed.

Lemma verdicts_silent (tr : trace) :
  forallb is_verdict tr = true ->
  frames_of tr = [] /\ scores_of tr = [] /\
  existsb is_debug tr = false /\ existsb is_raise tr = false.
Proof.
  induction tr as [|x tr IH]; [now cbn |].
  cbn [forallb]. intros Hx. apply andb_true_iff in Hx as [Hx Htr].
  destruct (IH Htr) as (IH1 & IH2 & IH3 & IH4).
  destruct x as [f o| |[]]; cbn in Hx; try discriminate;
    cbn [frames_of scores_of existsb is_debug is_raise orb]; auto.
Qed.

(** ** Cutting a stream into frames *)

Lemma well_framed_app (a b : list bytes) :
  well_framed a -> well_framed b -> well_framed (a ++ b).
Proof. unfold well_framed. intros. now apply Forall_app. Qed.

Lemma well_framed_length (frames : list bytes) :
  well_framed frames -> length (concat frames) = length frames * frame_size.
Proof.
  induction 1 as [|f frames Hf _ IH]; [reflexivity |].
  cbn [concat length]. rewrite length_app, IH, Hf. lia.
Qed.

(** Frame [i] is the [i]-th span of [frame_size] bytes of the stream. *)
Lemma well_framed_nth (frames : list bytes) : forall (rest stream : bytes) i,
  well_framed frames ->
  concat frames ++ rest = stream ->
  i < length frames ->
  nth i frames [] = firstn frame_size (skipn (i * frame_size) stream).
Proof.
  induction frames as [|f frames IH]; intros rest stream i Hw Hcat Hi;
    [cbn in Hi; lia |].
  inversion Hw as [|? ? Hf Hw']; subst.
  cbn [concat]. rewrite <- app_assoc.
  destruct i as [|i].
  - cbn [nth Nat.mul skipn]. rewrite firstn_app, Hf, Nat.sub_diag.
    rewrite <- Hf at 1. rewrite firstn_all. cbn [firstn]. now rewrite app_nil_r.
  - cbn [nth]. replace (S i * frame_size) with (length f + i * frame_size)
      by (rewrite Hf; lia).
    rewrite skipn_app, skipn_all2 by lia.
    replace (length f + i * frame_size - length f) with (i * frame_size) by lia.
    cbn [app]. apply (IH rest); auto. cbn in Hi. lia.
Qed.

(** When less than a frame is left over, the frames are all the complete
    frames of the stream and the rest is its tail. *)
Lemma well_framed_complete (frames : list bytes) (rest stream : bytes) :
  well_framed frames ->
  concat frames ++ rest = stream ->
  length rest < frame_size ->
  length frames = length stream / frame_size /\
  length rest = length stream mod frame_size /\
  rest = skipn (length stream / frame_size * frame_size) stream.
Proof.
  intros Hw Hcat Hrest.
  pose proof (well_framed_length _ Hw) as Hlen.
  assert (Hs : length stream = length frames * frame_size + length rest)
    by (rewrite <- Hcat, length_app, Hlen; reflexivity).
  rewrite frame_size_val in *.
  assert (Hq : length stream / 2560 = length frames).
  { rewrite Hs, Nat.div_add_l by lia. rewrite Nat.div_small by lia. lia. }
  split; [now rewrite Hq |]. split.
  - rewrite Hs, Nat.Div0.add_mod, Nat.Div0.mod_mul, Nat.add_0_l.
    rewrite Nat.Div0.mod_mod. now rewrite Nat.mod_small.
  - rewrite Hq, <- Hlen, <- Hcat.
    now rewrite skipn_app, skipn_all, Nat.sub_diag.
Qed.

Lemma well_framed_at_most (frames : list bytes) (rest stream : bytes) :
  well_framed frames ->
  concat frames ++ rest = stream ->
  length frames <= length stream / frame_size.
Proof.
  intros Hw Hcat. pose proof (well_framed_length _ Hw) as Hlen.
  rewrite <- Hcat, length_app, Hlen, frame_size_val.
  rewrite Nat.div_add_l by lia. lia.
Qed.

(** ** Frame assembly in the server *)

Section ServerFrames.
Context {M : Type} `{ScoringCapability M}.
Variable threshold : Q.

Lemma server_check_verdicts item (m : M) mx :
  forallb is_verdict (snd (Server.check threshold item m mx)) = true.
Proof.
  unfold Server.check. destruct item as [name score].
  destruct (Qgtb score threshold); reflexivity.
Qed.

Lemma server_evaluate_verdicts items : forall (m : M) mx,
  forallb is_verdict (snd (Server.evaluate threshold items m mx)) = true.
Proof.
  induction items as [|item items IH]; intros m mx; [reflexivity |].
  cbn [Server.evaluate].
  pose proof (server_check_verdicts item m mx) as Hc.
  destruct (Server.check threshold item m mx) as [[m1 mx1] tr1].
  specialize (IH m1 mx1).
  destruct (Server.evaluate threshold items m1 mx1) as [[m2 mx2] tr2].
  cbn [snd] in *. rewrite forallb_app, Hc, IH. reflexivity.
Qed.

Lemma server_process_frame_spec (st st' : Server.state M) tr c :
  Server.process_frame threshold st = (st', tr, c) ->
  frames_of tr = [firstn frame_size (Server.audio_buffer st)] /\
  Server.audio_buffer st' = skipn frame_size (Server.audio_buffer st) /\
  Server.frames_processed st' = Server.frames_processed st + 1 /\
  (c = Normal -> existsb is_raise tr = false) /\
  (forall msg, c = Exception msg ->
     tr = [Predict (firstn frame_size (Server.audio_buffer st)) (Raises msg)]).
Proof.
  unfold Server.process_frame.
  destruct (predict (Server.model st) _) as [m1 [items|msg]].
  - pose proof (server_evaluate_verdicts items m1 (Server.max_score st)) as Hv.
    destruct (Server.evaluate threshold items m1 (Server.max_score st))
      as [[m2 mx] tr0].
    cbn [snd] in Hv. apply verdicts_silent in Hv as (Hf & _ & _ & Hr).
    destruct (_ =? 0); intros [= <- <- <-];
      cbn [frames_of existsb is_raise orb Server.audio_buffer
           Server.frames_processed];
      rewrite ?frames_of_app, ?existsb_app, ?Hf, ?Hr;
      (repeat split; try reflexivity; intros; discriminate).
  - intros [= <- <- <-].
    cbn [frames_of Server.audio_buffer Server.frames_processed].
    repeat split; try reflexivity; intros; try discriminate.
    congruence.
Qed.

(** What the inner loop leaves behind, whether it ends normally or a
    scoring call raises. *)
Lemma server_drain_spec fuel : forall (st st' : Server.state M) tr c,
  Server.drain fuel threshold st = (st', tr, c) ->
  concat (frames_of tr) ++ Server.audio_buffer st' = Server.audio_buffer st /\
  well_framed (frames_of tr) /\
  Server.frames_processed st'
    = Server.frames_processed st + length (frames_of tr) /\
  (c = Normal ->
     existsb is_raise tr = false /\
     (length (Server.audio_buffer st) <= fuel ->
      length (Server.audio_buffer st') < frame_size)) /\
  (forall msg, c = Exception msg ->
     exists tr0 f, tr = tr0 ++ [Predict f (Raises msg)] /\
                   existsb is_raise tr0 = false).
Proof.
  induction fuel as [|fuel IH]; intros st st' tr c; cbn [Server.drain].
  - intros [= <- <- <-]. cbn [frames_of concat app length].
    repeat split; try constructor; try lia; try discriminate.
    intros Hl. rewrite frame_size_val. lia.
  - destruct (Nat.leb_spec frame_size (length (Server.audio_buffer st)))
      as [Hge|Hlt].
    + destruct (Server.process_frame threshold st) as [[st1 tr1] c1] eqn:Ep.
      apply server_process_frame_spec in Ep as (Hf1 & Hb1 & Hn1 & Hc1 & Hx1).
      assert (Hw1 : well_framed (frames_of tr1)).
      { rewrite Hf1. constructor; [| constructor].
        rewrite length_firstn. lia. }
      assert (Hcat1 : concat (frames_of tr1) ++ Server.audio_buffer st1
                      = Server.audio_buffer st).
      { rewrite Hf1, Hb1. cbn [concat]. rewrite app_nil_r.
        apply firstn_skipn. }
      destruct c1 as [|msg1].
      * destruct (Server.drain fuel threshold st1) as [[st2 tr2] c2] eqn:Ed.
        apply IH in Ed as (Hcat2 & Hw2 & Hn2 & Hc2 & Hx2).
        intros [= <- <- <-].
        rewrite frames_of_app, concat_app, <- app_assoc, Hcat2, Hcat1.
        rewrite length_app.
        split; [reflexivity |]. split; [now apply well_framed_app |].
        split; [rewrite Hn2, Hn1, Hf1; cbn [length]; lia |].
        split.
        -- intros Hc. destruct (Hc2 Hc) as [Hr2 Hl2].
           rewrite existsb_app, (Hc1 eq_refl), Hr2.
           split; [reflexivity |]. intros Hl. apply Hl2.
           rewrite Hb1, length_skipn. rewrite frame_size_val in *. lia.
        -- intros msg Hc. destruct (Hx2 msg Hc) as (tr0 & f & Htr & Hr0).
           exists (tr1 ++ tr0), f. rewrite Htr, app_assoc.
           split; [reflexivity |].
           now rewrite existsb_app, (Hc1 eq_refl), Hr0.
      * intros [= <- <- <-].
        split; [exact Hcat1 |]. split; [exact Hw1 |].
        split; [rewrite Hn1, Hf1; reflexivity |].
        split; [discriminate |].
        intros msg Hc. exists [], (firstn frame_size (Server.audio_buffer st)).
        split; [apply Hx1; exact Hc | reflexivity].
    + intros [= <- <- <-]. cbn [frames_of concat app length].
      repeat split; try constructor; try lia; try discriminate.
Qed.

Lemma server_iteration_spec (st st' : Server.state M) chunk tr :
  Server.iteration threshold st chunk = (st', tr) ->
  concat (frames_of tr) ++ Server.audio_buffer st'
    = Server.audio_buffer st ++ chunk /\
  well_framed (frames_of tr) /\
  Server.frames_processed st'
    = Server.frames_processed st + length (frames_of tr) /\
  (existsb is_raise tr = false ->
   length (Server.audio_buffer st') < frame_size).
Proof.
  unfold Server.iteration.
  destruct (Server.drain _ threshold (Server.push st chunk))
    as [[st1 tr1] c] eqn:Ed.
  apply server_drain_spec in Ed as (Hcat & Hw & Hn & Hc & Hx).
  cbn [Server.push Server.audio_buffer Server.frames_processed] in *.
  destruct c as [|msg]; intros [= <- <-].
  - repeat split; auto. intros _. now apply Hc.
  - rewrite frames_of_app. cbn [frames_of]. rewrite app_nil_r.
    repeat split; auto.
    destruct (Hx msg eq_refl) as (tr0 & f & -> & _).
    rewrite !existsb_app. cbn [existsb is_raise].
    rewrite orb_true_r. discriminate.
Qed.

Lemma server_loop_spec reads : forall (st st' : Server.state M) tr,
  Server.loop threshold st reads = (st', tr) ->
  concat (frames_of tr) ++ Server.audio_buffer st'
    = Server.audio_buffer st ++ concat (fed reads) /\
  well_framed (frames_of tr) /\
  Server.frames_processed st'
    = Server.frames_processed st + length (frames_of tr) /\
  (existsb is_raise tr = false ->
   length (Server.audio_buffer st) < frame_size ->
   length (Server.audio_buffer st') < frame_size).
Proof.
  induction reads as [|chunk reads IH]; intros st st' tr;
    cbn [Server.loop fed].
  - intros [= <- <-]. cbn [frames_of concat app length].
    rewrite app_nil_r. repeat split; auto. constructor.
  - destruct chunk as [|b chunk].
    + intros [= <- <-]. cbn [frames_of concat app length].
      rewrite app_nil_r. repeat split; auto. constructor.
    + destruct (Server.iteration threshold st (b :: chunk))
        as [st1 tr1] eqn:Ei.
      destruct (Server.loop threshold st1 reads) as [st2 tr2] eqn:El.
      apply server_iteration_spec in Ei as (Hcat1 & Hw1 & Hn1 & Hb1).
      apply IH in El as (Hcat2 & Hw2 & Hn2 & Hb2).
      intros [= <- <-].
      rewrite frames_of_app, concat_app, <- app_assoc, Hcat2.
      rewrite app_assoc, Hcat1, length_app, existsb_app.
      cbn [concat]. rewrite <- app_assoc.
      split; [reflexivity |]. split; [now apply well_framed_app |].
      split; [lia |].
      intros Hr _. apply orb_false_iff in Hr as [Hr1 Hr2]. auto.
Qed.
End ServerFrames.

(** ** Frame assembly in the detector *)

Section DetectorFrames.
Context {M : Type} `{ScoringCapability M}.
Variable a : Detector.args.

Lemma detector_check_verdicts item (m : M) :
  forallb is_verdict (snd (Detector.check a item m)) = true.
Proof.
  unfold Detector.check. destruct item as [name score].
  destruct (Detector.debug a && score_gt score Detector.float_0_1);
    destruct (score_ge score (Detector.threshold a)); reflexivity.
Qed.

Lemma detector_evaluate_verdicts items : forall m : M,
  forallb is_verdict (snd (Detector.evaluate a items m)) = true.
Proof.
  induction items as [|item items IH]; intros m; [reflexivity |].
  cbn [Detector.evaluate].
  pose proof (detector_check_verdicts item m) as Hc.
  destruct (Detector.check a item m) as [m1 tr1].
  specialize (IH m1).
  destruct (Detector.evaluate a items m1) as [m2 tr2].
  cbn [snd] in *. rewrite forallb_app, Hc, IH. reflexivity.
Qed.

Lemma detector_process_frame_spec (st st' : Detector.state M) tr c :
  Detector.process_frame a st = (st', tr, c) ->
  frames_of tr = [firstn frame_size (Detector.buffer st)] /\
  Detector.buffer st' = skipn frame_size (Detector.buffer st) /\
  (c = Normal -> existsb is_raise tr = false) /\
  (forall msg, c = Exception msg ->
     tr = [Predict (firstn frame_size (Detector.buffer st)) (Raises msg)]).
Proof.
  unfold Detector.process_frame.
  destruct (predict (Detector.oww_model st) _) as [m1 [items|msg]].
  - pose proof (detector_evaluate_verdicts items m1) as Hv.
    destruct (Detector.evaluate a items m1) as [m2 tr0].
    cbn [snd] in Hv. apply verdicts_silent in Hv as (Hf & _ & _ & Hr).
    intros [= <- <- <-].
    cbn [frames_of existsb is_raise orb Detector.buffer].
    rewrite Hf, Hr. repeat split; try reflexivity; intros; discriminate.
  - intros [= <- <- <-]. cbn [frames_of Detector.buffer].
    repeat split; try reflexivity; intros; try discriminate.
    congruence.
Qed.

Lemma detector_drain_spec fuel : forall (st st' : Detector.state M) tr c,
  Detector.drain fuel a st = (st', tr, c) ->
  concat (frames_of tr) ++ Detector.buffer st' = Detector.buffer st /\
  well_framed (frames_of tr) /\
  (c = Normal ->
     existsb is_raise tr = false /\
     (length (Detector.buffer st) <= fuel ->
      length (Detector.buffer st') < frame_size)) /\
  (forall msg, c = Exception msg ->
     exists tr0 f, tr = tr0 ++ [Predict f (Raises msg)] /\
                   existsb is_raise tr0 = false).
Proof.
  induction fuel as [|fuel IH]; intros st st' tr c; cbn [Detector.drain].
  - intros [= <- <- <-]. cbn [frames_of concat app length].
    repeat split; try constructor; try lia; try discriminate.
    intros Hl. rewrite frame_size_val. lia.
  - destruct (Nat.leb_spec frame_size (length (Detector.buffer st)))
      as [Hge|Hlt].
    + destruct (Detector.process_frame a st) as [[st1 tr1] c1] eqn:Ep.
      apply detector_process_frame_spec in Ep as (Hf1 & Hb1 & Hc1 & Hx1).
      assert (Hw1 : well_framed (frames_of tr1)).
      { rewrite Hf1. constructor; [| constructor].
        rewrite length_firstn. lia. }
      assert (Hcat1 : concat (frames_of tr1) ++ Detector.buffer st1
                      = Detector.buffer st).
      { rewrite Hf1, Hb1. cbn [concat]. rewrite app_nil_r.
        apply firstn_skipn. }
      destruct c1 as [|msg1].
      * destruct (Detector.drain fuel a st1) as [[st2 tr2] c2] eqn:Ed.
        apply IH in Ed as (Hcat2 & Hw2 & Hc2 & Hx2).
        intros [= <- <- <-].
        rewrite frames_of_app, concat_app, <- app_assoc, Hcat2, Hcat1.
        split; [reflexivity |]. split; [now apply well_framed_app |].
        split.
        -- intros Hc. destruct (Hc2 Hc) as [Hr2 Hl2].
           rewrite existsb_app, (Hc1 eq_refl), Hr2.
           split; [reflexivity |]. intros Hl. apply Hl2.
           rewrite Hb1, length_skipn. rewrite frame_size_val in *. lia.
        -- intros msg Hc. destruct (Hx2 msg Hc) as (tr0 & f & Htr & Hr0).
           exists (tr1 ++ tr0), f. rewrite Htr, app_assoc.
           split; [reflexivity |].
           now rewrite existsb_app, (Hc1 eq_refl), Hr0.
      * intros [= <- <- <-].
        split; [exact Hcat1 |]. split; [exact Hw1 |].
        split; [discriminate |].
        intros msg Hc. exists [], (firstn frame_size (Detector.buffer st)).
        split; [apply Hx1; exact Hc | reflexivity].
    + intros [= <- <- <-]. cbn [frames_of concat app length].
      repeat split; try constructor; try lia; try discriminate.
Qed.

Lemma detector_iteration_spec (st st' : Detector.state M) data tr :
  Detector.iteration a st data = (st', tr) ->
  concat (frames_of tr) ++ Detector.buffer st' = Detector.buffer st ++ data /\
  well_framed (frames_of tr) /\
  (existsb is_raise tr = false -> length (Detector.buffer st') < frame_size) /\
  (length (Detector.buffer st) < frame_size -> length data <= frame_size ->
   length (Detector.buffer st') < frame_size).
Proof.
  unfold Detector.iteration.
  destruct (Detector.drain _ a (Detector.push st data))
    as [[st1 tr1] c] eqn:Ed.
  apply detector_drain_spec in Ed as (Hcat & Hw & Hc & Hx).
  cbn [Detector.push Detector.buffer] in *.
  destruct c as [|msg]; intros [= <- <-].
  - repeat split; auto; intros; now apply Hc.
  - assert (Hfr : frames_of (tr1 ++ (if Detector.debug a
                                      then [Emit (ErrorEvent msg)] else []))
                  = frames_of tr1).
    { rewrite frames_of_app. destruct (Detector.debug a);
        cbn [frames_of]; apply app_nil_r. }
    rewrite Hfr. destruct (Hx msg eq_refl) as (tr0 & f & -> & _).
    split; [exact Hcat |]. split; [exact Hw |]. split.
    + rewrite !existsb_app. cbn [existsb is_raise].
      rewrite orb_true_r. discriminate.
    + intros Hb Hd. apply (f_equal (@length byte)) in Hcat.
      rewrite !length_app, (well_framed_length _ Hw) in Hcat.
      rewrite frames_of_app, length_app in Hcat. cbn [frames_of length] in Hcat.
      rewrite frame_size_val in *. lia.
Qed.

Lemma detector_loop_spec reads : forall (st st' : Detector.state M) tr,
  Detector.loop a st reads = (st', tr) ->
  concat (frames_of tr) ++ Detector.buffer st'
    = Detector.buffer st ++ concat (fed reads) /\
  well_framed (frames_of tr) /\
  (existsb is_raise tr = false ->
   length (Detector.buffer st) < frame_size ->
   length (Detector.buffer st') < frame_size) /\
  (Forall (fun data => length data <= frame_size) reads ->
   length (Detector.buffer st) < frame_size ->
   length (Detector.buffer st') < frame_size).
Proof.
  induction reads as [|data reads IH]; intros st st' tr;
    cbn [Detector.loop fed].
  - intros [= <- <-]. cbn [frames_of concat app length].
    rewrite app_nil_r. repeat split; auto. constructor.
  - destruct data as [|b data].
    + intros [= <- <-]. cbn [frames_of concat app length].
      rewrite app_nil_r. repeat split; auto. constructor.
    + destruct (Detector.iteration a st (b :: data)) as [st1 tr1] eqn:Ei.
      destruct (Detector.loop a st1 reads) as [st2 tr2] eqn:El.
      apply detector_iteration_spec in Ei as (Hcat1 & Hw1 & Hb1 & Hs1).
      apply IH in El as (Hcat2 & Hw2 & Hb2 & Hs2).
      intros [= <- <-].
      rewrite frames_of_app, concat_app, <- app_assoc, Hcat2.
      rewrite app_assoc, Hcat1, existsb_app.
      cbn [concat]. rewrite <- app_assoc.
      split; [reflexivity |]. split; [now apply well_framed_app |].
      split.
      * intros Hr _. apply orb_false_iff in Hr as [Hr1 Hr2]. auto.
      * intros Hall Hb. inversion Hall as [|? ? Hd Hrest]; subst. auto.
Qed.
End DetectorFrames.

(** Two cuts of one stream into frames, each leaving less than a frame,
    are the same cut. *)
Lemma well_framed_unique (f1 f2 : list bytes) (r1 r2 : bytes) :
  well_framed f1 -> well_framed f2 ->
  concat f1 ++ r1 = concat f2 ++ r2 ->
  length r1 < frame_size -> length r2 < frame_size ->
  f1 = f2.
Proof.
  intros Hw1 Hw2 Hcat Hr1 Hr2.
  destruct (well_framed_complete f1 r1 _ Hw1 eq_refl Hr1) as (Hn1 & _).
  destruct (well_framed_complete f2 r2 _ Hw2 (eq_sym Hcat) Hr2) as (Hn2 & _).
  assert (Hlen : length f1 = length f2) by (rewrite Hn1, Hn2; reflexivity).
  apply nth_ext with (d := []) (d' := []); [exact Hlen |].
  intros i Hi.
  rewrite (well_framed_nth f1 r1 _ i Hw1 eq_refl Hi).
  rewrite (well_framed_nth f2 r2 _ i Hw2 (eq_sym Hcat)) by lia.
  reflexivity.
Qed.

(** ** C1: frame assembly *)

(** C1, in the form that holds of the code: the frames extracted are
    consecutive spans of 2560 bytes of the concatenated stream, in order,
    and together with the buffer they make up the stream; the server's
    [frames_processed] grows by one per extracted frame from any starting
    state. When no scoring call raises (and, in the detector, also
    whenever no read is longer than a frame), the frames are all
    [floor(total / 2560)] complete frames and the buffer holds the
    trailing [total mod 2560] bytes. *)
Theorem frame_assembly {M : Type} `{ScoringCapability M}
    (threshold : Q) (a : Detector.args) (m : M) (reads : list bytes) :
  let stream := concat (fed reads) in
  (let st := fst (Server.loop threshold (Server.init m) reads) in
   let tr := snd (Server.loop threshold (Server.init m) reads) in
   let frames := frames_of tr in
   concat frames ++ Server.audio_buffer st = stream /\
   (forall i, i < length frames ->
      nth i frames [] = firstn frame_size (skipn (i * frame_size) stream)) /\
   Server.frames_processed st = length frames /\
   (forall st0 : Server.state M,
      Server.frames_processed (fst (Server.loop threshold st0 reads))
      = Server.frames_processed st0
        + length (frames_of (snd (Server.loop threshold st0 reads)))) /\
   length frames <= length stream / frame_size /\
   (existsb is_raise tr = false ->
      length frames = length stream / frame_size /\
      length (Server.audio_buffer st) = length stream mod frame_size /\
      Server.audio_buffer st
      = skipn (length stream / frame_size * frame_size) stream)) /\
  (let st := fst (Detector.loop a (Detector.init m) reads) in
   let tr := snd (Detector.loop a (Detector.init m) reads) in
   let frames := frames_of tr in
   concat frames ++ Detector.buffer st = stream /\
   (forall i, i < length frames ->
      nth i frames [] = firstn frame_size (skipn (i * frame_size) stream)) /\
   length frames <= length stream / frame_size /\
   (existsb is_raise tr = false \/
    Forall (fun data => length data <= frame_size) reads ->
      length frames = length stream / frame_size /\
      length (Detector.buffer st) = length stream mod frame_size /\
      Detector.buffer st
      = skipn (length stream / frame_size * frame_size) stream)).
Proof.
  intros stream. split.
  - destruct (Server.loop threshold (Server.init m) reads) as [st tr] eqn:El.
    cbn [fst snd].
    apply server_loop_spec in El as (Hcat & Hw & Hn & Hb).
    cbn [Server.init Server.audio_buffer Server.frames_processed app] in *.
    split; [exact Hcat |].
    split; [intros i Hi; now apply (well_framed_nth _ (Server.audio_buffer st)) |].
    split; [exact Hn |].
    split.
    { intros st0.
      destruct (Server.loop threshold st0 reads) as [st1 tr1] eqn:El0.
      now apply server_loop_spec in El0 as (_ & _ & Hn0 & _). }
    split; [now apply (well_framed_at_most _ (Server.audio_buffer st)) |].
    intros Hr. apply well_framed_complete; auto.
    apply Hb; [exact Hr |]. cbn [length]. rewrite frame_size_val. lia.
  - destruct (Detector.loop a (Detector.init m) reads) as [st tr] eqn:El.
    cbn [fst snd].
    apply detector_loop_spec in El as (Hcat & Hw & Hb & Hs).
    cbn [Detector.init Detector.buffer app] in *.
    split; [exact Hcat |].
    split; [intros i Hi; now apply (well_framed_nth _ (Detector.buffer st)) |].
    split; [now apply (well_framed_at_most _ (Detector.buffer st)) |].
    assert (H0 : @length byte [] < frame_size)
      by (cbn [length]; rewrite frame_size_val; lia).
    intros [Hr|Hall]; apply well_framed_complete; auto.
Qed.

Lemma frame_assembly_witness :
  existsb is_raise
    (snd (Server.loop (1 # 2) (Server.init silent) [zeros 4096; zeros 4096]))
  = false /\
  length (frames_of
    (snd (Server.loop (1 # 2) (Server.init silent) [zeros 4096; zeros 4096])))
  = length (concat (fed [zeros 4096; zeros 4096])) / frame_size.
Proof.
  split; [vm_compute; reflexivity |].
  apply (frame_assembly (1 # 2) Detector.default_args silent
           [zeros 4096; zeros 4096]).
  vm_compute; reflexivity.
Defined.

(** C1 fails as stated: in the server, when the second scoring call
    raises with a complete frame still in the buffer and the stream ends,
    two frames are extracted out of three and 3072 bytes stay behind. *)
Lemma frame_count_counterexample :
  length (concat (fed [zeros 4096; zeros 4096])) = 4096 + 4096 /\
  length (frames_of (snd (Server.loop (1 # 2) (Server.init fails_second)
                            [zeros 4096; zeros 4096])))
  <> (4096 + 4096) / frame_size /\
  length (Server.audio_buffer
            (fst (Server.loop (1 # 2) (Server.init fails_second)
                    [zeros 4096; zeros 4096])))
  <> (4096 + 4096) mod frame_size /\
  frame_size <= length (Server.audio_buffer
            (fst (Server.loop (1 # 2) (Server.init fails_second)
                    [zeros 4096; zeros 4096]))).
Proof.
  split; [vm_compute; reflexivity |].
  split; [vm_compute; discriminate |].
  split; [vm_compute; discriminate |].
  apply Nat.leb_le. vm_compute. reflexivity.
Qed.

(** ** C7: re-chunking *)

(** One byte per read and the whole stream in one read feed the same
    bytes to the loop. *)
Lemma bytewise_same_stream (stream : bytes) :
  concat (fed (bytewise stream)) = concat (fed [stream]).
Proof.
  assert (E : concat (fed (bytewise stream)) = stream).
  { induction stream as [|b stream IH]; [reflexivity |].
    cbn [bytewise map fed concat app]. fold (bytewise stream).
    now rewrite IH. }
  rewrite E. destruct stream; cbn [fed concat]; now rewrite ?app_nil_r.
Qed.

(** The reads of a blocking stream hand over the stream: they are not
    empty, none is longer than what was asked for, and together they are
    the bytes of the stream. *)
Lemma blocking_reads_spec (n : nat) : 0 < n ->
  forall fuel (stream : bytes), length stream <= fuel ->
  concat (blocking_reads fuel n stream) = stream /\
  fed (blocking_reads fuel n stream) = blocking_reads fuel n stream /\
  Forall (fun data => length data <= n) (blocking_reads fuel n stream).
Proof.
  intros Hn. induction fuel as [|fuel IH]; intros stream Hlen.
  - destruct stream; [now repeat split | simpl in Hlen; lia].
  - destruct stream as [|b stream]; [now repeat split |].
    cbn [blocking_reads].
    destruct (IH (skipn n (b :: stream))) as (Hcat & Hfed & Hall).
    { rewrite length_skipn. cbn [length] in *. lia. }
    split; [| split].
    + cbn [concat]. rewrite Hcat. apply firstn_skipn.
    + destruct n as [|n]; [lia |]. cbn [firstn fed]. cbn [firstn] in Hfed.
      now rewrite Hfed.
    + constructor; [| exact Hall]. rewrite length_firstn. lia.
Qed.

Lemma reads_of_spec (n : nat) (stream : bytes) : 0 < n ->
  concat (fed (reads_of n stream)) = stream /\
  Forall (fun data => length data <= n) (reads_of n stream).
Proof.
  intros Hn. unfold reads_of.
  destruct (blocking_reads_spec n Hn (length stream) stream (le_n _))
    as (Hcat & Hfed & Hall).
  rewrite Hfed. now split.
Qed.



(** Why the last part asks that no scoring call raises: with reads
    shorter than the 4096 bytes asked for before the end of the stream,
    and a scoring capability whose first call raises, the reads of 2559
    and 4096 bytes give one frame and the same bytes read one at a time
    give two. *)
Example short_reads_and_a_raise :
  concat (fed [zeros 2559; zeros 4096])
  = concat (fed (bytewise (zeros (2559 + 4096)))) /\
  frames_of (snd (Server.loop (1 # 2) (Server.init fails_first)
                    [zeros 2559; zeros 4096]))
  <> frames_of (snd (Server.loop (1 # 2) (Server.init fails_first)
                       (bytewise (zeros (2559 + 4096))))).
Proof.
  split; [vm_compute; reflexivity |].
  vm_compute; intros E; discriminate.
Qed.

(** ** Rounding *)

Lemma round_half_even_near (q : Q) :
  (inject_Z (round_half_even q) - (1 # 2) <= q)%Q /\
  (q <= inject_Z (round_half_even q) + (1 # 2))%Q.
Proof.
  unfold round_half_even.
  pose proof (Qfloor_le q) as Hlo. pose proof (Qlt_floor q) as Hhi.
  rewrite inject_Z_plus in Hhi. change (inject_Z 1) with 1%Q in Hhi.
  destruct (Qcompare (q - inject_Z (Qfloor q)) (1 # 2)) eqn:E.
  - apply Qeq_alt in E.
    destruct (Z.even (Qfloor q)); rewrite ?inject_Z_plus;
      change (inject_Z 1) with 1%Q; split; lra.
  - apply Qlt_alt in E. split; lra.
  - apply Qgt_alt in E. rewrite inject_Z_plus.
    change (inject_Z 1) with 1%Q. split; lra.
Qed.

Lemma round_half_even_eq (q1 q2 : Q) :
  (q1 == q2)%Q -> round_half_even q1 = round_half_even q2.
Proof.
  intros E. unfold round_half_even.
  rewrite (Qfloor_comp _ _ E).
  assert (E' : (q1 - inject_Z (Qfloor q2) == q2 - inject_Z (Qfloor q2))%Q)
    by (now rewrite E).
  now rewrite (Qcompare_comp _ _ E' _ _ (Qeq_refl (1 # 2))).
Qed.

Lemma round_half_even_mono (q1 q2 : Q) :
  (q1 <= q2)%Q -> (round_half_even q1 <= round_half_even q2)%Z.
Proof.
  intros Hle.
  destruct (Z.le_gt_cases (round_half_even q1) (round_half_even q2))
    as [H|H]; [exact H |].
  destruct (round_half_even_near q1) as [H1 _].
  destruct (round_half_even_near q2) as [_ H2].
  assert (Hz : (round_half_even q2 + 1 <= round_half_even q1)%Z) by lia.
  rewrite Zle_Qle, inject_Z_plus in Hz. change (inject_Z 1) with 1%Q in Hz.
  assert (E : (q1 == q2)%Q) by lra.
  apply round_half_even_eq in E. lia.
Qed.

Lemma round_half_even_Z (k : Z) : round_half_even (inject_Z k) = k.
Proof.
  unfold round_half_even. rewrite Qfloor_Z.
  assert (E : (inject_Z k - inject_Z k == 0)%Q) by lra.
  rewrite (Qcompare_comp _ _ E _ _ (Qeq_refl (1 # 2))). reflexivity.
Qed.

Lemma two_pos (e : Z) : (0 < 2 ^ e)%Q.
Proof. apply Qpower_0_lt. reflexivity. Qed.

(** [2 ^ (a - b)] as a quotient of integers. *)
Lemma two_power_quotient (a b : Z) : (0 <= a)%Z -> (0 <= b)%Z ->
  (2 ^ (a - b) == (2 ^ a)%Z # Z.to_pos (2 ^ b))%Q.
Proof.
  intros Ha Hb.
  rewrite Qpower_minus by discriminate.
  rewrite <- !(Zpower_Qpower 2) by assumption.
  assert (Hp : (0 < 2 ^ b)%Z) by (apply Z.pow_pos_nonneg; lia).
  unfold Qeq, Qdiv, Qmult, Qinv, inject_Z. cbn [Qnum Qden].
  destruct (2 ^ b)%Z eqn:E; try lia.
  cbn [Qnum Qden Z.to_pos]. lia.
Qed.

Lemma Qlog2_spec (x : Q) :
  (0 < x)%Q -> (2 ^ Qlog2 x <= x)%Q /\ (x < 2 ^ (Qlog2 x + 1))%Q.
Proof.
  intros Hx. destruct x as [n d]. unfold Qlog2. cbn [Qnum Qden].
  assert (Hn : (0 < n)%Z) by (unfold Qlt in Hx; cbn in Hx; lia).
  pose proof (Z.log2_spec n Hn) as [Hn1 Hn2].
  pose proof (Z.log2_spec (Z.pos d) (Pos2Z.is_pos d)) as [Hd1 Hd2].
  pose proof (Z.log2_nonneg n) as Ha.
  pose proof (Z.log2_nonneg (Z.pos d)) as Hb.
  set (a := Z.log2 n) in *. set (b := Z.log2 (Z.pos d)) in *.
  assert (Hpb : (0 < 2 ^ b)%Z) by (apply Z.pow_pos_nonneg; lia).
  assert (Hpb1 : (0 < 2 ^ (b + 1))%Z) by (apply Z.pow_pos_nonneg; lia).
  destruct (Qle_bool (2 ^ (a - b)) (n # d)) eqn:E.
  - apply Qle_bool_iff in E. split; [exact E |].
    replace (a - b + 1)%Z with (a + 1 - b)%Z by lia.
    rewrite two_power_quotient by lia.
    unfold Qlt. cbn [Qnum Qden]. rewrite Z2Pos.id by lia.
    apply Z.lt_le_trans with (2 ^ (a + 1) * 2 ^ b)%Z.
    + apply Z.mul_lt_mono_pos_r; lia.
    + apply Z.mul_le_mono_nonneg_l; lia.
  - assert (Hlt : (n # d < 2 ^ (a - b))%Q).
    { apply Qnot_le_lt. intros Hle. apply Qle_bool_iff in Hle. congruence. }
    split.
    + replace (a - b - 1)%Z with (a - (b + 1))%Z by lia.
      rewrite two_power_quotient by lia.
      unfold Qle. cbn [Qnum Qden]. rewrite Z2Pos.id by lia.
      apply Z.le_trans with (2 ^ a * 2 ^ (b + 1))%Z.
      * apply Z.mul_le_mono_nonneg_l; lia.
      * apply Z.mul_le_mono_nonneg_r; lia.
    + replace (a - b - 1 + 1)%Z with (a - b)%Z by lia. exact Hlt.
Qed.

Lemma Qabs_scaled (m e : Z) :
  (Qabs (inject_Z m * 2 ^ e) == inject_Z (Z.abs m) * 2 ^ e)%Q.
Proof.
  rewrite Qabs_Qmult. rewrite (Qabs_pos (2 ^ e)) by (apply Qlt_le_weak, two_pos).
  unfold Qabs, inject_Z. cbn [Qnum Qden]. reflexivity.
Qed.

Lemma ulp32_le (x : Q) (m e : Z) :
  (Z.abs m < 2 ^ 24)%Z -> (-149 <= e)%Z -> (x == inject_Z m * 2 ^ e)%Q ->
  ~ (x == 0)%Q -> (ulp32 x <= e)%Z.
Proof.
  intros Hm He Hx Hnz. unfold ulp32.
  apply Z.max_lub; [| exact He].
  assert (Hpos : (0 < Qabs x)%Q).
  { clear - Hnz. destruct x as [n d]. unfold Qabs, Qlt, Qeq in *.
    cbn [Qnum Qden] in *. lia. }
  destruct (Qlog2_spec _ Hpos) as [Hlo _].
  assert (Hup : (Qabs x < 2 ^ (24 + e))%Q).
  { rewrite Hx, Qabs_scaled, Qpower_plus by discriminate.
    apply Qmult_lt_compat_r; [apply two_pos |].
    rewrite <- (Zpower_Qpower 2) by lia. rewrite <- Zlt_Qlt. exact Hm. }
  assert (H : (2 ^ Qlog2 (Qabs x) < 2 ^ (24 + e))%Q)
    by (eapply Qle_lt_trans; eassumption).
  apply Qpower_lt_compat_l_inv in H; [lia | reflexivity].
Qed.

Lemma round32_exact (x : Q) (m e : Z) :
  (Z.abs m < 2 ^ 24)%Z -> (-149 <= e)%Z -> (x == inject_Z m * 2 ^ e)%Q ->
  (round32 x == x)%Q.
Proof.
  intros Hm He Hx. unfold round32.
  set (u := ulp32 x).
  destruct (Qeq_dec x 0) as [E0|Hnz].
  - assert (E : (x / 2 ^ u == inject_Z 0)%Q).
    { rewrite E0. unfold Qdiv. rewrite Qmult_0_l. reflexivity. }
    rewrite (round_half_even_eq _ _ E), round_half_even_Z, Qmult_0_l.
    symmetry. exact E0.
  - assert (Hu : (u <= e)%Z) by (apply (ulp32_le x m e); assumption).
    assert (E : (x / 2 ^ u == inject_Z (m * 2 ^ (e - u)))%Q).
    { rewrite Hx, inject_Z_mult, (Zpower_Qpower 2) by lia.
      rewrite Qpower_minus by discriminate.
      change (inject_Z 2) with 2%Q.
      pose proof (two_pos u). generalize dependent (2 ^ u)%Q.
      generalize (2 ^ e)%Q. intros; field; lra. }
    rewrite (round_half_even_eq _ _ E), round_half_even_Z.
    rewrite Hx, inject_Z_mult, (Zpower_Qpower 2) by lia.
    rewrite Qpower_minus by discriminate.
    change (inject_Z 2) with 2%Q.
    pose proof (two_pos u). generalize dependent (2 ^ u)%Q.
    generalize (2 ^ e)%Q. intros; field; lra.
Qed.

(** Converting a binary32 number to binary32 changes nothing. *)
Lemma to_float32_exact (x : Q) :
  binary32 x -> exists r, to_float32 x = Finite r /\ (r == x)%Q.
Proof.
  intros (m & e & Hm & [He1 He2] & Hx). unfold to_float32.
  pose proof (round32_exact x m e Hm He1 Hx) as Er.
  exists (round32 x). split; [| exact Er].
  destruct (Qle_bool (2 ^ 128) (Qabs (round32 x))) eqn:E; [| reflexivity].
  exfalso. apply Qle_bool_iff in E.
  rewrite Er, Hx, Qabs_scaled in E.
  assert (Hlt : (inject_Z (Z.abs m) * 2 ^ e < 2 ^ 128)%Q).
  { apply Qlt_le_trans with (2 ^ 24 * 2 ^ e)%Q.
    - apply Qmult_lt_compat_r; [apply two_pos |].
      rewrite <- (Zpower_Qpower 2) by lia. rewrite <- Zlt_Qlt. exact Hm.
    - rewrite <- Qpower_plus by discriminate.
      apply Qpower_le_compat_l; [lia | discriminate]. }
  exact (Qlt_not_le _ _ Hlt E).
Qed.

(** The conversion moves a number by at most half a unit in the last
    place. *)
Lemma round32_near (x : Q) :
  (Qabs (round32 x - x) <= 2 ^ (ulp32 x - 1))%Q.
Proof.
  unfold round32. set (u := ulp32 x).
  pose proof (two_pos u) as Hp.
  destruct (round_half_even_near (x / 2 ^ u)) as [H1 H2].
  set (k := inject_Z (round_half_even (x / 2 ^ u))) in *.
  assert (Ex : (x == x / 2 ^ u * 2 ^ u)%Q).
  { field. apply Qpower_not_0. discriminate. }
  assert (Eh : (2 ^ (u - 1) == (1 # 2) * 2 ^ u)%Q).
  { rewrite Qpower_minus by discriminate. change (2 ^ 1)%Q with 2%Q. field. }
  rewrite Eh. set (y := (x / 2 ^ u)%Q) in *.
  assert (E : (k * 2 ^ u - x == (k - y) * 2 ^ u)%Q) by (rewrite Ex at 1; ring).
  rewrite E, Qabs_Qmult, (Qabs_pos (2 ^ u)) by lra.
  apply Qmult_le_compat_r; [| lra].
  apply Qabs_case; intros _; lra.
Qed.

Lemma Qlog2_mono (x y : Q) :
  (0 < x)%Q -> (x <= y)%Q -> (Qlog2 x <= Qlog2 y)%Z.
Proof.
  intros Hx Hxy.
  destruct (Qlog2_spec x Hx) as [H1 _].
  destruct (Qlog2_spec y) as [_ H2]; [lra |].
  assert (H : (2 ^ Qlog2 x < 2 ^ (Qlog2 y + 1))%Q) by lra.
  apply Qpower_lt_compat_l_inv in H; [lia | reflexivity].
Qed.

Lemma Qabs_of_pos (x : Q) : (0 <= x)%Q -> Qabs x = x.
Proof.
  destruct x as [n d]. unfold Qle, Qabs. cbn [Qnum Qden]. intros H.
  f_equal. lia.
Qed.

(** A scaled quotient is an integer when the exponents allow it. *)
Lemma two_power_scaled (a b : Z) : (b <= a)%Z ->
  (2 ^ a / 2 ^ b == inject_Z (2 ^ (a - b)))%Q.
Proof.
  intros H. rewrite (Zpower_Qpower 2) by lia. change (inject_Z 2) with 2%Q.
  rewrite Qpower_minus by discriminate. reflexivity.
Qed.

Lemma scale_le (x y : Q) (u : Z) : (x <= y)%Q -> (x / 2 ^ u <= y / 2 ^ u)%Q.
Proof.
  intros H. pose proof (two_pos u) as Hp. unfold Qdiv.
  apply Qmult_le_compat_r; [exact H |].
  apply Qlt_le_weak, Qinv_lt_0_compat, Hp.
Qed.

(** A multiple of a power of two that is at or above the unit in the
    last place of [x] is on the same side of the conversion of [x] as
    of [x]. *)
Lemma grid_point (K k u : Z) : (u <= k)%Z ->
  (inject_Z K * 2 ^ k == inject_Z (K * 2 ^ (k - u)) * 2 ^ u)%Q.
Proof.
  intros H. rewrite inject_Z_mult, <- two_power_scaled by lia.
  pose proof (two_pos u). generalize dependent (2 ^ u)%Q.
  generalize (2 ^ k)%Q. intros; field; lra.
Qed.

Lemma round32_le_grid (x : Q) (K k : Z) :
  (ulp32 x <= k)%Z -> (x <= inject_Z K * 2 ^ k)%Q ->
  (round32 x <= inject_Z K * 2 ^ k)%Q.
Proof.
  intros Hu Hx. unfold round32. set (u := ulp32 x) in *.
  pose proof (two_pos u) as Hp.
  rewrite (grid_point K k u Hu) in *.
  apply Qmult_le_compat_r; [| lra].
  rewrite <- Zle_Qle. rewrite <- (round_half_even_Z (K * 2 ^ (k - u))).
  apply round_half_even_mono.
  apply Qle_shift_div_r; [exact Hp | exact Hx].
Qed.

Lemma round32_ge_grid (x : Q) (K k : Z) :
  (ulp32 x <= k)%Z -> (inject_Z K * 2 ^ k <= x)%Q ->
  (inject_Z K * 2 ^ k <= round32 x)%Q.
Proof.
  intros Hu Hx. unfold round32. set (u := ulp32 x) in *.
  pose proof (two_pos u) as Hp.
  rewrite (grid_point K k u Hu) in *.
  apply Qmult_le_compat_r; [| lra].
  rewrite <- Zle_Qle. rewrite <- (round_half_even_Z (K * 2 ^ (k - u))) at 1.
  apply round_half_even_mono.
  apply Qle_shift_div_l; [exact Hp | exact Hx].
Qed.

Lemma ulp32_min (x : Q) : (-149 <= ulp32 x)%Z.
Proof. unfold ulp32. lia. Qed.

Lemma round32_nonneg (x : Q) : (0 <= x)%Q -> (0 <= round32 x)%Q.
Proof.
  intros Hx.
  pose proof (round32_ge_grid x 0 (ulp32 x) (Z.le_refl _)) as H.
  rewrite Qmult_0_l in H. auto.
Qed.

Lemma round32_nonpos (x : Q) : (x <= 0)%Q -> (round32 x <= 0)%Q.
Proof.
  intros Hx.
  pose proof (round32_le_grid x 0 (ulp32 x) (Z.le_refl _)) as H.
  rewrite Qmult_0_l in H. auto.
Qed.

Lemma round32_mono_pos (x y : Q) :
  (0 < x)%Q -> (x <= y)%Q -> (round32 x <= round32 y)%Q.
Proof.
  intros Hx Hxy.
  assert (Hy : (0 < y)%Q) by lra.
  pose proof (Qlog2_mono x y Hx Hxy) as Hl.
  assert (Ax : Qabs x = x) by (apply Qabs_of_pos; lra).
  assert (Ay : Qabs y = y) by (apply Qabs_of_pos; lra).
  destruct (Z.eq_dec (ulp32 x) (ulp32 y)) as [E|Hne].
  - unfold round32. rewrite E. pose proof (two_pos (ulp32 y)) as Hp.
    apply Qmult_le_compat_r; [| lra].
    rewrite <- Zle_Qle. apply round_half_even_mono. now apply scale_le.
  - assert (Hlt : (Qlog2 x < Qlog2 y)%Z /\ ulp32 y = (Qlog2 y - 23)%Z).
    { unfold ulp32 in *. rewrite Ax, Ay in *. lia. }
    destruct Hlt as [Hlt Euy].
    destruct (Qlog2_spec x Hx) as [_ Hx2].
    destruct (Qlog2_spec y Hy) as [Hy1 _].
    apply Qle_trans with (inject_Z 1 * 2 ^ Qlog2 y)%Q.
    + apply round32_le_grid.
      * pose proof (ulp32_min y). unfold ulp32. rewrite Ax. lia.
      * rewrite Qmult_1_l.
        apply Qle_trans with (2 ^ (Qlog2 x + 1))%Q; [lra |].
        apply Qpower_le_compat_l; [lia | discriminate].
    + apply round32_ge_grid; [lia | now rewrite Qmult_1_l].
Qed.

Lemma Qabs_of_neg (x : Q) : (x <= 0)%Q -> Qabs x = (- x)%Q.
Proof.
  destruct x as [n d]. unfold Qle, Qabs, Qopp. cbn [Qnum Qden]. intros H.
  f_equal. lia.
Qed.

Lemma round32_mono_neg (x y : Q) :
  (y < 0)%Q -> (x <= y)%Q -> (round32 x <= round32 y)%Q.
Proof.
  intros Hy Hxy.
  assert (Hx : (x < 0)%Q) by lra.
  assert (Hl : (Qlog2 (- y) <= Qlog2 (- x))%Z) by (apply Qlog2_mono; lra).
  assert (Ax : Qabs x = (- x)%Q) by (apply Qabs_of_neg; lra).
  assert (Ay : Qabs y = (- y)%Q) by (apply Qabs_of_neg; lra).
  destruct (Z.eq_dec (ulp32 x) (ulp32 y)) as [E|Hne].
  - unfold round32. rewrite E. pose proof (two_pos (ulp32 y)) as Hp.
    apply Qmult_le_compat_r; [| lra].
    rewrite <- Zle_Qle. apply round_half_even_mono. now apply scale_le.
  - assert (Hlt : (Qlog2 (- y) < Qlog2 (- x))%Z
                  /\ ulp32 x = (Qlog2 (- x) - 23)%Z).
    { unfold ulp32 in *. rewrite Ax, Ay in *. lia. }
    destruct Hlt as [Hlt Eux].
    destruct (Qlog2_spec (- y)) as [_ Hy2]; [lra |].
    destruct (Qlog2_spec (- x)) as [Hx1 _]; [lra |].
    assert (Hb : (2 ^ (Qlog2 (- y) + 1) <= 2 ^ Qlog2 (- x))%Q)
      by (apply Qpower_le_compat_l; [lia | discriminate]).
    apply Qle_trans with (inject_Z (-1) * 2 ^ Qlog2 (- x))%Q.
    + apply round32_le_grid; [lia |].
      change (inject_Z (-1)) with (-1)%Q. lra.
    + apply round32_ge_grid.
      * pose proof (ulp32_min x). unfold ulp32. rewrite Ay. lia.
      * change (inject_Z (-1)) with (-1)%Q. lra.
Qed.

(** The conversion is monotone. *)
Lemma round32_mono (x y : Q) : (x <= y)%Q -> (round32 x <= round32 y)%Q.
Proof.
  intros Hxy.
  destruct (Qlt_le_dec 0 x) as [Hx|Hx]; [now apply round32_mono_pos |].
  destruct (Qlt_le_dec y 0) as [Hy|Hy]; [now apply round32_mono_neg |].
  apply Qle_trans with 0%Q; [now apply round32_nonpos | now apply round32_nonneg].
Qed.

(** ** C2, C5: the detection evaluator *)

Lemma Qgtb_lt (a b : Q) : Qgtb a b = true <-> (b < a)%Q.
Proof.
  unfold Qgtb. rewrite negb_true_iff. split.
  - intros E. apply Qnot_le_lt. intros Hle.
    apply Qle_bool_iff in Hle. congruence.
  - intros Hlt. destruct (Qle_bool a b) eqn:E; [| reflexivity].
    apply Qle_bool_iff in E. exfalso. exact (Qlt_not_le _ _ Hlt E).
Qed.

Lemma Qgeb_le (a b : Q) : Qgeb a b = true <-> (b <= a)%Q.
Proof. unfold Qgeb. apply Qle_bool_iff. Qed.

(** [score >= x] and [score > x] in rationals. *)
Lemma score_ge_iff (s : score) (x : Q) :
  score_ge s x = true <->
  match s with
  | py_float v => (x <= v)%Q
  | np_float32 v =>
      match to_float32 x with
      | Finite r => (r <= v)%Q
      | Infinity negative => negative = true
      end
  end.
Proof.
  destruct s as [v|v]; cbn [score_ge]; [apply Qgeb_le |].
  destruct (to_float32 x); [apply Qgeb_le | tauto].
Qed.

Lemma score_gt_iff (s : score) (x : Q) :
  score_gt s x = true <->
  match s with
  | py_float v => (x < v)%Q
  | np_float32 v =>
      match to_float32 x with
      | Finite r => (r < v)%Q
      | Infinity negative => negative = true
      end
  end.
Proof.
  destruct s as [v|v]; cbn [score_gt]; [apply Qgtb_lt |].
  destruct (to_float32 x); [apply Qgtb_lt | tauto].
Qed.

Lemma binary32_bound (v : Q) : binary32 v -> (Qabs v < 2 ^ 128)%Q.
Proof.
  intros (m & e & Hm & [He1 He2] & Hv). rewrite Hv, Qabs_scaled.
  apply Qlt_le_trans with (2 ^ 24 * 2 ^ e)%Q.
  - apply Qmult_lt_compat_r; [apply two_pos |].
    rewrite <- (Zpower_Qpower 2) by lia. rewrite <- Zlt_Qlt. exact Hm.
  - rewrite <- Qpower_plus by discriminate.
    apply Qpower_le_compat_l; [lia | discriminate].
Qed.

Lemma binary32_round32 (v : Q) : binary32 v -> (round32 v == v)%Q.
Proof.
  intros (m & e & Hm & [He1 He2] & Hv). now apply (round32_exact v m e).
Qed.

(** A score that is at or above the threshold passes [score >= threshold]
    in either precision. *)
Lemma score_ge_complete (s : score) (x : Q) :
  well_formed s ->
  (x <= value s)%Q -> score_ge s x = true.
Proof.
  intros Hs Hle. apply score_ge_iff. destruct s as [v|v]; cbn [value] in *;
    [exact Hle |].
  pose proof (round32_mono x v Hle) as Hm.
  rewrite (binary32_round32 v Hs) in Hm.
  unfold to_float32.
  destruct (Qle_bool (2 ^ 128) (Qabs (round32 x))) eqn:E; [| exact Hm].
  apply Qle_bool_iff in E.
  destruct (Qle_bool 0 x) eqn:E0; [| reflexivity]. exfalso.
  apply Qle_bool_iff in E0.
  pose proof (round32_nonneg x E0) as Hr.
  rewrite (Qabs_pos _ Hr) in E.
  pose proof (binary32_bound v Hs) as Hb.
  assert (Hv : (0 <= v)%Q) by lra.
  rewrite (Qabs_pos _ Hv) in Hb. lra.
Qed.

(** A score that passes [score >= threshold] is at most half a unit in the
    last place of binary32 below a threshold that is not negative. *)
Lemma score_ge_sound (s : score) (x : Q) :
  (0 <= x)%Q -> score_ge s x = true ->
  (x - 2 ^ (ulp32 x - 1) <= value s)%Q /\
  match s with py_float v => (x <= v)%Q | np_float32 _ => True end.
Proof.
  intros Hx Hs. apply score_ge_iff in Hs.
  pose proof (two_pos (ulp32 x - 1)) as Hp.
  pose proof (round32_near x) as Hn.
  set (eps := (2 ^ (ulp32 x - 1))%Q) in *.
  destruct s as [v|v]; cbv beta iota in Hs; cbn [value];
    [split; [lra | exact Hs] |].
  split; [| exact I].
  unfold to_float32 in Hs.
  destruct (Qle_bool (2 ^ 128) (Qabs (round32 x))).
  - apply Qle_bool_iff in Hx. rewrite Hx in Hs. discriminate.
  - cbv beta iota in Hs. revert Hn. apply Qabs_case; intros Hsign Hn; lra.
Qed.

Section Evaluator.
Context {M : Type} `{ScoringCapability M}.

Lemma detector_check_detection (a : Detector.args) item (m : M) name score :
  In (DetectionEvent name score) (events_of (snd (Detector.check a item m)))
  <-> exists s, item = (name, s) /\ value s = score /\
                score_ge s (Detector.threshold a) = true.
Proof.
  destruct item as [n s]. unfold Detector.check.
  set (log := if Detector.debug a && score_gt s Detector.float_0_1
              then [Emit (ScoreLog n (round3 s))] else []).
  assert (Hlog : ~ In (DetectionEvent name score) (events_of log)).
  { subst log. destruct (_ && _); cbn; [intros [[=]|[]] | tauto]. }
  destruct (score_ge s (Detector.threshold a)) eqn:E; cbn [snd].
  - rewrite events_of_app, in_app_iff. cbn [events_of In]. split.
    + intros [Hl|[[= -> <-]|[]]]; [contradiction |]. now exists s.
    + intros (s' & [= -> <-] & <- & _). right; left; reflexivity.
  - split; [contradiction |].
    intros (s' & [= -> <-] & _ & E'). congruence.
Qed.

Lemma server_check_detection threshold item (m : M) mx name score :
  In (DetectionEvent name score)
     (events_of (snd (Server.check threshold item m mx)))
  <-> exists s, item = (name, s) /\ value s = score /\ (threshold < score)%Q.
Proof.
  destruct item as [n s]. unfold Server.check.
  destruct (Qgtb s threshold) eqn:E; cbn [snd events_of In]; split.
  - intros [[= -> <-]|[]]. exists s. repeat split. now apply Qgtb_lt.
  - intros (s' & [= -> <-] & <- & _). now left.
  - intros [].
  - intros (s' & [= -> <-] & <- & Hlt). apply Qgtb_lt in Hlt. congruence.
Qed.

Lemma detector_evaluate_detection (a : Detector.args) items :
  forall (m : M) name score,
  In (DetectionEvent name score)
     (events_of (snd (Detector.evaluate a items m)))
  <-> exists s, In (name, s) items /\ value s = score /\
                score_ge s (Detector.threshold a) = true.
Proof.
  induction items as [|item items IH]; intros m name score.
  - cbn. split; [tauto | intros (s & [] & _)].
  - cbn [Detector.evaluate In].
    pose proof (detector_check_detection a item m name score) as Hc.
    destruct (Detector.check a item m) as [m1 tr1].
    specialize (IH m1 name score).
    destruct (Detector.evaluate a items m1) as [m2 tr2].
    cbn [snd] in *. rewrite events_of_app, in_app_iff, Hc, IH. split.
    + intros [(s & E & Hs)|(s & Hin & Hs)]; exists s; tauto.
    + intros (s & [E|Hin] & Hs); [left | right]; exists s; tauto.
Qed.

Lemma server_evaluate_detection threshold items :
  forall (m : M) mx name score,
  In (DetectionEvent name score)
     (events_of (snd (Server.evaluate threshold items m mx)))
  <-> exists s, In (name, s) items /\ value s = score /\
                (threshold < score)%Q.
Proof.
  induction items as [|item items IH]; intros m mx name score.
  - cbn. split; [tauto | intros (s & [] & _)].
  - cbn [Server.evaluate In].
    pose proof (server_check_detection threshold item m mx name score) as Hc.
    destruct (Server.check threshold item m mx) as [[m1 mx1] tr1].
    specialize (IH m1 mx1 name score).
    destruct (Server.evaluate threshold items m1 mx1) as [[m2 mx2] tr2].
    cbn [snd] in *. rewrite events_of_app, in_app_iff, Hc, IH. split.
    + intros [(s & E & Hs)|(s & Hin & Hs)]; exists s; tauto.
    + intros (s & [E|Hin] & Hs); [left | right]; exists s; tauto.
Qed.
End Evaluator.

(** C2, in the form that holds of the code: over the score map of a
    frame, the server prints a detection record for a pair exactly when
    [float(score) > threshold], and the detector exactly when
    [score >= threshold] in the precision of the score: in rationals for a
    Python float, and against the threshold rounded to binary32 for a
    [numpy.float32] under NumPy 2.  A score at or above the threshold is
    always detected by the detector, a detected one is at most half a unit
    in the last place of binary32 below the threshold, and with a score
    equal to the threshold the detector prints the record and the server
    does not. *)
Theorem threshold_comparison {M : Type} `{ScoringCapability M}
    (a : Detector.args) (threshold : Q) (items : list (string * score))
    (m : M) (mx : Q) (name : string) (score : Q) :
  let detected_by_detector :=
    In (DetectionEvent name score)
       (events_of (snd (Detector.evaluate a items m))) in
  let detected_by_server :=
    In (DetectionEvent name score)
       (events_of (snd (Server.evaluate threshold items m mx))) in
  (detected_by_detector
   <-> exists s, In (name, s) items /\ value s = score /\
         match s with
         | py_float _ => (score >= Detector.threshold a)%Q
         | np_float32 _ =>
             match to_float32 (Detector.threshold a) with
             | Finite r => (score >= r)%Q
             | Infinity negative => negative = true
             end
         end) /\
  (detected_by_server
   <-> exists s, In (name, s) items /\ value s = score /\
                 (score > threshold)%Q) /\
  (forall s, In (name, s) items -> value s = score -> well_formed s ->
     (score >= Detector.threshold a)%Q -> detected_by_detector) /\
  ((0 <= Detector.threshold a)%Q -> detected_by_detector ->
   (score >= Detector.threshold a
             - 2 ^ (ulp32 (Detector.threshold a) - 1))%Q) /\
  (forall s, In (name, s) items -> value s = score -> well_formed s ->
     (score == threshold)%Q -> (score == Detector.threshold a)%Q ->
     detected_by_detector /\ ~ detected_by_server).
Proof.
  intros detected_by_detector detected_by_server.
  subst detected_by_detector detected_by_server.
  assert (Hcomplete : forall s, In (name, s) items -> value s = score ->
            well_formed s ->
            (score >= Detector.threshold a)%Q ->
            In (DetectionEvent name score)
               (events_of (snd (Detector.evaluate a items m)))).
  { intros s Hin Ev Hs Hge. apply detector_evaluate_detection.
    exists s. split; [exact Hin |]. split; [exact Ev |].
    apply score_ge_complete; [exact Hs | now rewrite Ev]. }
  split; [| split; [| split; [| split]]].
  - rewrite detector_evaluate_detection. split.
    + intros (s & Hin & Ev & Hs). exists s. split; [exact Hin |].
      split; [exact Ev |]. apply score_ge_iff in Hs.
      destruct s as [v|v]; cbn [value] in Ev; subst v; exact Hs.
    + intros (s & Hin & Ev & Hs). exists s. split; [exact Hin |].
      split; [exact Ev |]. apply score_ge_iff.
      destruct s as [v|v]; cbn [value] in Ev; subst v; exact Hs.
  - apply server_evaluate_detection.
  - exact Hcomplete.
  - intros Hpos Hd. apply detector_evaluate_detection in Hd
      as (s & _ & Ev & Hs).
    destruct (score_ge_sound s _ Hpos Hs) as [Hb _]. now rewrite Ev in Hb.
  - intros s Hin Ev Hs Es Ed. split.
    + apply (Hcomplete s); auto. rewrite Ed. apply Qle_refl.
    + intros Hd. apply server_evaluate_detection in Hd as (_ & _ & _ & Hlt).
      rewrite Es in Hlt. exact (Qlt_irrefl _ Hlt).
Qed.

Lemma threshold_comparison_witness :
  In (DetectionEvent "hey_jarvis" (1 # 2))
     (events_of (snd (Detector.evaluate (Detector.mkArgs "hey_jarvis" (1 # 2) false)
                        [("hey_jarvis"%string, np_float32 (1 # 2))] silent))) /\
  ~ In (DetectionEvent "hey_jarvis" (1 # 2))
       (events_of (snd (Server.evaluate (1 # 2)
                          [("hey_jarvis"%string, np_float32 (1 # 2))]
                          silent 0))).
Proof.
  assert (Hb : binary32 (1 # 2)).
  { exists 1%Z, (-1)%Z. split; [reflexivity |]. split; [lia | reflexivity]. }
  exact (proj2 (proj2 (proj2 (proj2
           (threshold_comparison (Detector.mkArgs "hey_jarvis" (1 # 2) false)
              (1 # 2) [("hey_jarvis"%string, np_float32 (1 # 2))] silent 0
              "hey_jarvis" (1 # 2)))))
           (np_float32 (1 # 2)) (or_introl eq_refl) eq_refl Hb
           (Qeq_refl _) (Qeq_refl _)).
Defined.

(** C2 fails as stated: under NumPy 2 the score float32(0.65), which is
    0.6499999761581421 and below the default threshold 0.65 of the
    detector, is detected, because line 137 compares the [numpy.float32]
    with the threshold rounded to binary32.  The server, which converts
    the score to a Python float first, does not detect it at that
    threshold. *)
Lemma detector_threshold_counterexample :
  let score := (5452595 # 8388608)%Q in
  let items := [("hey_jarvis"%string, np_float32 score)] in
  binary32 score /\
  (score < Detector.float_0_65)%Q /\
  to_float32 Detector.float_0_65 = Finite (10905190 # 16777216) /\
  In (DetectionEvent "hey_jarvis" score)
     (events_of (snd (Detector.evaluate Detector.default_args items silent))) /\
  ~ In (DetectionEvent "hey_jarvis" score)
       (events_of (snd (Server.evaluate Detector.float_0_65 items silent 0))).
Proof.
  intros score items. subst score items.
  split.
  { exists 5452595%Z, (-23)%Z. split; [reflexivity |].
    split; [lia | reflexivity]. }
  split; [reflexivity |].
  split; [vm_compute; reflexivity |].
  split.
  - vm_compute. left. reflexivity.
  - vm_compute. intros [].
Qed.

Section EvaluatorSteps.
Context {M : Type} `{ScoringCapability M}.

Lemma server_evaluate_app threshold before : forall after (m : M) mx,
  Server.evaluate threshold (before ++ after) m mx
  = let '(m1, mx1, tr1) := Server.evaluate threshold before m mx in
    let '(m2, mx2, tr2) := Server.evaluate threshold after m1 mx1 in
    (m2, mx2, tr1 ++ tr2).
Proof.
  induction before as [|item before IH]; intros after m mx.
  - cbn [app Server.evaluate].
    now destruct (Server.evaluate threshold after m mx) as [[m2 mx2] tr2].
  - cbn [app Server.evaluate].
    destruct (Server.check threshold item m mx) as [[m0 mx0] tr0].
    rewrite IH.
    destruct (Server.evaluate threshold before m0 mx0) as [[m1 mx1] tr1].
    destruct (Server.evaluate threshold after m1 mx1) as [[m2 mx2] tr2].
    now rewrite app_assoc.
Qed.

Lemma detector_evaluate_app a before : forall after (m : M),
  Detector.evaluate a (before ++ after) m
  = let (m1, tr1) := Detector.evaluate a before m in
    let (m2, tr2) := Detector.evaluate a after m1 in
    (m2, tr1 ++ tr2).
Proof.
  induction before as [|item before IH]; intros after m.
  - cbn [app Detector.evaluate].
    now destruct (Detector.evaluate a after m) as [m2 tr2].
  - cbn [app Detector.evaluate].
    destruct (Detector.check a item m) as [m0 tr0].
    rewrite IH.
    destruct (Detector.evaluate a before m0) as [m1 tr1].
    destruct (Detector.evaluate a after m1) as [m2 tr2].
    now rewrite app_assoc.
Qed.
End EvaluatorSteps.

(** C5, in the form that holds of the code: when a pair of the score
    map passes the comparison of the variant, the detection record with
    its name and score is printed, the scoring capability is reset right
    after it, and the rest of the map is evaluated on the reset
    capability; in the server [max_score] is 0 at that point.  The
    detector keeps no rolling maximum: its evaluator gives back the
    capability and what was printed, and nothing else. *)
Theorem detection_then_reset {M : Type} `{ScoringCapability M}
    (a : Detector.args) (threshold : Q)
    (before after : list (string * score)) (name : string) (s : score)
    (m : M) (mx : Q) :
  ((s > threshold)%Q ->
   Server.check threshold (name, s) m mx
   = (reset m, 0%Q, [Emit (DetectionEvent name s); ResetModel]) /\
   Server.evaluate threshold (before ++ (name, s) :: after) m mx
   = let '(m1, mx1, tr1) := Server.evaluate threshold before m mx in
     let '(m2, mx2, tr2) := Server.evaluate threshold after (reset m1) 0 in
     (m2, mx2, tr1 ++ Emit (DetectionEvent name s) :: ResetModel :: tr2)) /\
  (score_ge s (Detector.threshold a) = true ->
   (exists log,
      Detector.check a (name, s) m
      = (reset m, log ++ [Emit (DetectionEvent name s); ResetModel]) /\
      (log = [] \/ log = [Emit (ScoreLog name (round3 s))])) /\
   (exists log,
      Detector.evaluate a (before ++ (name, s) :: after) m
      = (let (m1, tr1) := Detector.evaluate a before m in
         let (m2, tr2) := Detector.evaluate a after (reset m1) in
         (m2, tr1 ++ log
                ++ Emit (DetectionEvent name s) :: ResetModel :: tr2)) /\
      (log = [] \/ log = [Emit (ScoreLog name (round3 s))]))).
Proof.
  split.
  - intros Hgt. apply Qgtb_lt in Hgt.
    assert (Ec : forall (m' : M) mx',
               Server.check threshold (name, s) m' mx'
               = (reset m', 0%Q, [Emit (DetectionEvent name s); ResetModel])).
    { intros m' mx'. unfold Server.check. now rewrite Hgt. }
    split; [apply Ec |].
    rewrite server_evaluate_app.
    destruct (Server.evaluate threshold before m mx) as [[m1 mx1] tr1].
    cbn [Server.evaluate]. rewrite Ec.
    now destruct (Server.evaluate threshold after (reset m1) 0)
      as [[m2 mx2] tr2].
  - intros Hge.
    set (log := if Detector.debug a && score_gt s Detector.float_0_1
                then [Emit (ScoreLog name (round3 s))] else []).
    assert (Hlog : log = [] \/ log = [Emit (ScoreLog name (round3 s))])
      by (subst log; destruct (_ && _); auto).
    assert (Ec : forall m' : M,
               Detector.check a (name, s) m'
               = (reset m',
                  log ++ [Emit (DetectionEvent name s); ResetModel])).
    { intros m'. unfold Detector.check. now rewrite Hge. }
    split; exists log; (split; [| exact Hlog]); [apply Ec |].
    rewrite detector_evaluate_app.
    destruct (Detector.evaluate a before m) as [m1 tr1].
    cbn [Detector.evaluate]. rewrite Ec.
    destruct (Detector.evaluate a after (reset m1)) as [m2 tr2].
    now rewrite <- !app_assoc.
Qed.

Lemma detection_then_reset_witness :
  (py_float (9 # 10) > 65 # 100)%Q /\
  Server.check (65 # 100) ("hey_jarvis"%string, py_float (9 # 10)) silent 0
  = (reset silent, 0%Q,
     [Emit (DetectionEvent "hey_jarvis" (9 # 10)); ResetModel]).
Proof.
  assert (Hgt : (py_float (9 # 10) > 65 # 100)%Q) by reflexivity.
  split; [exact Hgt |].
  exact (proj1 (proj1 (detection_then_reset Detector.default_args (65 # 100)
                         [] [] "hey_jarvis" (py_float (9 # 10)) silent 0)
                  Hgt)).
Defined.

(** C5 fails as stated for the detector, which has no rolling maximum
    to clear: on a frame whose score is detected the server, which had
    seen the maximum 0.3, sets [max_score] to 0, while the state of the
    detector is its buffer and its capability and nothing else. *)
Lemma detector_rolling_max_counterexample :
  let detection := [Scores [("hey_jarvis"%string, py_float (9 # 10))]] in
  Server.max_score
    (fst (fst (Server.process_frame (1 # 2)
                 (Server.mkState (zeros 2560) 0 (3 # 10) detection)))) = 0%Q /\
  fst (fst (Detector.process_frame Detector.default_args
              (Detector.mkState (zeros 2560) detection)))
  = Detector.mkState [] [] /\
  (forall st : Detector.state scripted,
     st = Detector.mkState (Detector.buffer st) (Detector.oww_model st)).
Proof.
  split; [vm_compute; reflexivity |].
  split; [vm_compute; reflexivity |].
  intros [b m]. reflexivity.
Qed.

(** ** C3: the end of the stream *)

Section EndOfStream.
Context {M : Type} `{ScoringCapability M}.





End EndOfStream.



(** ** C4, C10: a scoring call that raises *)

Section Raising.
Context {M : Type} `{ScoringCapability M}.

(** A round in which a scoring call raises ends with that call and the
    error record. *)
Lemma server_raise_round threshold (st : Server.state M) chunk :
  existsb is_raise (snd (Server.iteration threshold st chunk)) = true ->
  exists tr0 f msg,
    snd (Server.iteration threshold st chunk)
    = tr0 ++ [Predict f (Raises msg); Emit (ErrorEvent msg)] /\
    existsb is_raise tr0 = false.
Proof.
  unfold Server.iteration.
  destruct (Server.drain _ threshold (Server.push st chunk))
    as [[st1 tr1] c] eqn:Ed.
  apply server_drain_spec in Ed as (_ & _ & _ & Hc & Hx).
  destruct c as [|msg]; cbn [snd].
  - destruct (Hc eq_refl) as [Hr _]. congruence.
  - intros _. destruct (Hx msg eq_refl) as (tr0 & f & -> & Hr0).
    exists tr0, f, msg. now rewrite <- app_assoc.
Qed.

(** In the detector the error record is printed only with [--debug]. *)
Lemma detector_raise_round a (st : Detector.state M) data :
  existsb is_raise (snd (Detector.iteration a st data)) = true ->
  exists tr0 f msg,
    snd (Detector.iteration a st data)
    = tr0 ++ Predict f (Raises msg)
          :: (if Detector.debug a then [Emit (ErrorEvent msg)] else []) /\
    existsb is_raise tr0 = false.
Proof.
  unfold Detector.iteration.
  destruct (Detector.drain _ a (Detector.push st data))
    as [[st1 tr1] c] eqn:Ed.
  apply detector_drain_spec in Ed as (_ & _ & Hc & Hx).
  destruct c as [|msg]; cbn [snd].
  - destruct (Hc eq_refl) as [Hr _]. congruence.
  - intros _. destruct (Hx msg eq_refl) as (tr0 & f & -> & Hr0).
    exists tr0, f, msg. now rewrite <- app_assoc.
Qed.

(** With a complete frame in the buffer, the inner loop starts by scoring
    the first [frame_size] bytes. *)
Lemma server_drain_first_frame threshold fuel (st : Server.state M) :
  frame_size <= length (Server.audio_buffer st) ->
  exists o tr,
    snd (fst (Server.drain (S fuel) threshold st))
    = Predict (firstn frame_size (Server.audio_buffer st)) o :: tr.
Proof.
  intros Hlen. cbn [Server.drain].
  destruct (Nat.leb_spec frame_size (length (Server.audio_buffer st)))
    as [_|Hlt]; [| lia].
  unfold Server.process_frame.
  destruct (predict (Server.model st) _) as [m1 [items|msg]].
  - destruct (Server.evaluate threshold items m1 (Server.max_score st))
      as [[m2 mx] tr0].
    destruct (_ =? 0);
      match goal with
      | |- context [Server.drain fuel threshold ?s] =>
          destruct (Server.drain fuel threshold s) as [[st2 tr2] c2]
      end; cbn [fst snd app]; eauto.
  - cbn [fst snd]. eauto.
Qed.

Lemma server_round_first_frame threshold (st : Server.state M) chunk :
  frame_size <= length (Server.audio_buffer st ++ chunk) ->
  exists o tr,
    snd (Server.iteration threshold st chunk)
    = Predict (firstn frame_size (Server.audio_buffer st ++ chunk)) o :: tr.
Proof.
  intros Hlen. unfold Server.iteration.
  change (Server.audio_buffer st ++ chunk)
    with (Server.audio_buffer (Server.push st chunk)) in *.
  destruct (length (Server.audio_buffer (Server.push st chunk)))
    as [|fuel] eqn:El; [rewrite frame_size_val in Hlen; lia |].
  rewrite <- El in Hlen.
  destruct (server_drain_first_frame threshold fuel _ Hlen) as (o & tr & E).
  destruct (Server.drain (S fuel) threshold (Server.push st chunk))
    as [[st1 tr1] [|msg]]; cbn [fst snd] in *; subst tr1; cbn [app]; eauto.
Qed.

Lemma detector_drain_first_frame a fuel (st : Detector.state M) :
  frame_size <= length (Detector.buffer st) ->
  exists o tr,
    snd (fst (Detector.drain (S fuel) a st))
    = Predict (firstn frame_size (Detector.buffer st)) o :: tr.
Proof.
  intros Hlen. cbn [Detector.drain].
  destruct (Nat.leb_spec frame_size (length (Detector.buffer st)))
    as [_|Hlt]; [| lia].
  unfold Detector.process_frame.
  destruct (predict (Detector.oww_model st) _) as [m1 [items|msg]].
  - destruct (Detector.evaluate a items m1) as [m2 tr0].
    match goal with
    | |- context [Detector.drain fuel a ?s] =>
        destruct (Detector.drain fuel a s) as [[st2 tr2] c2]
    end; cbn [fst snd app]; eauto.
  - cbn [fst snd]. eauto.
Qed.

Lemma detector_round_first_frame a (st : Detector.state M) data :
  frame_size <= length (Detector.buffer st ++ data) ->
  exists o tr,
    snd (Detector.iteration a st data)
    = Predict (firstn frame_size (Detector.buffer st ++ data)) o :: tr.
Proof.
  intros Hlen. unfold Detector.iteration.
  change (Detector.buffer st ++ data)
    with (Detector.buffer (Detector.push st data)) in *.
  destruct (length (Detector.buffer (Detector.push st data)))
    as [|fuel] eqn:El; [rewrite frame_size_val in Hlen; lia |].
  rewrite <- El in Hlen.
  destruct (detector_drain_first_frame a fuel _ Hlen) as (o & tr & E).
  destruct (Detector.drain (S fuel) a (Detector.push st data))
    as [[st1 tr1] [|msg]]; cbn [fst snd] in *; subst tr1; cbn [app]; eauto.
Qed.

(** The unconsumed bytes of a round are what follows its frames. *)
Lemma server_round_buffer threshold (st : Server.state M) chunk :
  Server.audio_buffer (fst (Server.iteration threshold st chunk))
  = skipn (length (frames_of (snd (Server.iteration threshold st chunk)))
           * frame_size)
          (Server.audio_buffer st ++ chunk).
Proof.
  destruct (Server.iteration threshold st chunk) as [st' tr] eqn:Ei.
  apply server_iteration_spec in Ei as (Hcat & Hw & _).
  cbn [fst snd]. rewrite <- Hcat, <- (well_framed_length _ Hw).
  now rewrite skipn_app, skipn_all, Nat.sub_diag.
Qed.

Lemma detector_round_buffer a (st : Detector.state M) data :
  Detector.buffer (fst (Detector.iteration a st data))
  = skipn (length (frames_of (snd (Detector.iteration a st data)))
           * frame_size)
          (Detector.buffer st ++ data).
Proof.
  destruct (Detector.iteration a st data) as [st' tr] eqn:Ei.
  apply detector_iteration_spec in Ei as (Hcat & Hw & _).
  cbn [fst snd]. rewrite <- Hcat, <- (well_framed_length _ Hw).
  now rewrite skipn_app, skipn_all, Nat.sub_diag.
Qed.

(** The loop goes on with the next read after any round. *)
Lemma server_loop_cons threshold (st : Server.state M) chunk rest :
  chunk <> [] ->
  Server.loop threshold st (chunk :: rest)
  = (fst (Server.loop threshold
            (fst (Server.iteration threshold st chunk)) rest),
     snd (Server.iteration threshold st chunk)
       ++ snd (Server.loop threshold
                 (fst (Server.iteration threshold st chunk)) rest)).
Proof.
  intros Hne. destruct chunk as [|b chunk]; [congruence |].
  cbn [Server.loop].
  destruct (Server.iteration threshold st (b :: chunk)) as [st1 tr1].
  cbn [fst snd]. now destruct (Server.loop threshold st1 rest).
Qed.

Lemma detector_loop_cons a (st : Detector.state M) data rest :
  data <> [] ->
  Detector.loop a st (data :: rest)
  = (fst (Detector.loop a (fst (Detector.iteration a st data)) rest),
     snd (Detector.iteration a st data)
       ++ snd (Detector.loop a (fst (Detector.iteration a st data)) rest)).
Proof.
  intros Hne. destruct data as [|b data]; [congruence |].
  cbn [Detector.loop].
  destruct (Detector.iteration a st (b :: data)) as [st1 tr1].
  cbn [fst snd]. now destruct (Detector.loop a st1 rest).
Qed.
End Raising.

(** C4, in the form that holds of the code: when a scoring call raises
    during a round, the exception is caught at the end of the round. The
    server prints an error record right after the failing call; the
    detector prints it only with [--debug]. In both variants the failing
    frame is the last one scored in the round, the buffer keeps every byte
    after it, and the loop goes on with the next read, so that over the
    whole run the frames scored and the buffer still make up the stream. *)
Theorem scoring_failure_recovery {M : Type} `{ScoringCapability M}
    (threshold : Q) (a : Detector.args)
    (s : Server.state M) (d : Detector.state M)
    (chunk : bytes) (rest : list bytes) :
  chunk <> [] ->
  (existsb is_raise (snd (Server.iteration threshold s chunk)) = true ->
   let s' := fst (Server.iteration threshold s chunk) in
   let tr := snd (Server.iteration threshold s chunk) in
   (exists tr0 f msg,
      tr = tr0 ++ [Predict f (Raises msg); Emit (ErrorEvent msg)] /\
      existsb is_raise tr0 = false) /\
   concat (frames_of tr) ++ Server.audio_buffer s'
   = Server.audio_buffer s ++ chunk /\
   Server.loop threshold s (chunk :: rest)
   = (fst (Server.loop threshold s' rest),
      tr ++ snd (Server.loop threshold s' rest)) /\
   concat (frames_of (snd (Server.loop threshold s (chunk :: rest))))
     ++ Server.audio_buffer (fst (Server.loop threshold s (chunk :: rest)))
   = Server.audio_buffer s ++ concat (fed (chunk :: rest))) /\
  (existsb is_raise (snd (Detector.iteration a d chunk)) = true ->
   let d' := fst (Detector.iteration a d chunk) in
   let tr := snd (Detector.iteration a d chunk) in
   (exists tr0 f msg,
      tr = tr0 ++ Predict f (Raises msg)
              :: (if Detector.debug a then [Emit (ErrorEvent msg)] else []) /\
      existsb is_raise tr0 = false) /\
   concat (frames_of tr) ++ Detector.buffer d' = Detector.buffer d ++ chunk /\
   Detector.loop a d (chunk :: rest)
   = (fst (Detector.loop a d' rest), tr ++ snd (Detector.loop a d' rest)) /\
   concat (frames_of (snd (Detector.loop a d (chunk :: rest))))
     ++ Detector.buffer (fst (Detector.loop a d (chunk :: rest)))
   = Detector.buffer d ++ concat (fed (chunk :: rest))).
Proof.
  intros Hne. split; intros Hr; cbv zeta.
  - split; [now apply server_raise_round |].
    split.
    { destruct (Server.iteration threshold s chunk) as [s' tr] eqn:Ei.
      now apply server_iteration_spec in Ei as (Hcat & _). }
    split; [now apply server_loop_cons |].
    destruct (Server.loop threshold s (chunk :: rest)) as [s2 tr2] eqn:El.
    now apply server_loop_spec in El as (Hcat & _).
  - split; [now apply detector_raise_round |].
    split.
    { destruct (Detector.iteration a d chunk) as [d' tr] eqn:Ei.
      now apply detector_iteration_spec in Ei as (Hcat & _). }
    split; [now apply detector_loop_cons |].
    destruct (Detector.loop a d (chunk :: rest)) as [d2 tr2] eqn:El.
    now apply detector_loop_spec in El as (Hcat & _).
Qed.

Lemma scoring_failure_recovery_witness :
  zeros 2560 <> [] /\
  existsb is_raise
    (snd (Server.iteration (1 # 2) (Server.init fails_first) (zeros 2560)))
  = true /\
  exists tr0 f msg,
    snd (Server.iteration (1 # 2) (Server.init fails_first) (zeros 2560))
    = tr0 ++ [Predict f (Raises msg); Emit (ErrorEvent msg)] /\
    existsb is_raise tr0 = false.
Proof.
  assert (Hne : zeros 2560 <> []) by (vm_compute; discriminate).
  assert (Hr : existsb is_raise
                 (snd (Server.iteration (1 # 2) (Server.init fails_first)
                         (zeros 2560))) = true)
    by (vm_compute; reflexivity).
  exact (conj Hne (conj Hr
    (proj1 (proj1 (scoring_failure_recovery (1 # 2) Detector.default_args
                     (Server.init fails_first) (Detector.init fails_first)
                     (zeros 2560) [] Hne) Hr)))).
Defined.

(** C4 fails as stated: without [--debug] the detector prints no error
    record for a frame whose scoring raises; both frames are scored and
    the output is the ready record and the stopped record. *)
Lemma detector_error_counterexample :
  existsb is_raise
    (fst (Detector.main (Detector.Namespace Detector.default_args) true false
            (fun _ => inl fails_first) [zeros 2560; zeros 2560])) = true /\
  length (frames_of
    (fst (Detector.main (Detector.Namespace Detector.default_args) true false
            (fun _ => inl fails_first) [zeros 2560; zeros 2560]))) = 2 /\
  events_of
    (fst (Detector.main (Detector.Namespace Detector.default_args) true false
            (fun _ => inl fails_first) [zeros 2560; zeros 2560]))
  = [ReadyEvent "hey_jarvis" Detector.float_0_65; StoppedEvent].
Proof.
  split; [vm_compute; reflexivity |].
  split; vm_compute; reflexivity.
Qed.

(** Scenario E of the spec in the server, read one frame at a time: the
    seventh call raises, an error record is printed and the eighth frame
    is scored. *)
Example scenario_E_frame_reads :
  Server.frames_processed
    (fst (Server.loop (1 # 2) (Server.init fails_seventh) eight_reads)) = 8 /\
  events_of (snd (Server.loop (1 # 2) (Server.init fails_seventh) eight_reads))
  = [ErrorEvent "scoring failed"].
Proof. split; vm_compute; reflexivity. Qed.

(** C10: when a scoring call raises during a round, in either variant,
    it is the last call of the round; the bytes after the failing frame,
    complete frames included, stay in the buffer.  If the next read
    returns no byte the loop ends there and they are never scored; if it
    returns data, the next round starts by scoring the first frame of the
    buffer followed by the new data. *)
Theorem raise_defers_buffered_frames {M : Type} `{ScoringCapability M}
    (threshold : Q) (a : Detector.args)
    (s : Server.state M) (d : Detector.state M) (chunk : bytes) :
  chunk <> [] ->
  (existsb is_raise (snd (Server.iteration threshold s chunk)) = true ->
   let s' := fst (Server.iteration threshold s chunk) in
   let tr := snd (Server.iteration threshold s chunk) in
   (exists tr0 f msg tail,
      tr = tr0 ++ Predict f (Raises msg) :: tail /\ frames_of tail = []) /\
   Server.audio_buffer s'
   = skipn (length (frames_of tr) * frame_size)
           (Server.audio_buffer s ++ chunk) /\
   Server.loop threshold s [chunk] = (s', tr) /\
   (forall rest, Server.loop threshold s (chunk :: [] :: rest) = (s', tr)) /\
   (forall chunk' rest, chunk' <> [] ->
      frame_size <= length (Server.audio_buffer s' ++ chunk') ->
      exists o tr',
        snd (Server.loop threshold s (chunk :: chunk' :: rest))
        = tr ++ Predict (firstn frame_size (Server.audio_buffer s' ++ chunk')) o
             :: tr')) /\
  (existsb is_raise (snd (Detector.iteration a d chunk)) = true ->
   let d' := fst (Detector.iteration a d chunk) in
   let tr := snd (Detector.iteration a d chunk) in
   (exists tr0 f msg tail,
      tr = tr0 ++ Predict f (Raises msg) :: tail /\ frames_of tail = []) /\
   Detector.buffer d'
   = skipn (length (frames_of tr) * frame_size) (Detector.buffer d ++ chunk) /\
   Detector.loop a d [chunk] = (d', tr) /\
   (forall rest, Detector.loop a d (chunk :: [] :: rest) = (d', tr)) /\
   (forall chunk' rest, chunk' <> [] ->
      frame_size <= length (Detector.buffer d' ++ chunk') ->
      exists o tr',
        snd (Detector.loop a d (chunk :: chunk' :: rest))
        = tr ++ Predict (firstn frame_size (Detector.buffer d' ++ chunk')) o
             :: tr')).
Proof.
  intros Hne. split; intros Hr; cbv zeta.
  - split.
    { destruct (server_raise_round _ _ _ Hr) as (tr0 & f & msg & E & _).
      exists tr0, f, msg, [Emit (ErrorEvent msg)]. now rewrite E. }
    split; [apply server_round_buffer |].
    assert (E1 : forall rest,
               Server.loop threshold s (chunk :: [] :: rest)
               = (fst (Server.iteration threshold s chunk),
                  snd (Server.iteration threshold s chunk))).
    { intros rest. rewrite server_loop_cons by exact Hne.
      cbn [Server.loop fst snd]. now rewrite app_nil_r. }
    split.
    { rewrite server_loop_cons by exact Hne.
      cbn [Server.loop fst snd]. now rewrite app_nil_r. }
    split; [exact E1 |].
    intros chunk' rest Hne' Hlen.
    rewrite server_loop_cons by exact Hne. cbn [snd].
    rewrite server_loop_cons by exact Hne'. cbn [snd].
    destruct (server_round_first_frame threshold _ chunk' Hlen)
      as (o & tr' & ->).
    exists o. eexists. cbn [app]. reflexivity.
  - split.
    { destruct (detector_raise_round _ _ _ Hr) as (tr0 & f & msg & E & _).
      exists tr0, f, msg,
        (if Detector.debug a then [Emit (ErrorEvent msg)] else []).
      split; [exact E |]. now destruct (Detector.debug a). }
    split; [apply detector_round_buffer |].
    assert (E1 : forall rest,
               Detector.loop a d (chunk :: [] :: rest)
               = (fst (Detector.iteration a d chunk),
                  snd (Detector.iteration a d chunk))).
    { intros rest. rewrite detector_loop_cons by exact Hne.
      cbn [Detector.loop fst snd]. now rewrite app_nil_r. }
    split.
    { rewrite detector_loop_cons by exact Hne.
      cbn [Detector.loop fst snd]. now rewrite app_nil_r. }
    split; [exact E1 |].
    intros chunk' rest Hne' Hlen.
    rewrite detector_loop_cons by exact Hne. cbn [snd].
    rewrite detector_loop_cons by exact Hne'. cbn [snd].
    destruct (detector_round_first_frame a _ chunk' Hlen)
      as (o & tr' & ->).
    exists o. eexists. cbn [app]. reflexivity.
Qed.

Lemma raise_defers_buffered_frames_witness :
  zeros 4096 <> [] /\
  existsb is_raise
    (snd (Server.iteration (1 # 2) one_byte_short (zeros 4096))) = true /\
  Server.loop (1 # 2) one_byte_short [zeros 4096]
  = Server.iteration (1 # 2) one_byte_short (zeros 4096) /\
  (frame_size
   <=? length (Server.audio_buffer
                 (fst (Server.iteration (1 # 2) one_byte_short (zeros 4096)))))
  = true.
Proof.
  assert (Hne : zeros 4096 <> []) by (vm_compute; discriminate).
  assert (Hr : existsb is_raise
                 (snd (Server.iteration (1 # 2) one_byte_short (zeros 4096)))
               = true) by (vm_compute; reflexivity).
  split; [exact Hne |]. split; [exact Hr |]. split.
  - rewrite (surjective_pairing
               (Server.iteration (1 # 2) one_byte_short (zeros 4096))).
    exact (proj1 (proj2 (proj2
      (proj1 (raise_defers_buffered_frames (1 # 2) Detector.default_args
                one_byte_short (Detector.init fails_first) (zeros 4096) Hne)
         Hr)))).
  - vm_compute. reflexivity.
Defined.

(** Scenario E of the spec in the server with full reads of 4096 bytes:
    the seventh call raises during the fifth read with the eighth frame
    already in the buffer; the stream ends and the eighth frame is never
    scored. *)
Example scenario_E_full_reads :
  length (concat (fed five_reads)) = 8 * frame_size /\
  Server.frames_processed
    (fst (Server.loop (1 # 2) (Server.init fails_seventh) five_reads)) = 7 /\
  length (Server.audio_buffer
    (fst (Server.loop (1 # 2) (Server.init fails_seventh) five_reads)))
  = frame_size /\
  events_of (snd (Server.loop (1 # 2) (Server.init fails_seventh) five_reads))
  = [ErrorEvent "scoring failed"].
Proof. repeat split; vm_compute; reflexivity. Qed.

(** ** C6: telemetry *)

Lemma since_debug_none (tr : trace) :
  existsb is_debug tr = false -> since_debug tr = tr.
Proof.
  induction tr as [|x tr IH]; [reflexivity |].
  cbn [existsb since_debug]. intros E.
  apply orb_false_iff in E as [Ex Et]. now rewrite Et, Ex.
Qed.

Lemma since_debug_app (a b : trace) :
  since_debug (a ++ b)
  = if existsb is_debug b then since_debug b else since_debug a ++ b.
Proof.
  induction a as [|x a IH]; cbn [app].
  - destruct (existsb is_debug b) eqn:Eb; [reflexivity |].
    now rewrite since_debug_none.
  - cbn [since_debug]. rewrite existsb_app, IH.
    destruct (existsb is_debug b); [now rewrite orb_true_r |].
    rewrite orb_false_r.
    destruct (existsb is_debug a); [reflexivity |].
    now destruct (is_debug x).
Qed.

Lemma no_debug_split (tr pre post : trace) n r :
  existsb is_debug tr = false ->
  tr = pre ++ Emit (DebugEvent n r) :: post -> False.
Proof.
  intros E ->. rewrite existsb_app in E. cbn in E.
  rewrite orb_true_r in E. discriminate.
Qed.

(** A telemetry record that follows a piece without one is the first. *)
Lemma first_debug_split (u v pre post : trace) n r x :
  existsb is_debug u = false ->
  u ++ x :: v = pre ++ Emit (DebugEvent n r) :: post ->
  (pre = u /\ x = Emit (DebugEvent n r) /\ post = v) \/
  (exists l, pre = u ++ x :: l /\ v = l ++ Emit (DebugEvent n r) :: post).
Proof.
  intros Hu E. apply app_eq_app in E as [l [[E1 E2]|[E1 E2]]].
  - destruct l as [|y l].
    + rewrite app_nil_r in E1. cbn in E2. injection E2 as <- <-. now left.
    + cbn in E2. injection E2 as <- ->. exfalso.
      exact (no_debug_split _ _ _ _ _ Hu E1).
  - destruct l as [|y l].
    + rewrite app_nil_r in E1. cbn in E2. injection E2 as -> ->. now left.
    + cbn in E2. injection E2 as <- ->. right. eauto.
Qed.

Lemma rolling_app (mx : Q) (l1 l2 : list Q) :
  rolling mx (l1 ++ l2) = rolling (rolling mx l1) l2.
Proof. apply fold_left_app. Qed.

Lemma window_quiet_app threshold (a b : trace) :
  window_quiet threshold (a ++ b) <->
  window_quiet threshold a /\ window_quiet threshold b.
Proof.
  unfold window_quiet. rewrite scores_of_app. split.
  - intros Hq. split; intros s Hs; apply Hq, in_app_iff; auto.
  - intros [Ha Hb] s Hs. apply in_app_iff in Hs as [Hs|Hs]; auto.
Qed.

Lemma telemetry_ok_silent threshold n mx (tr : trace) :
  existsb is_debug tr = false -> frames_of tr = [] -> scores_of tr = [] ->
  telemetry_ok threshold n mx tr n mx.
Proof.
  intros Hd Hf Hs. split; [| split].
  - intros pre k r post E. exfalso. exact (no_debug_split _ _ _ _ _ Hd E).
  - rewrite Hf. cbn [length]. lia.
  - intros _. unfold window_start.
    now rewrite (since_debug_none _ Hd), Hd, Hs.
Qed.

Lemma telemetry_ok_app threshold n0 mx0 a n1 mx1 b n2 mx2 :
  telemetry_ok threshold n0 mx0 a n1 mx1 ->
  telemetry_ok threshold n1 mx1 b n2 mx2 ->
  telemetry_ok threshold n0 mx0 (a ++ b) n2 mx2.
Proof.
  intros (Ha & Hn1 & Hm1) (Hb & Hn2 & Hm2).
  assert (Hjoin : forall l,
            existsb is_debug l = false ->
            window_quiet threshold (since_debug a ++ l) ->
            rolling (window_start mx1 l) (scores_of l)
            = rolling (window_start mx0 (a ++ l))
                (scores_of (since_debug a ++ l))).
  { intros l Hl Hq. apply window_quiet_app in Hq as [Hqa _].
    unfold window_start at 1 2. rewrite existsb_app, Hl, orb_false_r.
    rewrite scores_of_app, rolling_app. f_equal. now apply Hm1. }
  split; [| split].
  - intros pre n r post E.
    apply app_eq_app in E as [l [[E1 E2]|[E1 E2]]].
    + destruct l as [|y l].
      * rewrite app_nil_r in E1. cbn in E2. subst pre.
        destruct (Hb [] n r post (eq_sym E2)) as (Hn & Hmod & Hr).
        cbn [frames_of length] in Hn.
        split; [lia |]. split; [exact Hmod |].
        intros Hq. rewrite <- (app_nil_r a) in Hq |- *.
        rewrite since_debug_app in Hq |- *. cbn [existsb] in Hq |- *.
        rewrite <- (Hjoin [] eq_refl Hq). apply Hr. cbn. intros s [].
      * cbn in E2. injection E2 as <- ->.
        exact (Ha pre n r l E1).
    + subst pre.
      destruct (Hb l n r post E2) as (Hn & Hmod & Hr).
      rewrite frames_of_app, length_app.
      split; [lia |]. split; [exact Hmod |].
      rewrite since_debug_app.
      destruct (existsb is_debug l) eqn:Hl.
      * intros Hq. unfold window_start. rewrite existsb_app, Hl, orb_true_r.
        unfold window_start in Hr. rewrite Hl in Hr. now apply Hr.
      * intros Hq. rewrite <- (Hjoin l Hl Hq).
        rewrite <- (since_debug_none _ Hl) at 2. apply Hr.
        rewrite (since_debug_none _ Hl).
        now apply window_quiet_app in Hq as [_ Hq].
  - rewrite frames_of_app, length_app. lia.
  - rewrite since_debug_app.
    destruct (existsb is_debug b) eqn:Hl.
    + intros Hq. unfold window_start. rewrite existsb_app, Hl, orb_true_r.
      unfold window_start in Hm2. rewrite Hl in Hm2. now apply Hm2.
    + intros Hq. rewrite <- (Hjoin b Hl Hq).
      rewrite <- (since_debug_none _ Hl) at 2. apply Hm2.
      rewrite (since_debug_none _ Hl).
      now apply window_quiet_app in Hq as [_ Hq].
Qed.

Lemma rolling_spec (l : list Q) : forall mx,
  (mx <= rolling mx l)%Q /\
  (forall s, In s l -> (s <= rolling mx l)%Q) /\
  (rolling mx l = mx \/ In (rolling mx l) l).
Proof.
  induction l as [|s l IH]; intros mx; cbn [rolling fold_left In].
  - split; [apply Qle_refl |]. split; [intros s [] | now left].
  - fold (rolling (if Qgtb s mx then s else mx) l).
    destruct (IH (if Qgtb s mx then s else mx)) as (Hle & Hall & Hin).
    assert (Hstep : (mx <= (if Qgtb s mx then s else mx))%Q /\
                    (s <= (if Qgtb s mx then s else mx))%Q).
    { destruct (Qgtb s mx) eqn:E.
      - apply Qgtb_lt in E. split; [now apply Qlt_le_weak | apply Qle_refl].
      - split; [apply Qle_refl |]. apply Qnot_lt_le. intros Hlt.
        apply Qgtb_lt in Hlt. congruence. }
    destruct Hstep as [H1 H2].
    split; [now apply (Qle_trans _ _ _ H1) |]. split.
    + intros s' [<-|Hs']; [now apply (Qle_trans _ _ _ H2) | now apply Hall].
    + destruct Hin as [Hin|Hin]; [| now right; right].
      rewrite Hin. destruct (Qgtb s mx); [right; now left | now left].
Qed.

(** From 0 and over scores that are not negative, the rolling maximum is
    the maximum of the scores. *)
Lemma rolling_maximum (l : list Q) :
  (forall s, In s l -> (0 <= s)%Q) ->
  (forall s, In s l -> (s <= rolling 0 l)%Q) /\
  (l = [] -> rolling 0 l = 0%Q) /\
  (l <> [] -> exists s, In s l /\ (s == rolling 0 l)%Q).
Proof.
  intros Hpos. destruct (rolling_spec l 0) as (_ & Hall & Hin).
  split; [exact Hall |]. split; [now intros -> |].
  intros Hne. destruct Hin as [E|Hin].
  - destruct l as [|s l]; [congruence |]. exists s.
    split; [now left |]. apply Qle_antisym.
    + apply Hall. now left.
    + rewrite E. apply Hpos. now left.
  - exists (rolling 0 l). split; [exact Hin | reflexivity].
Qed.

Section Telemetry.
Context {M : Type} `{ScoringCapability M}.
Variable threshold : Q.

(** Without a score above the threshold the evaluator prints nothing,
    leaves the capability alone and tracks the maximum. *)
Lemma server_evaluate_quiet items : forall (m : M) mx,
  (forall s, In s (values items) -> (s <= threshold)%Q) ->
  Server.evaluate threshold items m mx = (m, rolling mx (values items), []).
Proof.
  induction items as [|[name score] items IH]; intros m mx Hq; [reflexivity |].
  cbn [Server.evaluate Server.check values map snd rolling fold_left].
  destruct (Qgtb score threshold) eqn:E.
  - apply Qgtb_lt in E. exfalso.
    apply (Qlt_not_le _ _ E). apply Hq. now left.
  - rewrite IH by (intros s Hs; apply Hq; now right). reflexivity.
Qed.

Lemma server_process_frame_telemetry (st st' : Server.state M) tr c :
  Server.process_frame threshold st = (st', tr, c) ->
  telemetry_ok threshold (Server.frames_processed st) (Server.max_score st)
    tr (Server.frames_processed st') (Server.max_score st').
Proof.
  unfold Server.process_frame.
  destruct (predict (Server.model st) _) as [m1 [items|msg]].
  - pose proof (server_evaluate_verdicts threshold items m1
                  (Server.max_score st)) as Hv.
    pose proof (server_evaluate_quiet items m1 (Server.max_score st)) as Hq.
    destruct (Server.evaluate threshold items m1 (Server.max_score st))
      as [[m2 mx] tr0].
    cbn [snd] in Hv. apply verdicts_silent in Hv as (Hf & Hs & Hd & _).
    set (frame := firstn frame_size (Server.audio_buffer st)) in *.
    assert (Hd1 : existsb is_debug (Predict frame (Scores items) :: tr0) = false)
      by (cbn [existsb is_debug orb]; exact Hd).
    assert (Hs1 : scores_of (Predict frame (Scores items) :: tr0)
                  = values items)
      by (cbn [scores_of]; rewrite Hs; apply app_nil_r).
    assert (Hf1 : frames_of (Predict frame (Scores items) :: tr0) = [frame])
      by (cbn [frames_of]; now rewrite Hf).
    assert (Hmx : window_quiet threshold (Predict frame (Scores items) :: tr0)
                  -> mx = rolling (Server.max_score st) (values items)).
    { unfold window_quiet. rewrite Hs1. intros Hw.
      specialize (Hq Hw). now injection Hq as _ -> _. }
    destruct (_ =? 0) eqn:Emod; intros [= <- <- <-];
      cbn [Server.frames_processed Server.max_score].
    + apply Nat.eqb_eq in Emod.
      rewrite app_comm_cons. split; [| split].
      * intros pre n r post E.
        apply first_debug_split in E as [(-> & [= <- <-] & ->)|(l & _ & E)];
          [| destruct l; discriminate | exact Hd1].
        rewrite Hf1. cbn [length]. split; [reflexivity |].
        split; [exact Emod |].
        rewrite (since_debug_none _ Hd1). intros Hw.
        unfold window_start. now rewrite Hd1, Hs1, <- (Hmx Hw).
      * rewrite frames_of_app, Hf1. reflexivity.
      * intros _. rewrite since_debug_app. cbn [existsb is_debug orb].
        cbn [since_debug existsb is_debug]. unfold window_start.
        rewrite existsb_app. cbn [existsb is_debug orb].
        now rewrite orb_true_r.
    + split; [| split].
      * intros pre n r post E. exfalso.
        exact (no_debug_split _ _ _ _ _ Hd1 E).
      * rewrite Hf1. reflexivity.
      * rewrite (since_debug_none _ Hd1). intros Hw.
        unfold window_start. now rewrite Hd1, Hs1, <- (Hmx Hw).
  - intros [= <- <- <-]. cbn [Server.frames_processed Server.max_score].
    split; [| split].
    + intros pre n r post E. exfalso.
      now apply (no_debug_split _ _ _ _ _ (eq_refl : existsb is_debug
        [Predict (firstn frame_size (Server.audio_buffer st)) (Raises msg)]
        = false)) in E.
    + reflexivity.
    + intros _. reflexivity.
Qed.

Lemma server_drain_telemetry fuel : forall (st st' : Server.state M) tr c,
  Server.drain fuel threshold st = (st', tr, c) ->
  telemetry_ok threshold (Server.frames_processed st) (Server.max_score st)
    tr (Server.frames_processed st') (Server.max_score st').
Proof.
  induction fuel as [|fuel IH]; intros st st' tr c; cbn [Server.drain].
  - intros [= <- <- <-]. now apply telemetry_ok_silent.
  - destruct (frame_size <=? _).
    + destruct (Server.process_frame threshold st) as [[st1 tr1] c1] eqn:Ep.
      apply server_process_frame_telemetry in Ep.
      destruct c1 as [|msg1].
      * destruct (Server.drain fuel threshold st1) as [[st2 tr2] c2] eqn:Ed.
        apply IH in Ed. intros [= <- <- <-].
        exact (telemetry_ok_app _ _ _ _ _ _ _ _ _ Ep Ed).
      * now intros [= <- <- <-].
    + intros [= <- <- <-]. now apply telemetry_ok_silent.
Qed.

Lemma server_loop_telemetry reads : forall (st st' : Server.state M) tr,
  Server.loop threshold st reads = (st', tr) ->
  telemetry_ok threshold (Server.frames_processed st) (Server.max_score st)
    tr (Server.frames_processed st') (Server.max_score st').
Proof.
  induction reads as [|[|b chunk] reads IH]; intros st st' tr;
    cbn [Server.loop].
  - intros [= <- <-]. now apply telemetry_ok_silent.
  - intros [= <- <-]. now apply telemetry_ok_silent.
  - unfold Server.iteration.
    destruct (Server.drain _ threshold (Server.push st (b :: chunk)))
      as [[st1 tr1] c] eqn:Ed.
    apply server_drain_telemetry in Ed.
    cbn [Server.push Server.frames_processed Server.max_score] in Ed.
    assert (E1 : telemetry_ok threshold (Server.frames_processed st)
                   (Server.max_score st)
                   (match c with
                    | Normal => tr1
                    | Exception msg => tr1 ++ [Emit (ErrorEvent msg)]
                    end)
                   (Server.frames_processed st1) (Server.max_score st1)).
    { destruct c as [|msg]; [exact Ed |].
      apply (telemetry_ok_app _ _ _ _ _ _ _ _ _ Ed).
      now apply telemetry_ok_silent. }
    destruct c as [|msg];
      destruct (Server.loop threshold st1 reads) as [st2 tr2] eqn:El;
      apply IH in El; intros [= <- <-];
      exact (telemetry_ok_app _ _ _ _ _ _ _ _ _ E1 El).
Qed.
End Telemetry.

Section DetectorTelemetry.
Context {M : Type} `{ScoringCapability M}.
Variable a : Detector.args.

Lemma detector_drain_no_debug fuel : forall st : Detector.state M,
  existsb is_debug (snd (fst (Detector.drain fuel a st))) = false.
Proof.
  induction fuel as [|fuel IH]; intros st; cbn [Detector.drain];
    [reflexivity |].
  destruct (frame_size <=? _); [| reflexivity].
  unfold Detector.process_frame.
  destruct (predict (Detector.oww_model st) _) as [m1 [items|msg]];
    [| reflexivity].
  pose proof (detector_evaluate_verdicts a items m1) as Hv.
  destruct (Detector.evaluate a items m1) as [m2 tr0].
  cbn [snd] in Hv. apply verdicts_silent in Hv as (_ & _ & Hd & _).
  match goal with
  | |- context [Detector.drain fuel a ?s] =>
      specialize (IH s); destruct (Detector.drain fuel a s) as [[st2 tr2] c2]
  end.
  cbn [fst snd] in *. cbn [app existsb is_debug orb].
  now rewrite existsb_app, Hd, IH.
Qed.

Lemma detector_loop_no_debug reads : forall st : Detector.state M,
  existsb is_debug (snd (Detector.loop a st reads)) = false.
Proof.
  induction reads as [|[|b data] reads IH]; intros st; try reflexivity.
  cbn [Detector.loop]. unfold Detector.iteration.
  pose proof (detector_drain_no_debug
                (length (Detector.buffer (Detector.push st (b :: data))))
                (Detector.push st (b :: data))) as Hd.
  destruct (Detector.drain _ a (Detector.push st (b :: data)))
    as [[st1 tr1] [|msg]]; cbn [fst snd] in Hd;
    specialize (IH st1);
    destruct (Detector.loop a st1 reads) as [st2 tr2];
    cbn [snd] in *; rewrite !existsb_app, Hd, IH;
    [| destruct (Detector.debug a)]; reflexivity.
Qed.
End DetectorTelemetry.

(** C6, in the form that holds of the code: in the server, a frame that is
    scored without raising and brings [frames_processed] to a multiple of
    50 ends with the telemetry record of that count and of the rolling
    maximum rounded to three decimals, and [max_score] is 0 afterwards;
    any other frame prints no telemetry record. In a run of the server
    every telemetry record carries the number of frames processed so far,
    and if no score of its window exceeded the threshold (and none is
    negative), the maximum it reports is the rounded maximum of the scores
    observed in the window, 0 when there is none. The detector prints no
    telemetry record. *)
Theorem telemetry {M : Type} `{ScoringCapability M}
    (threshold : Q) (a : Detector.args) (m : M) (reads : list bytes) :
  (forall (st st' : Server.state M) tr c,
     Server.process_frame threshold st = (st', tr, c) ->
     Server.frames_processed st' = Server.frames_processed st + 1 /\
     (c = Normal -> Server.frames_processed st' mod 50 = 0 ->
      Server.max_score st' = 0%Q /\
      exists m1 items tr0,
        predict (Server.model st)
          (decode (firstn frame_size (Server.audio_buffer st)))
        = (m1, Scores items) /\
        existsb is_debug tr0 = false /\
        tr = tr0 ++ [Emit (DebugEvent (Server.frames_processed st')
                       (round3 (snd (fst (Server.evaluate threshold items m1
                                            (Server.max_score st))))))]) /\
     (c <> Normal \/ Server.frames_processed st' mod 50 <> 0 ->
      existsb is_debug tr = false)) /\
  (forall pre n r post,
     snd (Server.loop threshold (Server.init m) reads)
     = pre ++ Emit (DebugEvent n r) :: post ->
     n = length (frames_of pre) /\ n mod 50 = 0 /\
     ((forall s, In s (scores_of (since_debug pre)) ->
         (0 <= s)%Q /\ (s <= threshold)%Q) ->
      exists mx,
        r = round3 mx /\
        (forall s, In s (scores_of (since_debug pre)) -> (s <= mx)%Q) /\
        (scores_of (since_debug pre) = [] -> mx = 0%Q) /\
        (scores_of (since_debug pre) <> [] ->
         exists s, In s (scores_of (since_debug pre)) /\ (s == mx)%Q))) /\
  existsb is_debug (snd (Detector.loop a (Detector.init m) reads)) = false.
Proof.
  split; [| split].
  - intros st st' tr c. unfold Server.process_frame.
    destruct (predict (Server.model st) _) as [m1 [items|msg]].
    + pose proof (server_evaluate_verdicts threshold items m1
                    (Server.max_score st)) as Hv.
      destruct (Server.evaluate threshold items m1 (Server.max_score st))
        as [[m2 mx] tr0] eqn:Ee.
      cbn [fst snd] in *. apply verdicts_silent in Hv as (_ & _ & Hd & _).
      destruct (_ =? 0) eqn:Emod; intros [= <- <- <-];
        cbn [Server.frames_processed Server.max_score].
      * split; [reflexivity |]. split.
        -- intros _ _. split; [reflexivity |].
           exists m1, items, (Predict (firstn frame_size (Server.audio_buffer st))
                                (Scores items) :: tr0).
           split; [reflexivity |]. split; [exact Hd |].
           rewrite Ee. reflexivity.
        -- apply Nat.eqb_eq in Emod. intros [Hc|Hc]; congruence.
      * split; [reflexivity |]. apply Nat.eqb_neq in Emod.
        split; [intros _ Hc; congruence |]. intros _. exact Hd.
    + intros [= <- <- <-]. cbn [Server.frames_processed].
      split; [reflexivity |]. split; [discriminate | reflexivity].
  - intros pre n r post E.
    destruct (Server.loop threshold (Server.init m) reads) as [st' tr] eqn:El.
    apply server_loop_telemetry in El as (Hsplit & _).
    cbn [snd] in E. destruct (Hsplit pre n r post E) as (Hn & Hmod & Hr).
    cbn [Server.init Server.frames_processed Server.max_score] in *.
    split; [exact Hn |]. split; [exact Hmod |].
    intros Hw.
    assert (Hstart : window_start 0 pre = 0%Q)
      by (unfold window_start; now destruct (existsb is_debug pre)).
    rewrite Hstart in Hr.
    exists (rolling 0 (scores_of (since_debug pre))).
    split; [apply Hr; intros s Hs; now apply Hw |].
    apply rolling_maximum. intros s Hs. now apply Hw.
  - apply detector_loop_no_debug.
Qed.

Lemma telemetry_witness :
  snd (Server.loop (1 # 2) (Server.init near_misses) fifty_reads)
  = removelast (snd (Server.loop (1 # 2) (Server.init near_misses) fifty_reads))
      ++ Emit (DebugEvent 50 (300 # 1000)) :: [] /\
  (forall s,
     In s (scores_of (since_debug (removelast
            (snd (Server.loop (1 # 2) (Server.init near_misses) fifty_reads)))))
     -> (0 <= s)%Q /\ (s <= 1 # 2)%Q) /\
  exists mx,
    (300 # 1000)%Q = round3 mx /\
    exists s,
      In s (scores_of (since_debug (removelast
             (snd (Server.loop (1 # 2) (Server.init near_misses) fifty_reads)))))
      /\ (s == mx)%Q.
Proof.
  assert (E : snd (Server.loop (1 # 2) (Server.init near_misses) fifty_reads)
              = removelast (snd (Server.loop (1 # 2) (Server.init near_misses)
                                   fifty_reads))
                  ++ Emit (DebugEvent 50 (300 # 1000)) :: [])
    by (vm_compute; reflexivity).
  assert (Hw : forall s,
     In s (scores_of (since_debug (removelast
            (snd (Server.loop (1 # 2) (Server.init near_misses) fifty_reads)))))
     -> (0 <= s)%Q /\ (s <= 1 # 2)%Q).
  { assert (Hb : forallb (fun s => Qle_bool 0 s && Qle_bool s (1 # 2))
                   (scores_of (since_debug (removelast
                      (snd (Server.loop (1 # 2) (Server.init near_misses)
                              fifty_reads))))) = true)
      by (vm_compute; reflexivity).
    intros s Hs. rewrite forallb_forall in Hb. specialize (Hb s Hs).
    apply andb_true_iff in Hb as [H1 H2].
    split; now apply Qle_bool_iff. }
  assert (Hne : scores_of (since_debug (removelast
                  (snd (Server.loop (1 # 2) (Server.init near_misses)
                          fifty_reads)))) <> [])
    by (vm_compute; discriminate).
  split; [exact E |]. split; [exact Hw |].
  destruct (proj1 (proj2 (telemetry (1 # 2) Detector.default_args near_misses
                            fifty_reads)) _ _ _ _ E)
    as (_ & _ & Hmax).
  destruct (Hmax Hw) as (mx & Hr & _ & _ & Hin).
  exists mx. split; [exact Hr | exact (Hin Hne)].
Defined.

(** C6 fails as stated: over fifty frames the detector prints no
    telemetry record, with or without [--debug]; the server prints one. *)
Lemma detector_telemetry_counterexample :
  length (frames_of
    (fst (Detector.main
            (Detector.Namespace
               (Detector.mkArgs "hey_jarvis" Detector.float_0_65 true))
            true false (fun _ => inl near_misses) fifty_reads))) = 50 /\
  existsb is_debug
    (fst (Detector.main
            (Detector.Namespace
               (Detector.mkArgs "hey_jarvis" Detector.float_0_65 true))
            true false (fun _ => inl near_misses) fifty_reads)) = false /\
  existsb is_debug
    (fst (Detector.main (Detector.Namespace Detector.default_args) true false
            (fun _ => inl near_misses) fifty_reads)) = false /\
  filter is_debug
    (fst (Server.main true (fun _ => None) (fun _ => inl near_misses) []
            fifty_reads))
  = [Emit (DebugEvent 50 (300 # 1000))].
Proof.
  split; [vm_compute; reflexivity |].
  split; [vm_compute; reflexivity |].
  split; vm_compute; reflexivity.
Qed.

(** Scenario B of the spec: fifty frames with no score give exactly one
    telemetry record, [frames: 50, max_score: 0.0]. *)
Example scenario_B :
  events_of (snd (Server.loop (1 # 2) (Server.init silent) fifty_reads))
  = [DebugEvent 50 (round3 0)] /\
  (round3 0 == 0)%Q.
Proof. split; vm_compute; reflexivity. Qed.


(** ** The other scenarios of the spec *)

(** Scenario A: one frame of silence, threshold 0.5: one frame is
    processed and nothing is detected. *)
Example scenario_A :
  Server.frames_processed
    (fst (Server.loop (1 # 2) (Server.init silent) [zeros 2560])) = 1 /\
  length (frames_of
    (snd (Server.loop (1 # 2) (Server.init silent) [zeros 2560]))) = 1 /\
  events_of (snd (Server.loop (1 # 2) (Server.init silent) [zeros 2560])) = [].
Proof. repeat split; vm_compute; reflexivity. Qed.

(** Scenario C: the score 0.9 on the third frame with threshold 0.65 and
    the comparison [>=]: one detection record, and one reset, after the
    third call of [predict] and before the fourth. *)
Example scenario_C :
  events_of (snd (Detector.loop Detector.default_args
                    (Detector.init third_fires) four_reads))
  = [DetectionEvent "hey_jarvis" (9 # 10)] /\
  calls_of (snd (Detector.loop Detector.default_args
                   (Detector.init third_fires) four_reads))
  = [false; false; false; true; false].
Proof. split; vm_compute; reflexivity. Qed.

(** Scenario D: the stream ends with 10 bytes in the buffer: no frame is
    scored, the detector prints the stopped record and exits with 0. *)
Example scenario_D :
  Detector.main (Detector.Namespace Detector.default_args) true false
    (fun _ => inl silent) [zeros 10]
  = ([Emit (ReadyEvent "hey_jarvis" Detector.float_0_65); Emit StoppedEvent],
     0%Z).
Proof. vm_compute. reflexivity. Qed.


(** * Further properties of the two loops *)

(** ** The shape of a run *)

Lemma server_verdict_silent threshold items :
  forallb is_verdict (flat_map (server_verdict threshold) items) = true.
Proof.
  induction items as [|[name score] items IH]; [reflexivity |].
  cbn [flat_map server_verdict]. rewrite forallb_app, IH.
  now destruct (Qgtb score threshold).
Qed.

Lemma detector_verdict_silent a items :
  forallb is_verdict (flat_map (detector_verdict a) items) = true.
Proof.
  induction items as [|[name score] items IH]; [reflexivity |].
  cbn [flat_map detector_verdict]. rewrite !forallb_app, IH.
  destruct (Detector.debug a && score_gt score Detector.float_0_1);
    destruct (score_ge score (Detector.threshold a)); reflexivity.
Qed.

Section RunShape.
Context {M : Type} `{ScoringCapability M}.

Lemma server_evaluate_trace threshold items : forall (m : M) mx,
  snd (Server.evaluate threshold items m mx)
  = flat_map (server_verdict threshold) items.
Proof.
  induction items as [|[name score] items IH]; intros m mx; [reflexivity |].
  cbn [Server.evaluate Server.check flat_map server_verdict].
  destruct (Qgtb score threshold).
  - specialize (IH (reset m) 0%Q).
    destruct (Server.evaluate threshold items (reset m) 0) as [[m2 mx2] tr2].
    cbn [snd] in *. now rewrite IH.
  - specialize (IH m (if Qgtb score mx then score else mx)).
    destruct (Server.evaluate threshold items m _) as [[m2 mx2] tr2].
    cbn [snd] in *. now rewrite IH.
Qed.

Lemma detector_evaluate_trace a items : forall m : M,
  snd (Detector.evaluate a items m) = flat_map (detector_verdict a) items.
Proof.
  induction items as [|[name score] items IH]; intros m; [reflexivity |].
  cbn [Detector.evaluate Detector.check flat_map detector_verdict].
  destruct (score_ge score (Detector.threshold a)).
  - specialize (IH (reset m)).
    destruct (Detector.evaluate a items (reset m)) as [m2 tr2].
    cbn [snd] in *. now rewrite IH.
  - specialize (IH m).
    destruct (Detector.evaluate a items m) as [m2 tr2].
    cbn [snd] in *. now rewrite IH, app_nil_r.
Qed.

Lemma server_run_app threshold n a :
  server_run threshold n a ->
  forall b,
  server_run threshold (n + length (frames_of a)) b ->
  server_run threshold n (a ++ b).
Proof.
  induction 1 as [n|n frame items r tr _ IH|n frame msg tr _ IH]; intros b Hb.
  - cbn [frames_of length app] in *. now rewrite Nat.add_0_r in Hb.
  - cbn [app]. rewrite <- !app_assoc. constructor. apply IH.
    destruct (verdicts_silent _ (server_verdict_silent threshold items))
      as (Hf & _).
    match type of Hb with
    | server_run _ (n + length ?l) _ =>
        assert (Hlen : length l = S (length (frames_of tr)))
    end.
    { cbn [frames_of]. rewrite !frames_of_app, Hf.
      now destruct (_ =? 0). }
    rewrite Hlen in Hb.
    now replace (n + 1 + length (frames_of tr))
      with (n + S (length (frames_of tr))) by lia.
  - cbn [app]. constructor. apply IH. cbn [frames_of length] in Hb.
    now replace (n + 1 + length (frames_of tr))
      with (n + S (length (frames_of tr))) by lia.
Qed.

Lemma detector_run_app a x :
  detector_run a x -> forall y, detector_run a y -> detector_run a (x ++ y).
Proof.
  induction 1 as [|frame items tr _ IH|frame msg tr _ IH]; intros y Hy.
  - exact Hy.
  - cbn [app]. rewrite <- app_assoc. constructor. now apply IH.
  - cbn [app]. rewrite <- app_assoc. constructor. now apply IH.
Qed.

Lemma server_drain_run threshold fuel : forall (st st' : Server.state M) tr c,
  Server.drain fuel threshold st = (st', tr, c) ->
  (c = Normal -> server_run threshold (Server.frames_processed st) tr) /\
  (forall msg, c = Exception msg ->
     exists tr0 f, tr = tr0 ++ [Predict f (Raises msg)] /\
                   server_run threshold (Server.frames_processed st) tr0).
Proof.
  induction fuel as [|fuel IH]; intros st st' tr c; cbn [Server.drain].
  - intros [= <- <- <-]. split; [intros _; constructor | discriminate].
  - destruct (frame_size <=? _).
    2:{ intros [= <- <- <-]. split; [intros _; constructor | discriminate]. }
    unfold Server.process_frame.
    destruct (predict (Server.model st) _) as [m1 [items|msg]].
    + pose proof (server_evaluate_trace threshold items m1
                    (Server.max_score st)) as Ht.
      destruct (Server.evaluate threshold items m1 (Server.max_score st))
        as [[m2 mx] tr0].
      cbn [snd] in Ht. subst tr0.
      set (n := Server.frames_processed st).
      assert (Hblock : forall tr2,
                server_run threshold (n + 1) tr2 ->
                server_run threshold n
                  ((Predict (firstn frame_size (Server.audio_buffer st))
                      (Scores items)
                    :: flat_map (server_verdict threshold) items
                    ++ (if (n + 1) mod 50 =? 0
                        then [Emit (DebugEvent (n + 1) (round3 mx))] else []))
                   ++ tr2)).
      { intros tr2 H2. cbn [app]. rewrite <- app_assoc. now constructor. }
      destruct ((n + 1) mod 50 =? 0) eqn:Emod;
        match goal with
        | |- context [Server.drain fuel threshold ?s] =>
            destruct (Server.drain fuel threshold s) as [[st2 tr2] c2] eqn:Ed
        end;
        apply IH in Ed as [Hn Hx];
        cbn [Server.frames_processed] in Hn, Hx; fold n in Hn, Hx;
        intros [= <- <- <-]; split.
      * intros Hc. specialize (Hblock tr2 (Hn Hc)).
        cbn [app] in Hblock |- *. now rewrite <- app_assoc in Hblock |- *.
      * intros msg Hc. destruct (Hx msg Hc) as (t0 & f & -> & H0).
        eexists _, f. split; [| exact (Hblock t0 H0)].
        cbn [app]. now rewrite <- !app_assoc.
      * intros Hc. specialize (Hblock tr2 (Hn Hc)).
        cbn [app] in Hblock |- *. now rewrite app_nil_r in Hblock.
      * intros msg Hc. destruct (Hx msg Hc) as (t0 & f & -> & H0).
        eexists _, f. split; [| exact (Hblock t0 H0)].
        cbn [app]. now rewrite app_nil_r, <- app_assoc.
    + intros [= <- <- <-]. split; [discriminate |].
      intros msg0 [= <-]. exists [], (firstn frame_size (Server.audio_buffer st)).
      split; [reflexivity | constructor].
Qed.
End RunShape.

Section RunShapeLoops.
Context {M : Type} `{ScoringCapability M}.

Lemma detector_drain_run a fuel : forall (st st' : Detector.state M) tr c,
  Detector.drain fuel a st = (st', tr, c) ->
  (c = Normal -> detector_run a tr) /\
  (forall msg, c = Exception msg ->
     exists tr0 f, tr = tr0 ++ [Predict f (Raises msg)] /\ detector_run a tr0).
Proof.
  induction fuel as [|fuel IH]; intros st st' tr c; cbn [Detector.drain].
  - intros [= <- <- <-]. split; [intros _; constructor | discriminate].
  - destruct (frame_size <=? _).
    2:{ intros [= <- <- <-]. split; [intros _; constructor | discriminate]. }
    unfold Detector.process_frame.
    destruct (predict (Detector.oww_model st) _) as [m1 [items|msg]].
    + pose proof (detector_evaluate_trace a items m1) as Ht.
      destruct (Detector.evaluate a items m1) as [m2 tr0].
      cbn [snd] in Ht. subst tr0.
      match goal with
      | |- context [Detector.drain fuel a ?s] =>
          destruct (Detector.drain fuel a s) as [[st2 tr2] c2] eqn:Ed
      end.
      apply IH in Ed as [Hn Hx]. intros [= <- <- <-]. split.
      * intros Hc. cbn [app]. constructor. now apply Hn.
      * intros msg Hc. destruct (Hx msg Hc) as (t0 & f & -> & H0).
        exists (Predict (firstn frame_size (Detector.buffer st)) (Scores items)
                  :: flat_map (detector_verdict a) items ++ t0), f.
        split; [cbn [app]; now rewrite <- app_assoc | now constructor].
    + intros [= <- <- <-]. split; [discriminate |].
      intros msg0 [= <-]. exists [], (firstn frame_size (Detector.buffer st)).
      split; [reflexivity | constructor].
Qed.

(** The trace of a run of the server's loop is a sequence of blocks. *)
Lemma server_loop_run threshold reads : forall st : Server.state M,
  server_run threshold (Server.frames_processed st)
    (snd (Server.loop threshold st reads)).
Proof.
  induction reads as [|[|b chunk] reads IH]; intros st; cbn [Server.loop];
    try (cbn [snd]; constructor).
  destruct (Server.iteration threshold st (b :: chunk)) as [st1 tr1] eqn:Ei.
  pose proof (server_iteration_spec threshold _ _ _ _ Ei) as (_ & _ & Hn & _).
  assert (H1 : server_run threshold (Server.frames_processed st) tr1).
  { unfold Server.iteration in Ei.
    destruct (Server.drain _ threshold (Server.push st (b :: chunk)))
      as [[st2 tr2] c] eqn:Ed.
    apply server_drain_run in Ed as [Hnorm Hexc].
    cbn [Server.push Server.frames_processed] in Hnorm, Hexc.
    destruct c as [|msg]; injection Ei as <- <-; [now apply Hnorm |].
    destruct (Hexc msg eq_refl) as (t0 & f & -> & H0).
    rewrite <- app_assoc. apply server_run_app; [exact H0 |].
    cbn [app]. repeat constructor. }
  specialize (IH st1).
  destruct (Server.loop threshold st1 reads) as [st2 tr2]. cbn [snd] in *.
  apply server_run_app; [exact H1 |]. now rewrite <- Hn.
Qed.

(** The trace of a run of the detector's loop is a sequence of blocks. *)
Lemma detector_loop_run a reads : forall st : Detector.state M,
  detector_run a (snd (Detector.loop a st reads)).
Proof.
  induction reads as [|[|b data] reads IH]; intros st; cbn [Detector.loop];
    try (cbn [snd]; constructor).
  destruct (Detector.iteration a st (b :: data)) as [st1 tr1] eqn:Ei.
  assert (H1 : detector_run a tr1).
  { unfold Detector.iteration in Ei.
    destruct (Detector.drain _ a (Detector.push st (b :: data)))
      as [[st2 tr2] c] eqn:Ed.
    apply detector_drain_run in Ed as [Hnorm Hexc].
    destruct c as [|msg]; injection Ei as <- <-; [now apply Hnorm |].
    destruct (Hexc msg eq_refl) as (t0 & f & -> & H0).
    rewrite <- app_assoc. apply detector_run_app; [exact H0 |].
    cbn [app].
    replace (Predict f (Raises msg)
               :: (if Detector.debug a then [Emit (ErrorEvent msg)] else []))
      with (Predict f (Raises msg)
              :: (if Detector.debug a then [Emit (ErrorEvent msg)] else [])
              ++ []) by (now rewrite app_nil_r).
    repeat constructor. }
  specialize (IH st1).
  destruct (Detector.loop a st1 reads) as [st2 tr2]. cbn [snd] in *.
  now apply detector_run_app.
Qed.
End RunShapeLoops.

(** ** What a run prints *)


Lemma server_verdict_detection threshold items name score :
  In (Emit (DetectionEvent name score))
     (flat_map (server_verdict threshold) items) ->
  exists s, In (name, s) items /\ value s = score /\ (threshold < score)%Q.
Proof.
  intros Hin. apply in_flat_map in Hin as ([n s] & Hitem & Hin).
  unfold server_verdict in Hin. destruct (Qgtb s threshold) eqn:E.
  - destruct Hin as [[= -> <-]|[[=]|[]]]. exists s.
    split; [exact Hitem |]. split; [reflexivity | now apply Qgtb_lt].
  - destruct Hin.
Qed.

Lemma detector_verdict_detection a items name score :
  In (Emit (DetectionEvent name score))
     (flat_map (detector_verdict a) items) ->
  exists s, In (name, s) items /\ value s = score /\
            score_ge s (Detector.threshold a) = true.
Proof.
  intros Hin. apply in_flat_map in Hin as ([n s] & Hitem & Hin).
  unfold detector_verdict in Hin. apply in_app_iff in Hin as [Hin|Hin].
  - destruct (_ && _); [destruct Hin as [[=]|[]] | destruct Hin].
  - destruct (score_ge s (Detector.threshold a)) eqn:E; [| destruct Hin].
    destruct Hin as [[= -> <-]|[[=]|[]]]. now exists s.
Qed.

Lemma server_run_detection threshold n tr :
  server_run threshold n tr ->
  forall name score,
  In (Emit (DetectionEvent name score)) tr ->
  exists frame items s,
    In (Predict frame (Scores items)) tr /\ In (name, s) items /\
    value s = score /\ (threshold < score)%Q.
Proof.
  induction 1 as [n|n frame items r tr _ IH|n frame msg tr _ IH];
    intros name score Hin.
  - destruct Hin.
  - destruct Hin as [[=]|Hin].
    apply in_app_iff in Hin as [Hin|Hin].
    + apply server_verdict_detection in Hin as (s & Hitem & Hs).
      exists frame, items, s. split; [now left | split; [exact Hitem | exact Hs]].
    + apply in_app_iff in Hin as [Hin|Hin].
      * destruct (_ =? 0); [destruct Hin as [[=]|[]] | destruct Hin].
      * destruct (IH _ _ Hin) as (f & its & s & Hp & Hs).
        exists f, its, s. split; [| exact Hs].
        right. apply in_app_iff. right. apply in_app_iff. now right.
  - destruct Hin as [[=]|[[=]|Hin]].
    destruct (IH _ _ Hin) as (f & its & s & Hp & Hs).
    exists f, its, s. split; [| exact Hs].
    right. now right.
Qed.

Lemma detector_run_detection a tr :
  detector_run a tr ->
  forall name score,
  In (Emit (DetectionEvent name score)) tr ->
  exists frame items s,
    In (Predict frame (Scores items)) tr /\ In (name, s) items /\
    value s = score /\ score_ge s (Detector.threshold a) = true.
Proof.
  induction 1 as [|frame items tr _ IH|frame msg tr _ IH];
    intros name score Hin.
  - destruct Hin.
  - destruct Hin as [[=]|Hin].
    apply in_app_iff in Hin as [Hin|Hin].
    + apply detector_verdict_detection in Hin as (s & Hitem & Hs).
      exists frame, items, s. split; [now left | split; [exact Hitem | exact Hs]].
    + destruct (IH _ _ Hin) as (f & its & s & Hp & Hs).
      exists f, its, s. split; [| exact Hs].
      right. apply in_app_iff. now right.
  - destruct Hin as [[=]|Hin].
    apply in_app_iff in Hin as [Hin|Hin].
    + destruct (Detector.debug a); [destruct Hin as [[=]|[]] | destruct Hin].
    + destruct (IH _ _ Hin) as (f & its & s & Hp & Hs).
      exists f, its, s. split; [| exact Hs].
      right. apply in_app_iff. now right.
Qed.

(** X1: every detection record of a run carries a name and a score that
    the scoring capability returned for some frame of the run, and the
    score passes the comparison of the variant: it is above the threshold
    in the server; in the detector it passes [score >= threshold] in its
    own precision, which puts a Python float at or above the threshold
    and any score at most half a unit in the last place of binary32
    below a threshold that is not negative. *)
Theorem detections_pass_threshold {M : Type} `{ScoringCapability M}
    (threshold : Q) (a : Detector.args)
    (s : Server.state M) (d : Detector.state M) (reads : list bytes)
    (name : string) (score : Q) :
  (In (Emit (DetectionEvent name score)) (snd (Server.loop threshold s reads)) ->
   exists frame items returned,
     In (Predict frame (Scores items)) (snd (Server.loop threshold s reads)) /\
     In (name, returned) items /\ value returned = score /\
     (score > threshold)%Q) /\
  (In (Emit (DetectionEvent name score)) (snd (Detector.loop a d reads)) ->
   exists frame items returned,
     In (Predict frame (Scores items)) (snd (Detector.loop a d reads)) /\
     In (name, returned) items /\ value returned = score /\
     score_ge returned (Detector.threshold a) = true /\
     ((0 <= Detector.threshold a)%Q ->
      (score >= Detector.threshold a
                - 2 ^ (ulp32 (Detector.threshold a) - 1))%Q /\
      match returned with
      | py_float _ => (score >= Detector.threshold a)%Q
      | np_float32 _ => True
      end)).
Proof.
  split.
  - apply (server_run_detection threshold (Server.frames_processed s)).
    apply server_loop_run.
  - intros Hin.
    apply (detector_run_detection a _ (detector_loop_run a reads d)) in Hin
      as (f & its & r & Hp & Hitem & Ev & Hs).
    exists f, its, r. repeat (split; [assumption |]).
    intros Hpos. destruct (score_ge_sound r _ Hpos Hs) as [Hb Hpy].
    rewrite Ev in Hb. split; [exact Hb |].
    destruct r as [v|v]; cbn [value] in Ev; [now subst v | exact I].
Qed.

Lemma detections_pass_threshold_witness :
  In (Emit (DetectionEvent "hey_jarvis" (9 # 10)))
     (snd (Detector.loop Detector.default_args (Detector.init third_fires)
             four_reads)) /\
  exists frame items returned,
    In (Predict frame (Scores items))
       (snd (Detector.loop Detector.default_args (Detector.init third_fires)
               four_reads)) /\
    In ("hey_jarvis"%string, returned) items /\
    value returned = (9 # 10)%Q /\
    score_ge returned (Detector.threshold Detector.default_args) = true.
Proof.
  assert (Hin : In (Emit (DetectionEvent "hey_jarvis" (9 # 10)))
                  (snd (Detector.loop Detector.default_args
                          (Detector.init third_fires) four_reads))).
  { vm_compute. right. right. right. left. reflexivity. }
  split; [exact Hin |].
  destruct (proj2 (detections_pass_threshold (1 # 2) Detector.default_args
                     (Server.init third_fires) (Detector.init third_fires)
                     four_reads "hey_jarvis" (9 # 10)) Hin)
    as (f & its & r & Hp & Hitem & Ev & Hs & _).
  exists f, its, r. auto.
Defined.

Lemma server_verdict_paired threshold items rest :
  resets_paired (flat_map (server_verdict threshold) items ++ rest)
  = resets_paired rest.
Proof.
  induction items as [|[name score] items IH]; [reflexivity |].
  cbn [flat_map server_verdict]. rewrite <- app_assoc.
  destruct (Qgtb score threshold); cbn [app resets_paired]; exact IH.
Qed.

Lemma detector_verdict_paired a items rest :
  resets_paired (flat_map (detector_verdict a) items ++ rest)
  = resets_paired rest.
Proof.
  induction items as [|[name score] items IH]; [reflexivity |].
  cbn [flat_map detector_verdict]. rewrite <- !app_assoc.
  destruct (Detector.debug a && score_gt score Detector.float_0_1);
    destruct (score_ge score (Detector.threshold a));
    cbn [app resets_paired]; exact IH.
Qed.

(** X2: in a run of either variant every detection record is followed at
    once by a reset of the scoring capability, and the capability is
    never reset otherwise. *)
Theorem resets_follow_detections {M : Type} `{ScoringCapability M}
    (threshold : Q) (a : Detector.args)
    (s : Server.state M) (d : Detector.state M) (reads : list bytes) :
  resets_paired (snd (Server.loop threshold s reads)) = true /\
  resets_paired (snd (Detector.loop a d reads)) = true.
Proof.
  split.
  - pose proof (server_loop_run threshold reads s) as Hrun.
    induction Hrun as [n|n frame items r tr _ IH|n frame msg tr _ IH].
    + reflexivity.
    + cbn [resets_paired]. rewrite server_verdict_paired.
      destruct (_ =? 0); exact IH.
    + exact IH.
  - pose proof (detector_loop_run a reads d) as Hrun.
    induction Hrun as [|frame items tr _ IH|frame msg tr _ IH].
    + reflexivity.
    + cbn [resets_paired]. now rewrite detector_verdict_paired.
    + cbn [resets_paired]. destruct (Detector.debug a); exact IH.
Qed.

Lemma server_verdict_reported threshold items rest :
  errors_reported (flat_map (server_verdict threshold) items ++ rest)
  = errors_reported rest.
Proof.
  induction items as [|[name score] items IH]; [reflexivity |].
  cbn [flat_map server_verdict]. rewrite <- app_assoc.
  destruct (Qgtb score threshold); cbn [app errors_reported]; exact IH.
Qed.

Lemma detector_verdict_reported a items rest :
  errors_reported (flat_map (detector_verdict a) items ++ rest)
  = errors_reported rest.
Proof.
  induction items as [|[name score] items IH]; [reflexivity |].
  cbn [flat_map detector_verdict]. rewrite <- !app_assoc.
  destruct (Detector.debug a && score_gt score Detector.float_0_1);
    destruct (score_ge score (Detector.threshold a));
    cbn [app errors_reported]; exact IH.
Qed.

(** X3: in a run of the server, and of the detector with [--debug], every
    scoring call that raises is followed at once by an error record with
    the message of the exception, and no other error record is printed. *)
Theorem errors_follow_raises {M : Type} `{ScoringCapability M}
    (threshold : Q) (a : Detector.args)
    (s : Server.state M) (d : Detector.state M) (reads : list bytes) :
  errors_reported (snd (Server.loop threshold s reads)) = true /\
  (Detector.debug a = true ->
   errors_reported (snd (Detector.loop a d reads)) = true).
Proof.
  split.
  - pose proof (server_loop_run threshold reads s) as Hrun.
    induction Hrun as [n|n frame items r tr _ IH|n frame msg tr _ IH].
    + reflexivity.
    + cbn [errors_reported]. rewrite server_verdict_reported.
      destruct (_ =? 0); exact IH.
    + cbn [errors_reported]. now rewrite String.eqb_refl, IH.
  - intros Hdebug. pose proof (detector_loop_run a reads d) as Hrun.
    induction Hrun as [|frame items tr _ IH|frame msg tr _ IH].
    + reflexivity.
    + cbn [errors_reported]. now rewrite detector_verdict_reported.
    + rewrite Hdebug. cbn [app errors_reported].
      now rewrite String.eqb_refl, IH.
Qed.

Lemma errors_follow_raises_witness :
  Detector.debug (Detector.mkArgs "hey_jarvis" (1 # 2) true) = true /\
  errors_reported
    (snd (Detector.loop (Detector.mkArgs "hey_jarvis" (1 # 2) true)
            (Detector.init fails_seventh) eight_reads)) = true.
Proof.
  split; [reflexivity |].
  exact (proj2 (errors_follow_raises (1 # 2)
                  (Detector.mkArgs "hey_jarvis" (1 # 2) true)
                  (Server.init fails_seventh) (Detector.init fails_seventh)
                  eight_reads) eq_refl).
Defined.





(** X6: in the detector, when no read returns more than the
    [bytes_per_chunk] bytes it asks for, a round scores at most one frame
    and leaves less than a frame in the buffer, whether the scoring call
    raises or not; so a run scores at most one frame per read. *)
Theorem detector_one_frame_per_read {M : Type} `{ScoringCapability M}
    (a : Detector.args) (d : Detector.state M)
    (data : bytes) (reads : list bytes) :
  length (Detector.buffer d) < frame_size ->
  (length data <= frame_size ->
   length (frames_of (snd (Detector.iteration a d data))) <= 1 /\
   length (Detector.buffer (fst (Detector.iteration a d data))) < frame_size) /\
  (Forall (fun data => length data <= frame_size) reads ->
   length (frames_of (snd (Detector.loop a d reads))) <= length (fed reads)).
Proof.
  intros Hbuf. split.
  - intros Hdata.
    destruct (Detector.iteration a d data) as [d' tr] eqn:Ei.
    apply detector_iteration_spec in Ei as (Hcat & Hw & _ & Hs).
    cbn [fst snd]. split; [| now apply Hs].
    apply (f_equal (@length byte)) in Hcat.
    rewrite !length_app, (well_framed_length _ Hw) in Hcat.
    rewrite frame_size_val in *. nia.
  - revert d Hbuf. induction reads as [|[|b data'] reads IH];
      intros d Hbuf Hall; cbn [Detector.loop fed snd frames_of length]; try lia.
    inversion Hall as [|? ? Hd Hrest]; subst.
    destruct (Detector.iteration a d (b :: data')) as [d1 tr1] eqn:Ei.
    apply detector_iteration_spec in Ei as (Hcat & Hw & _ & Hs).
    specialize (IH d1 (Hs Hbuf Hd) Hrest).
    destruct (Detector.loop a d1 reads) as [d2 tr2]. cbn [snd] in *.
    rewrite frames_of_app, length_app.
    apply (f_equal (@length byte)) in Hcat.
    rewrite !length_app, (well_framed_length _ Hw) in Hcat.
    specialize (Hs Hbuf Hd).
    rewrite frame_size_val in *. nia.
Qed.

Lemma detector_one_frame_per_read_witness :
  length (Detector.buffer (Detector.init fails_first)) < frame_size /\
  Forall (fun data => length data <= frame_size) eight_reads /\
  length (frames_of (snd (Detector.loop Detector.default_args
                            (Detector.init fails_first) eight_reads)))
  <= length (fed eight_reads).
Proof.
  assert (Hb : length (Detector.buffer (Detector.init fails_first)) < frame_size)
    by (apply Nat.ltb_lt; vm_compute; reflexivity).
  assert (Hall : Forall (fun data => length data <= frame_size) eight_reads).
  { apply Forall_forall. intros x Hx. apply repeat_spec in Hx. subst x.
    apply Nat.leb_le. vm_compute. reflexivity. }
  split; [exact Hb |]. split; [exact Hall |].
  exact (proj2 (detector_one_frame_per_read Detector.default_args
                  (Detector.init fails_first) [] eight_reads Hb) Hall).
Defined.

Section Online.
Context {M : Type} `{ScoringCapability M}.

Lemma server_loop_app threshold reads1 reads2 : forall st : Server.state M,
  (exists tr2,
     snd (Server.loop threshold st (reads1 ++ reads2))
     = snd (Server.loop threshold st reads1) ++ tr2) /\
  (Forall (fun chunk => chunk <> []) reads1 ->
   Server.loop threshold st (reads1 ++ reads2)
   = (fst (Server.loop threshold
             (fst (Server.loop threshold st reads1)) reads2),
      snd (Server.loop threshold st reads1)
        ++ snd (Server.loop threshold
                  (fst (Server.loop threshold st reads1)) reads2))).
Proof.
  induction reads1 as [|[|b chunk] reads1 IH]; intros st.
  - cbn [app Server.loop fst snd]. split; [eauto |].
    intros _. now destruct (Server.loop threshold st reads2).
  - cbn [app Server.loop fst snd]. split; [now exists [] |].
    intros Hall. inversion Hall; subst. congruence.
  - cbn [app Server.loop].
    destruct (Server.iteration threshold st (b :: chunk)) as [st1 tr1].
    destruct (IH st1) as [[tr2 E] Hcomp].
    destruct (Server.loop threshold st1 (reads1 ++ reads2)) as [st2 tr12].
    destruct (Server.loop threshold st1 reads1) as [st3 tr13].
    cbn [fst snd] in *. split.
    + exists tr2. now rewrite E, app_assoc.
    + intros Hall. inversion Hall as [|? ? _ Hrest]; subst.
      specialize (Hcomp Hrest). injection Hcomp as -> ->.
      now rewrite app_assoc.
Qed.

Lemma detector_loop_app a reads1 reads2 : forall st : Detector.state M,
  (exists tr2,
     snd (Detector.loop a st (reads1 ++ reads2))
     = snd (Detector.loop a st reads1) ++ tr2) /\
  (Forall (fun data => data <> []) reads1 ->
   Detector.loop a st (reads1 ++ reads2)
   = (fst (Detector.loop a (fst (Detector.loop a st reads1)) reads2),
      snd (Detector.loop a st reads1)
        ++ snd (Detector.loop a (fst (Detector.loop a st reads1)) reads2))).
Proof.
  induction reads1 as [|[|b data] reads1 IH]; intros st.
  - cbn [app Detector.loop fst snd]. split; [eauto |].
    intros _. now destruct (Detector.loop a st reads2).
  - cbn [app Detector.loop fst snd]. split; [now exists [] |].
    intros Hall. inversion Hall; subst. congruence.
  - cbn [app Detector.loop].
    destruct (Detector.iteration a st (b :: data)) as [st1 tr1].
    destruct (IH st1) as [[tr2 E] Hcomp].
    destruct (Detector.loop a st1 (reads1 ++ reads2)) as [st2 tr12].
    destruct (Detector.loop a st1 reads1) as [st3 tr13].
    cbn [fst snd] in *. split.
    + exists tr2. now rewrite E, app_assoc.
    + intros Hall. inversion Hall as [|? ? _ Hrest]; subst.
      specialize (Hcomp Hrest). injection Hcomp as -> ->.
      now rewrite app_assoc.
Qed.
End Online.

(** X7: the loops work online.  What a run has done after some reads is
    a prefix of what it does when more reads follow, and as long as no read
    was empty the run over [reads1 ++ reads2] is the run over [reads1]
    followed by the run over [reads2] from the state reached. *)
Theorem runs_compose {M : Type} `{ScoringCapability M}
    (threshold : Q) (a : Detector.args)
    (s : Server.state M) (d : Detector.state M) (reads1 reads2 : list bytes) :
  (exists tr2,
     snd (Server.loop threshold s (reads1 ++ reads2))
     = snd (Server.loop threshold s reads1) ++ tr2) /\
  (exists tr2,
     snd (Detector.loop a d (reads1 ++ reads2))
     = snd (Detector.loop a d reads1) ++ tr2) /\
  (Forall (fun chunk => chunk <> []) reads1 ->
   Server.loop threshold s (reads1 ++ reads2)
   = (fst (Server.loop threshold
             (fst (Server.loop threshold s reads1)) reads2),
      snd (Server.loop threshold s reads1)
        ++ snd (Server.loop threshold
                  (fst (Server.loop threshold s reads1)) reads2)) /\
   Detector.loop a d (reads1 ++ reads2)
   = (fst (Detector.loop a (fst (Detector.loop a d reads1)) reads2),
      snd (Detector.loop a d reads1)
        ++ snd (Detector.loop a (fst (Detector.loop a d reads1)) reads2))).
Proof.
  destruct (server_loop_app threshold reads1 reads2 s) as [Hs1 Hs2].
  destruct (detector_loop_app a reads1 reads2 d) as [Hd1 Hd2].
  split; [exact Hs1 |]. split; [exact Hd1 |].
  intros Hall. split; [now apply Hs2 | now apply Hd2].
Qed.

Lemma runs_compose_witness :
  Forall (fun chunk : bytes => chunk <> []) [zeros 4096] /\
  Server.loop (1 # 2) (Server.init silent) ([zeros 4096] ++ [zeros 4096])
  = (fst (Server.loop (1 # 2)
            (fst (Server.loop (1 # 2) (Server.init silent) [zeros 4096]))
            [zeros 4096]),
     snd (Server.loop (1 # 2) (Server.init silent) [zeros 4096])
       ++ snd (Server.loop (1 # 2)
                 (fst (Server.loop (1 # 2) (Server.init silent) [zeros 4096]))
                 [zeros 4096])).
Proof.
  assert (Hall : Forall (fun chunk : bytes => chunk <> []) [zeros 4096]).
  { constructor; [| constructor]. vm_compute. discriminate. }
  split; [exact Hall |].
  exact (proj1 (proj2 (proj2 (runs_compose (1 # 2) Detector.default_args
                                (Server.init silent) (Detector.init silent)
                                [zeros 4096] [zeros 4096])) Hall)).
Defined.

(** ** Start-up *)





(** ** More on the sample decoder *)

Lemma byte_val_inj (b1 b2 : byte) : byte_val b1 = byte_val b2 -> b1 = b2.
Proof.
  unfold byte_val. intros E. apply N2Z.inj in E.
  pose proof (Byte.of_to_N b1) as H1. rewrite E, Byte.of_to_N in H1.
  now injection H1.
Qed.

Lemma int16_le_inj (lo hi lo' hi' : byte) :
  int16_le lo hi = int16_le lo' hi' -> lo = lo' /\ hi = hi'.
Proof.
  intros E. apply (f_equal (fun z => (z mod 65536)%Z)) in E.
  rewrite !int16_le_mod in E.
  pose proof (byte_val_range lo). pose proof (byte_val_range hi).
  pose proof (byte_val_range lo'). pose proof (byte_val_range hi').
  split; apply byte_val_inj; lia.
Qed.

Lemma decode_nth (frame : bytes) (j : nat) :
  2 * j + 1 < length frame ->
  nth j (decode frame) 0%Q
  = normalize (int16_le (nth (2 * j) frame x00) (nth (2 * j + 1) frame x00)).
Proof.
  intros Hj. unfold decode.
  rewrite (nth_indep _ 0%Q (normalize 0%Z)).
  - now rewrite map_nth, frombuffer_nth.
  - rewrite length_map, frombuffer_length.
    pose proof (Nat.div_mod_eq (length frame) 2).
    pose proof (Nat.mod_upper_bound (length frame) 2). lia.
Qed.

(** X10: the decoder loses nothing: two byte strings of even length, in
    particular two frames, that decode to the same samples are equal. *)
Theorem decode_injective (frame1 frame2 : bytes) :
  Nat.even (length frame1) = true -> Nat.even (length frame2) = true ->
  decode frame1 = decode frame2 -> frame1 = frame2.
Proof.
  assert (G : forall n (f1 f2 : bytes),
            length f1 <= n ->
            Nat.even (length f1) = true -> Nat.even (length f2) = true ->
            decode f1 = decode f2 -> f1 = f2).
  { induction n as [|n IH]; intros f1 f2 Hn H1 H2 E.
    - destruct f1; [| cbn in Hn; lia].
      destruct f2 as [|a [|b f2]]; [reflexivity | discriminate | discriminate].
    - destruct f1 as [|lo [|hi f1]]; [| discriminate |].
      + destruct f2 as [|a [|b f2]]; [reflexivity | discriminate | discriminate].
      + destruct f2 as [|lo' [|hi' f2]]; [discriminate | discriminate |].
        unfold decode in E. cbn [frombuffer map] in E.
        injection E as Es Erest.
        apply int16_le_inj in Es as [-> ->].
        f_equal. f_equal. apply IH.
        * cbn in Hn. lia.
        * exact H1.
        * exact H2.
        * exact Erest. }
  apply (G (length frame1)). lia.
Qed.

Lemma decode_injective_witness :
  Nat.even (length [x00; x80]) = true /\
  Nat.even (length [x00; x80]) = true /\
  decode [x00; x80] = decode [x00; x80] /\
  [x00; x80] = [x00; x80].
Proof.
  split; [reflexivity |]. split; [reflexivity |]. split; [reflexivity |].
  exact (decode_injective [x00; x80] [x00; x80] eq_refl eq_refl eq_refl).
Defined.

(** X11: every decoded sample is a multiple of 1/32768 between -1 and
    32767/32768: the value 1.0 is never produced, and -1.0 is produced by
    the sample -32768 only, the byte pair [00 80]. *)
Theorem decode_range (frame : bytes) (q : Q) :
  In q (decode frame) ->
  exists s : Z,
    q = normalize s /\ (-32768 <= s <= 32767)%Z /\
    (- (1) <= q)%Q /\ (q <= 32767 # 32768)%Q /\ (q < 1)%Q /\
    ((q == - (1))%Q <-> s = (-32768)%Z) /\
    (forall lo hi, int16_le lo hi = (-32768)%Z <-> lo = x00 /\ hi = x80).
Proof.
  intros Hin. unfold decode in Hin. apply in_map_iff in Hin as (s & <- & Hs).
  assert (Hr : (-32768 <= s <= 32767)%Z).
  { revert Hs.
    assert (G : forall n (f : bytes), length f <= n ->
              In s (frombuffer f) -> (-32768 <= s <= 32767)%Z).
    { induction n as [|n IH]; intros f Hn Hin.
      - destruct f; [destruct Hin | cbn in Hn; lia].
      - destruct f as [|lo [|hi f]]; [destruct Hin | destruct Hin |].
        destruct Hin as [<-|Hin]; [apply int16_le_range |].
        apply (IH f); [cbn in Hn; lia | exact Hin]. }
    apply (G (length frame)). lia. }
  exists s. split; [reflexivity |]. split; [exact Hr |].
  unfold normalize, Qle, Qlt, Qeq. cbn [Qnum Qden Qopp].
  split; [lia |]. split; [lia |]. split; [lia |]. split; [lia |].
  intros lo hi. split.
  - intros E.
    assert (E' : int16_le lo hi = int16_le x00 x80) by (rewrite E; reflexivity).
    now apply int16_le_inj in E'.
  - now intros [-> ->].
Qed.

Lemma decode_range_witness :
  In (normalize (-32768)) (decode [x00; x80]) /\
  exists s : Z, normalize (-32768) = normalize s /\ (-32768 <= s <= 32767)%Z.
Proof.
  assert (Hin : In (normalize (-32768)) (decode [x00; x80]))
    by (left; reflexivity).
  split; [exact Hin |].
  destruct (decode_range [x00; x80] (normalize (-32768)) Hin)
    as (s & E & Hr & _).
  exists s. split; [exact E | exact Hr].
Defined.

Lemma framed_sample (frames : list bytes) (rest stream : bytes) (i j : nat) :
  well_framed frames ->
  concat frames ++ rest = stream ->
  i < length frames -> j < CHUNK_SIZE ->
  nth j (decode (nth i frames [])) 0%Q
  = normalize (int16_le (nth (2 * (i * CHUNK_SIZE + j)) stream x00)
                        (nth (2 * (i * CHUNK_SIZE + j) + 1) stream x00)).
Proof.
  intros Hw Hcat Hi Hj.
  assert (Hlen : length (nth i frames []) = frame_size).
  { unfold well_framed in Hw. rewrite Forall_forall in Hw.
    apply Hw. now apply nth_In. }
  rewrite (well_framed_nth frames rest stream i Hw Hcat Hi) in *.
  unfold CHUNK_SIZE in *. rewrite frame_size_val in *.
  rewrite decode_nth by lia.
  rewrite !nth_firstn, !nth_skipn.
  destruct (Nat.ltb_spec (2 * j) 2560); [| lia].
  destruct (Nat.ltb_spec (2 * j + 1) 2560); [| lia].
  do 3 f_equal; lia.
Qed.

(** What the recording capability has heard after a run is what it had
    heard before followed by the decoded frames of the run. *)
Section Recording.
Context {M : Type} `{ScoringCapability M}.

Lemma server_evaluate_heard threshold items : forall (m : recording M) mx,
  heard (fst (fst (Server.evaluate threshold items m mx))) = heard m.
Proof.
  induction items as [|[name score] items IH]; intros m mx; [reflexivity |].
  cbn [Server.evaluate Server.check].
  destruct (Qgtb score threshold).
  - specialize (IH (reset m) 0%Q).
    destruct (Server.evaluate threshold items (reset m) 0) as [[m2 mx2] tr2].
    exact IH.
  - specialize (IH m (if Qgtb score mx then score else mx)).
    destruct (Server.evaluate threshold items m _) as [[m2 mx2] tr2].
    exact IH.
Qed.

Lemma detector_evaluate_heard a items : forall m : recording M,
  heard (fst (Detector.evaluate a items m)) = heard m.
Proof.
  induction items as [|[name score] items IH]; intros m; [reflexivity |].
  cbn [Detector.evaluate Detector.check].
  destruct (score_ge score (Detector.threshold a)).
  - specialize (IH (reset m)).
    destruct (Detector.evaluate a items (reset m)) as [m2 tr2]. exact IH.
  - specialize (IH m).
    destruct (Detector.evaluate a items m) as [m2 tr2]. exact IH.
Qed.

Lemma server_drain_heard threshold fuel :
  forall (st st' : Server.state (recording M)) tr c,
  Server.drain fuel threshold st = (st', tr, c) ->
  heard (Server.model st')
  = heard (Server.model st) ++ map decode (frames_of tr).
Proof.
  induction fuel as [|fuel IH]; intros st st' tr c; cbn [Server.drain].
  - intros [= <- <- <-]. cbn [frames_of map]. now rewrite app_nil_r.
  - destruct (frame_size <=? _).
    2:{ intros [= <- <- <-]. cbn [frames_of map]. now rewrite app_nil_r. }
    unfold Server.process_frame.
    cbn [predict recording_capability].
    destruct (predict (inner (Server.model st)) _) as [m1 [items|msg]].
    2:{ intros [= <- <- <-]. reflexivity. }
    pose proof (server_evaluate_heard threshold items
                  (mkRecording m1 (heard (Server.model st)
                     ++ [decode (firstn frame_size (Server.audio_buffer st))]))
                  (Server.max_score st)) as He.
    destruct (Server.evaluate threshold items _ (Server.max_score st))
      as [[m2 mx] tr0] eqn:Ee.
    cbn [fst heard] in He.
    pose proof (server_evaluate_verdicts threshold items
                  (mkRecording m1 (heard (Server.model st)
                     ++ [decode (firstn frame_size (Server.audio_buffer st))]))
                  (Server.max_score st)) as Hv.
    rewrite Ee in Hv. cbn [snd] in Hv.
    destruct (_ =? 0);
      match goal with
      | |- context [Server.drain fuel threshold ?s] =>
          specialize (IH s);
          destruct (Server.drain fuel threshold s) as [[st2 tr2] c2]
      end;
      specialize (IH _ _ _ eq_refl); cbn [Server.model] in IH;
      intros [= <- <- <-]; rewrite IH, He;
      cbn [app frames_of]; rewrite !frames_of_app, (proj1 (verdicts_silent tr0 Hv));
      cbn [app frames_of map]; now rewrite <- app_assoc.
Qed.

Lemma server_loop_heard threshold reads :
  forall st : Server.state (recording M),
  heard (Server.model (fst (Server.loop threshold st reads)))
  = heard (Server.model st)
    ++ map decode (frames_of (snd (Server.loop threshold st reads))).
Proof.
  induction reads as [|[|b chunk] reads IH]; intros st;
    cbn [Server.loop fst snd frames_of map]; rewrite ?app_nil_r;
    try reflexivity.
  unfold Server.iteration.
  destruct (Server.drain _ threshold (Server.push st (b :: chunk)))
    as [[st1 tr1] c] eqn:Ed.
  apply server_drain_heard in Ed. cbn [Server.push Server.model] in Ed.
  specialize (IH st1).
  destruct c as [|msg];
    destruct (Server.loop threshold st1 reads) as [st2 tr2];
    cbn [fst snd] in *; rewrite IH, Ed, !frames_of_app, ?map_app;
    cbn [frames_of app]; rewrite ?app_nil_r; now rewrite <- app_assoc.
Qed.

Lemma detector_drain_heard a fuel :
  forall (st st' : Detector.state (recording M)) tr c,
  Detector.drain fuel a st = (st', tr, c) ->
  heard (Detector.oww_model st')
  = heard (Detector.oww_model st) ++ map decode (frames_of tr).
Proof.
  induction fuel as [|fuel IH]; intros st st' tr c; cbn [Detector.drain].
  - intros [= <- <- <-]. cbn [frames_of map]. now rewrite app_nil_r.
  - destruct (frame_size <=? _).
    2:{ intros [= <- <- <-]. cbn [frames_of map]. now rewrite app_nil_r. }
    unfold Detector.process_frame.
    cbn [predict recording_capability].
    destruct (predict (inner (Detector.oww_model st)) _) as [m1 [items|msg]].
    2:{ intros [= <- <- <-]. reflexivity. }
    pose proof (detector_evaluate_heard a items
                  (mkRecording m1 (heard (Detector.oww_model st)
                     ++ [decode (firstn frame_size (Detector.buffer st))])))
      as He.
    pose proof (detector_evaluate_verdicts a items
                  (mkRecording m1 (heard (Detector.oww_model st)
                     ++ [decode (firstn frame_size (Detector.buffer st))])))
      as Hv.
    destruct (Detector.evaluate a items _) as [m2 tr0].
    cbn [fst snd heard] in He, Hv.
    match goal with
    | |- context [Detector.drain fuel a ?s] =>
        specialize (IH s);
        destruct (Detector.drain fuel a s) as [[st2 tr2] c2]
    end.
    specialize (IH _ _ _ eq_refl). cbn [Detector.oww_model] in IH.
    intros [= <- <- <-]. rewrite IH, He.
    cbn [app frames_of]. rewrite !frames_of_app, (proj1 (verdicts_silent tr0 Hv)).
    cbn [app frames_of map]. now rewrite <- app_assoc.
Qed.

Lemma detector_loop_heard a reads :
  forall st : Detector.state (recording M),
  heard (Detector.oww_model (fst (Detector.loop a st reads)))
  = heard (Detector.oww_model st)
    ++ map decode (frames_of (snd (Detector.loop a st reads))).
Proof.
  induction reads as [|[|b data] reads IH]; intros st;
    cbn [Detector.loop fst snd frames_of map]; rewrite ?app_nil_r;
    try reflexivity.
  unfold Detector.iteration.
  destruct (Detector.drain _ a (Detector.push st (b :: data)))
    as [[st1 tr1] c] eqn:Ed.
  apply detector_drain_heard in Ed. cbn [Detector.push Detector.oww_model] in Ed.
  specialize (IH st1).
  destruct c as [|msg];
    destruct (Detector.loop a st1 reads) as [st2 tr2];
    cbn [fst snd] in *; rewrite IH, Ed, !frames_of_app, ?map_app.
  - now rewrite <- app_assoc.
  - destruct (Detector.debug a); cbn [frames_of app];
      rewrite ?app_nil_r; now rewrite <- app_assoc.
Qed.
End Recording.

(** Recording changes nothing to a run. *)
Section RecordingInner.
Context {M : Type} `{ScoringCapability M}.

Lemma server_evaluate_inner threshold items : forall (m : recording M) mx,
  Server.evaluate threshold items (inner m) mx
  = let '(m', mx', tr) := Server.evaluate threshold items m mx in
    (inner m', mx', tr).
Proof.
  induction items as [|[name score] items IH]; intros m mx; [reflexivity |].
  cbn [Server.evaluate Server.check].
  destruct (Qgtb score threshold).
  - change (reset (inner m)) with (inner (reset m)). rewrite IH.
    now destruct (Server.evaluate threshold items (reset m) 0) as [[? ?] ?].
  - rewrite IH.
    now destruct (Server.evaluate threshold items m _) as [[? ?] ?].
Qed.

Lemma detector_evaluate_inner a items : forall m : recording M,
  Detector.evaluate a items (inner m)
  = let (m', tr) := Detector.evaluate a items m in (inner m', tr).
Proof.
  induction items as [|[name score] items IH]; intros m; [reflexivity |].
  cbn [Detector.evaluate Detector.check].
  destruct (score_ge score (Detector.threshold a)).
  - change (reset (inner m)) with (inner (reset m)). rewrite IH.
    now destruct (Detector.evaluate a items (reset m)).
  - rewrite IH. now destruct (Detector.evaluate a items m).
Qed.

Lemma server_drain_inner threshold fuel :
  forall st : Server.state (recording M),
  Server.drain fuel threshold (server_inner st)
  = let '(st', tr, c) := Server.drain fuel threshold st in
    (server_inner st', tr, c).
Proof.
  induction fuel as [|fuel IH]; intros st; cbn [Server.drain];
    [reflexivity |].
  cbn [server_inner Server.audio_buffer].
  destruct (frame_size <=? _); [| reflexivity].
  unfold Server.process_frame.
  cbn [predict recording_capability server_inner Server.audio_buffer
       Server.model Server.max_score Server.frames_processed].
  destruct (predict (inner (Server.model st)) _) as [m1 [items|msg]];
    [| reflexivity].
  set (rec := mkRecording m1 _).
  change m1 with (inner rec). rewrite server_evaluate_inner.
  destruct (Server.evaluate threshold items rec (Server.max_score st))
    as [[m2 mx] tr0].
  destruct (_ =? 0);
    match goal with
    | |- context [Server.drain fuel threshold
                    (Server.mkState ?b ?n ?x (inner ?m))] =>
        change (Server.mkState b n x (inner m))
          with (server_inner (Server.mkState b n x m));
        rewrite IH;
        destruct (Server.drain fuel threshold (Server.mkState b n x m))
          as [[st2 tr2] c2]
    end; reflexivity.
Qed.

Lemma server_loop_inner threshold reads :
  forall st : Server.state (recording M),
  Server.loop threshold (server_inner st) reads
  = let (st', tr) := Server.loop threshold st reads in (server_inner st', tr).
Proof.
  induction reads as [|[|b chunk] reads IH]; intros st; try reflexivity.
  cbn [Server.loop]. unfold Server.iteration.
  change (Server.push (server_inner st) (b :: chunk))
    with (server_inner (Server.push st (b :: chunk))).
  change (Server.audio_buffer (server_inner (Server.push st (b :: chunk))))
    with (Server.audio_buffer (Server.push st (b :: chunk))).
  rewrite server_drain_inner.
  destruct (Server.drain _ threshold (Server.push st (b :: chunk)))
    as [[st1 tr1] [|msg]]; rewrite IH;
    now destruct (Server.loop threshold st1 reads).
Qed.

Lemma detector_drain_inner a fuel :
  forall st : Detector.state (recording M),
  Detector.drain fuel a (detector_inner st)
  = let '(st', tr, c) := Detector.drain fuel a st in
    (detector_inner st', tr, c).
Proof.
  induction fuel as [|fuel IH]; intros st; cbn [Detector.drain];
    [reflexivity |].
  cbn [detector_inner Detector.buffer].
  destruct (frame_size <=? _); [| reflexivity].
  unfold Detector.process_frame.
  cbn [predict recording_capability detector_inner Detector.buffer
       Detector.oww_model].
  destruct (predict (inner (Detector.oww_model st)) _) as [m1 [items|msg]];
    [| reflexivity].
  set (rec := mkRecording m1 _).
  change m1 with (inner rec). rewrite detector_evaluate_inner.
  destruct (Detector.evaluate a items rec) as [m2 tr0].
  match goal with
  | |- context [Detector.drain fuel a (Detector.mkState ?b (inner ?m))] =>
      change (Detector.mkState b (inner m))
        with (detector_inner (Detector.mkState b m));
      rewrite IH;
      destruct (Detector.drain fuel a (Detector.mkState b m))
        as [[st2 tr2] c2]
  end; reflexivity.
Qed.

Lemma detector_loop_inner a reads :
  forall st : Detector.state (recording M),
  Detector.loop a (detector_inner st) reads
  = let (st', tr) := Detector.loop a st reads in (detector_inner st', tr).
Proof.
  induction reads as [|[|b data] reads IH]; intros st; try reflexivity.
  cbn [Detector.loop]. unfold Detector.iteration.
  change (Detector.push (detector_inner st) (b :: data))
    with (detector_inner (Detector.push st (b :: data))).
  change (Detector.buffer (detector_inner (Detector.push st (b :: data))))
    with (Detector.buffer (Detector.push st (b :: data))).
  rewrite detector_drain_inner.
  destruct (Detector.drain _ a (Detector.push st (b :: data)))
    as [[st1 tr1] [|msg]]; rewrite IH;
    now destruct (Detector.loop a st1 reads).
Qed.
End RecordingInner.

(** X12: the scoring capability is handed the samples of the input in
    order.  Let the capability record what [predict] is called with,
    which changes nothing to the run.  Whatever it scores or raises, the
    [i]-th call of a run received 1280 samples, and sample [j] of them is
    the little-endian 16-bit sample number [1280 * i + j] of the stream,
    divided by 32768, in both variants; the number of calls is the number
    of frames of the trace. *)
Theorem samples_in_stream_order {M : Type} `{ScoringCapability M}
    (threshold : Q) (a : Detector.args) (m : M) (reads : list bytes)
    (i j : nat) :
  j < CHUNK_SIZE ->
  let stream := concat (fed reads) in
  let sample :=
    normalize (int16_le (nth (2 * (i * CHUNK_SIZE + j)) stream x00)
                        (nth (2 * (i * CHUNK_SIZE + j) + 1) stream x00)) in
  let server := Server.loop threshold (Server.init (mkRecording m [])) reads in
  let detector := Detector.loop a (Detector.init (mkRecording m [])) reads in
  (snd server = snd (Server.loop threshold (Server.init m) reads) /\
   length (heard (Server.model (fst server))) = length (frames_of (snd server))
   /\
   (i < length (heard (Server.model (fst server))) ->
    length (nth i (heard (Server.model (fst server))) []) = CHUNK_SIZE /\
    nth j (nth i (heard (Server.model (fst server))) []) 0%Q = sample)) /\
  (snd detector = snd (Detector.loop a (Detector.init m) reads) /\
   length (heard (Detector.oww_model (fst detector)))
   = length (frames_of (snd detector)) /\
   (i < length (heard (Detector.oww_model (fst detector))) ->
    length (nth i (heard (Detector.oww_model (fst detector))) []) = CHUNK_SIZE
    /\
    nth j (nth i (heard (Detector.oww_model (fst detector))) []) 0%Q
    = sample)).
Proof.
  intros Hj stream sample server detector.
  assert (Hnth : forall (frames : list bytes) rest,
            well_framed frames -> concat frames ++ rest = stream ->
            length (map decode frames) = length frames /\
            (i < length (map decode frames) ->
             length (nth i (map decode frames) []) = CHUNK_SIZE /\
             nth j (nth i (map decode frames) []) 0%Q = sample)).
  { intros frames rest Hw Hcat. rewrite length_map.
    split; [reflexivity |]. intros Hi.
    change (@nil Q) with (decode []). rewrite map_nth. split.
    - unfold decode. rewrite length_map, frombuffer_length.
      unfold well_framed in Hw. rewrite Forall_forall in Hw.
      rewrite (Hw (nth i frames [])) by (now apply nth_In). reflexivity.
    - exact (framed_sample _ _ _ i j Hw Hcat Hi Hj). }
  split.
  - subst server.
    pose proof (server_loop_heard threshold reads
                  (Server.init (mkRecording m []))) as Hh.
    pose proof (server_loop_inner threshold reads
                  (Server.init (mkRecording m []))) as Hin.
    change (server_inner (Server.init (mkRecording m [])))
      with (Server.init m) in Hin.
    destruct (Server.loop threshold (Server.init (mkRecording m [])) reads)
      as [st tr] eqn:El.
    split; [now rewrite Hin |].
    apply server_loop_spec in El as (Hcat & Hw & _).
    cbn [fst snd Server.init Server.model Server.audio_buffer heard app] in *.
    rewrite Hh. exact (Hnth _ _ Hw Hcat).
  - subst detector.
    pose proof (detector_loop_heard a reads
                  (Detector.init (mkRecording m []))) as Hh.
    pose proof (detector_loop_inner a reads
                  (Detector.init (mkRecording m []))) as Hin.
    change (detector_inner (Detector.init (mkRecording m [])))
      with (Detector.init m) in Hin.
    destruct (Detector.loop a (Detector.init (mkRecording m [])) reads)
      as [st tr] eqn:El.
    split; [now rewrite Hin |].
    apply detector_loop_spec in El as (Hcat & Hw & _).
    cbn [fst snd Detector.init Detector.oww_model Detector.buffer heard app]
      in *.
    rewrite Hh. exact (Hnth _ _ Hw Hcat).
Qed.

Lemma samples_in_stream_order_witness :
  7 < CHUNK_SIZE /\
  length (heard (Server.model
            (fst (Server.loop (1 # 2)
                    (Server.init (mkRecording fails_second []))
                    [zeros 4096; zeros 4096])))) = 2 /\
  nth 7 (nth 1 (heard (Server.model
                   (fst (Server.loop (1 # 2)
                           (Server.init (mkRecording fails_second []))
                           [zeros 4096; zeros 4096])))) []) 0%Q
  = normalize (int16_le
                 (nth (2 * (1 * CHUNK_SIZE + 7))
                      (concat (fed [zeros 4096; zeros 4096])) x00)
                 (nth (2 * (1 * CHUNK_SIZE + 7) + 1)
                      (concat (fed [zeros 4096; zeros 4096])) x00)).
Proof.
  assert (Hj : 7 < CHUNK_SIZE) by (apply Nat.ltb_lt; vm_compute; reflexivity).
  assert (Hn : length (heard (Server.model
                  (fst (Server.loop (1 # 2)
                          (Server.init (mkRecording fails_second []))
                          [zeros 4096; zeros 4096])))) = 2)
    by (vm_compute; reflexivity).
  split; [exact Hj |]. split; [exact Hn |].
  refine (proj2 (proj2 (proj2 (proj1 (samples_in_stream_order (1 # 2)
            Detector.default_args fails_second [zeros 4096; zeros 4096] 1 7
            Hj))) _)).
  rewrite Hn. auto.
Defined.

(** ** The options and the variants compared *)

Section Lockstep.
Context {M : Type} `{ScoringCapability M}.

Lemma detector_verdict_plain a items :
  filter plain_effect (flat_map (detector_verdict a) items)
  = flat_map (fun item : string * score =>
                if score_ge (snd item) (Detector.threshold a)
                then [Emit (DetectionEvent (fst item) (snd item)); ResetModel]
                else []) items.
Proof.
  induction items as [|[name score] items IH]; [reflexivity |].
  cbn [flat_map detector_verdict fst snd]. rewrite !filter_app, IH.
  destruct (Detector.debug a && score_gt score Detector.float_0_1);
    destruct (score_ge score (Detector.threshold a)); reflexivity.
Qed.

Lemma detector_evaluate_model a1 a2 items : forall m : M,
  Detector.threshold a1 = Detector.threshold a2 ->
  fst (Detector.evaluate a1 items m) = fst (Detector.evaluate a2 items m).
Proof.
  induction items as [|[name score] items IH]; intros m Ht; [reflexivity |].
  cbn [Detector.evaluate Detector.check]. rewrite <- Ht.
  destruct (score_ge score (Detector.threshold a1)).
  - specialize (IH (reset m) Ht).
    destruct (Detector.evaluate a1 items (reset m)),
             (Detector.evaluate a2 items (reset m)). exact IH.
  - specialize (IH m Ht).
    destruct (Detector.evaluate a1 items m), (Detector.evaluate a2 items m).
    exact IH.
Qed.

Lemma detector_drain_options a1 a2 fuel : forall st : Detector.state M,
  Detector.threshold a1 = Detector.threshold a2 ->
  fst (fst (Detector.drain fuel a1 st)) = fst (fst (Detector.drain fuel a2 st)) /\
  snd (Detector.drain fuel a1 st) = snd (Detector.drain fuel a2 st) /\
  filter plain_effect (snd (fst (Detector.drain fuel a1 st)))
  = filter plain_effect (snd (fst (Detector.drain fuel a2 st))).
Proof.
  induction fuel as [|fuel IH]; intros st Ht; cbn [Detector.drain];
    [now repeat split |].
  destruct (frame_size <=? _); [| now repeat split].
  unfold Detector.process_frame.
  destruct (predict (Detector.oww_model st) _) as [m1 [items|msg]];
    [| now repeat split].
  pose proof (detector_evaluate_model a1 a2 items m1 Ht) as Hm.
  pose proof (detector_evaluate_trace a1 items m1) as H1.
  pose proof (detector_evaluate_trace a2 items m1) as H2.
  destruct (Detector.evaluate a1 items m1) as [m2 tr1].
  destruct (Detector.evaluate a2 items m1) as [m2' tr2].
  cbn [fst snd] in Hm, H1, H2. subst m2' tr1 tr2.
  specialize (IH (Detector.mkState (skipn frame_size (Detector.buffer st)) m2)
                Ht).
  destruct (Detector.drain fuel a1 _) as [[s1 t1] c1].
  destruct (Detector.drain fuel a2 _) as [[s2 t2] c2].
  cbn [fst snd] in *. destruct IH as (-> & -> & Hf).
  split; [reflexivity |]. split; [reflexivity |].
  cbn [app filter plain_effect]. rewrite !filter_app, !detector_verdict_plain.
  now rewrite Hf, Ht.
Qed.

Lemma detector_loop_options a1 a2 reads : forall st : Detector.state M,
  Detector.threshold a1 = Detector.threshold a2 ->
  fst (Detector.loop a1 st reads) = fst (Detector.loop a2 st reads) /\
  filter plain_effect (snd (Detector.loop a1 st reads))
  = filter plain_effect (snd (Detector.loop a2 st reads)).
Proof.
  induction reads as [|[|b data] reads IH]; intros st Ht;
    cbn [Detector.loop]; [now split | now split |].
  unfold Detector.iteration.
  pose proof (detector_drain_options a1 a2
                (length (Detector.buffer (Detector.push st (b :: data))))
                (Detector.push st (b :: data)) Ht) as Hd.
  destruct (Detector.drain _ a1 _) as [[s1 t1] c1].
  destruct (Detector.drain _ a2 _) as [[s2 t2] c2].
  cbn [fst snd] in Hd. destruct Hd as (-> & -> & Hf).
  specialize (IH s2 Ht).
  destruct c2 as [|msg];
    destruct (Detector.loop a1 s2 reads) as [s1' t1'],
             (Detector.loop a2 s2 reads) as [s2' t2'];
    cbn [fst snd] in *; destruct IH as [-> Hf'];
    (split; [reflexivity |]); rewrite !filter_app, Hf'; f_equal.
  - exact Hf.
  - rewrite Hf. now destruct (Detector.debug a1), (Detector.debug a2).
Qed.
End Lockstep.

(** X13: [--debug] only adds records.  With the same model name and
    threshold, the detector with and without [--debug] ends in the same
    state and makes the same scoring calls, prints the same detection
    records and resets the capability at the same points. *)
Theorem debug_only_adds_records {M : Type} `{ScoringCapability M}
    (name : string) (threshold : Q) (d : Detector.state M)
    (reads : list bytes) :
  let quiet := Detector.mkArgs name threshold false in
  let verbose := Detector.mkArgs name threshold true in
  fst (Detector.loop verbose d reads) = fst (Detector.loop quiet d reads) /\
  filter plain_effect (snd (Detector.loop verbose d reads))
  = snd (Detector.loop quiet d reads).
Proof.
  cbv zeta.
  destruct (detector_loop_options (Detector.mkArgs name threshold true)
              (Detector.mkArgs name threshold false) reads d eq_refl)
    as [Hs Hf].
  split; [exact Hs |]. rewrite Hf. clear Hs Hf.
  pose proof (detector_loop_run (Detector.mkArgs name threshold false) reads d)
    as Hrun.
  induction Hrun as [|frame items tr _ IH|frame msg tr _ IH].
  - reflexivity.
  - cbn [filter plain_effect]. rewrite filter_app, IH. f_equal. f_equal.
    clear. induction items as [|[n s] items IH]; [reflexivity |].
    cbn [flat_map detector_verdict Detector.debug andb app].
    rewrite filter_app, IH. f_equal.
    now destruct (score_ge s _).
  - cbn [Detector.debug app filter plain_effect]. now rewrite IH.
Qed.

Lemma Qgtb_Qgeb (s threshold : Q) :
  ~ (s == threshold)%Q -> Qgtb s threshold = Qgeb s threshold.
Proof.
  intros Hne. destruct (Qgtb s threshold) eqn:Egt, (Qgeb s threshold) eqn:Ege;
    try reflexivity.
  - apply Qgtb_lt in Egt. apply Qlt_le_weak, Qgeb_le in Egt. congruence.
  - apply Qgeb_le in Ege. apply Qle_lt_or_eq in Ege as [Hlt|Heq].
    + apply Qgtb_lt in Hlt. congruence.
    + exfalso. apply Hne. now symmetry.
Qed.

(** Away from the threshold the two comparisons agree. *)
Lemma clear_of_agree (threshold : Q) (s : score) :
  clear_of threshold s -> Qgtb s threshold = score_ge s threshold.
Proof.
  destruct s as [v|v]; cbn [clear_of value score_ge].
  - apply Qgtb_Qgeb.
  - intros [Hb Hne].
    pose proof (binary32_round32 v Hb) as Ev.
    pose proof (binary32_bound v Hb) as Hbound.
    assert (Hup : (threshold <= v)%Q -> (round32 threshold <= v)%Q).
    { intros Hle. rewrite <- Ev. now apply round32_mono. }
    assert (Hdown : (v <= threshold)%Q -> (v <= round32 threshold)%Q).
    { intros Hle. rewrite <- Ev at 1. now apply round32_mono. }
    unfold to_float32.
    destruct (Qle_bool (2 ^ 128) (Qabs (round32 threshold))) eqn:Eo.
    + apply Qle_bool_iff in Eo.
      destruct (Qle_bool 0 threshold) eqn:E0; cbn [negb].
      * apply Qle_bool_iff in E0.
        pose proof (round32_nonneg _ E0) as Hr.
        rewrite (Qabs_pos _ Hr) in Eo.
        destruct (Qgtb v threshold) eqn:Eg; [| reflexivity].
        apply Qgtb_lt in Eg. exfalso.
        assert (Hv : (0 <= v)%Q) by lra.
        rewrite (Qabs_pos _ Hv) in Hbound.
        assert (H1 : (round32 threshold <= v)%Q) by (apply Hup; lra). lra.
      * assert (E0' : (threshold < 0)%Q).
        { apply Qnot_le_lt. intros Hle. apply Qle_bool_iff in Hle.
          congruence. }
        assert (Hr : (round32 threshold <= 0)%Q)
          by (apply round32_nonpos; lra).
        rewrite (Qabs_neg _ Hr) in Eo.
        apply Qgtb_lt. apply Qnot_le_lt. intros Hle.
        pose proof (Hdown Hle) as H1.
        assert (Hv : (v <= 0)%Q) by lra.
        rewrite (Qabs_neg _ Hv) in Hbound. lra.
    + destruct (Qgtb v threshold) eqn:Eg.
      * apply Qgtb_lt in Eg. symmetry. apply Qgeb_le. apply Hup. lra.
      * destruct (Qgeb v (round32 threshold)) eqn:Ege; [| reflexivity].
        exfalso. apply Qgeb_le in Ege.
        assert (Hle : (v <= threshold)%Q).
        { apply Qnot_lt_le. intros Hlt. apply Qgtb_lt in Hlt. congruence. }
        apply Hne. apply Qle_antisym; [now apply Hdown | exact Ege].
Qed.

Lemma items_of_app (x y : trace) : items_of (x ++ y) = items_of x ++ items_of y.
Proof.
  induction x as [|[f [items|msg]| |e] x IH]; cbn [app items_of]; auto.
  now rewrite IH, app_assoc.
Qed.

Lemma verdicts_no_items (tr : trace) :
  forallb is_verdict tr = true -> items_of tr = [].
Proof.
  induction tr as [|x tr IH]; [reflexivity |].
  cbn [forallb]. intros Hx. apply andb_true_iff in Hx as [Hx Htr].
  destruct x as [f o| |e]; cbn in Hx; try discriminate;
    cbn [items_of]; auto.
Qed.

Section Variants.
Context {M : Type} `{ScoringCapability M}.
Variable a : Detector.args.

Lemma detector_frames_app frames1 : forall frames2 (m : M),
  detector_frames a m (frames1 ++ frames2)
  = let (m1, tr1) := detector_frames a m frames1 in
    let (m2, tr2) := detector_frames a m1 frames2 in
    (m2, tr1 ++ tr2).
Proof.
  induction frames1 as [|frame frames1 IH]; intros frames2 m.
  - cbn [app detector_frames]. now destruct (detector_frames a m frames2).
  - cbn [app detector_frames].
    destruct (predict m (decode frame)) as [m1 [items|msg]].
    + destruct (Detector.evaluate a items m1) as [m2 tr0].
      rewrite IH. destruct (detector_frames a m2 frames1) as [m3 tr1].
      destruct (detector_frames a m3 frames2) as [m4 tr2].
      cbn [app]. now rewrite <- app_assoc.
    + rewrite IH. destruct (detector_frames a m1 frames1) as [m3 tr1].
      destruct (detector_frames a m3 frames2) as [m4 tr2].
      cbn [app]. now rewrite <- app_assoc.
Qed.

(** The loop of the detector does with the frames it extracts what
    [detector_frames] does with them. *)
Lemma detector_drain_frames fuel : forall (st st' : Detector.state M) tr c,
  Detector.drain fuel a st = (st', tr, c) ->
  detector_frames a (Detector.oww_model st) (frames_of tr)
  = (Detector.oww_model st',
     tr ++ match c with
           | Normal => []
           | Exception msg =>
               if Detector.debug a then [Emit (ErrorEvent msg)] else []
           end).
Proof.
  induction fuel as [|fuel IH]; intros st st' tr c; cbn [Detector.drain].
  - now intros [= <- <- <-].
  - destruct (frame_size <=? _); [| now intros [= <- <- <-]].
    unfold Detector.process_frame.
    destruct (predict (Detector.oww_model st) _) as [m1 [items|msg]] eqn:Ep.
    2:{ intros [= <- <- <-]. cbn [frames_of detector_frames].
        rewrite Ep. cbn [Detector.oww_model app]. now rewrite app_nil_r. }
    pose proof (detector_evaluate_verdicts a items m1) as Hv.
    destruct (Detector.evaluate a items m1) as [m2 tr0] eqn:Ee.
    cbn [snd] in Hv.
    match goal with
    | |- context [Detector.drain fuel a ?s] =>
        specialize (IH s);
        destruct (Detector.drain fuel a s) as [[st2 tr2] c2]
    end.
    specialize (IH _ _ _ eq_refl). cbn [Detector.oww_model] in IH.
    intros [= <- <- <-].
    cbn [app frames_of]. rewrite frames_of_app, (proj1 (verdicts_silent _ Hv)).
    cbn [app detector_frames]. rewrite Ep, Ee, IH.
    now rewrite <- app_assoc.
Qed.

Lemma detector_loop_frames reads : forall st : Detector.state M,
  detector_frames a (Detector.oww_model st)
    (frames_of (snd (Detector.loop a st reads)))
  = (Detector.oww_model (fst (Detector.loop a st reads)),
     snd (Detector.loop a st reads)).
Proof.
  induction reads as [|[|b data] reads IH]; intros st; try reflexivity.
  cbn [Detector.loop]. unfold Detector.iteration.
  destruct (Detector.drain _ a (Detector.push st (b :: data)))
    as [[st1 tr1] c] eqn:Ed.
  apply detector_drain_frames in Ed. cbn [Detector.push Detector.oww_model] in Ed.
  specialize (IH st1).
  destruct c as [|msg];
    destruct (Detector.loop a st1 reads) as [st2 tr2];
    cbn [fst snd] in *; rewrite !frames_of_app, detector_frames_app.
  - rewrite Ed, IH. now rewrite app_nil_r.
  - destruct (Detector.debug a); cbn [frames_of];
      now rewrite app_nil_r, Ed, IH.
Qed.

(** Away from the threshold the evaluators of the two variants do the
    same to the capability and print the same detections. *)
Lemma variants_evaluate items : forall (m : M) mx,
  Forall (clear_of (Detector.threshold a)) (map snd items) ->
  fst (fst (Server.evaluate (Detector.threshold a) items m mx))
  = fst (Detector.evaluate a items m) /\
  filter plain_effect (snd (Server.evaluate (Detector.threshold a) items m mx))
  = filter plain_effect (snd (Detector.evaluate a items m)).
Proof.
  induction items as [|[name score] items IH]; intros m mx Hc;
    [now split |].
  cbn [map snd] in Hc. apply Forall_cons_iff in Hc as [Hs Hc].
  cbn [Server.evaluate Server.check Detector.evaluate Detector.check].
  rewrite (clear_of_agree _ _ Hs).
  destruct (score_ge score (Detector.threshold a)).
  - specialize (IH (reset m) 0%Q Hc).
    destruct (Server.evaluate _ items (reset m) 0) as [[? ?] ?],
             (Detector.evaluate a items (reset m)).
    cbn [fst snd] in *. destruct IH as [-> IH]. split; [reflexivity |].
    rewrite !filter_app, IH. f_equal.
    now destruct (Detector.debug a && score_gt score Detector.float_0_1).
  - specialize (IH m (if Qgtb score mx then score else mx) Hc).
    destruct (Server.evaluate _ items m _) as [[? ?] ?],
             (Detector.evaluate a items m).
    cbn [fst snd] in *. destruct IH as [-> IH]. split; [reflexivity |].
    cbn [app]. rewrite filter_app, IH.
    now destruct (Detector.debug a && score_gt score Detector.float_0_1).
Qed.

(** Away from the threshold the loop of the server does with the frames
    it extracts what the detector does with them, up to the records
    that only one of them prints. *)
Lemma server_drain_frames fuel : forall (st st' : Server.state M) tr c,
  Server.drain fuel (Detector.threshold a) st = (st', tr, c) ->
  Forall (clear_of (Detector.threshold a))
    (map snd (items_of
       (snd (detector_frames a (Server.model st) (frames_of tr))))) ->
  fst (detector_frames a (Server.model st) (frames_of tr)) = Server.model st' /\
  filter plain_effect
    (snd (detector_frames a (Server.model st) (frames_of tr)))
  = filter plain_effect tr.
Proof.
  induction fuel as [|fuel IH]; intros st st' tr c; cbn [Server.drain].
  - now intros [= <- <- <-].
  - destruct (frame_size <=? _); [| now intros [= <- <- <-]].
    unfold Server.process_frame.
    destruct (predict (Server.model st) _) as [m1 [items|msg]] eqn:Ep.
    2:{ intros [= <- <- <-] _. cbn [frames_of detector_frames].
        rewrite Ep. cbn [Server.model fst snd filter plain_effect].
        split; [reflexivity |]. f_equal.
        now destruct (Detector.debug a). }
    pose proof (server_evaluate_verdicts (Detector.threshold a) items m1
                  (Server.max_score st)) as Hv.
    pose proof (detector_evaluate_verdicts a items m1) as Hvd.
    pose proof (variants_evaluate items m1 (Server.max_score st)) as Hev.
    destruct (Server.evaluate _ items m1 (Server.max_score st))
      as [[m2 mx] tr0] eqn:Ee.
    destruct (Detector.evaluate a items m1) as [m2' tr0'] eqn:Eed.
    cbn [fst snd] in Hv, Hvd, Hev.
    assert (Hstep : forall tr1 st1 st2 tr2 c2,
              Server.model st1 = m2 ->
              filter plain_effect tr1 = filter plain_effect tr0 ->
              frames_of tr1 = [] ->
              Server.drain fuel (Detector.threshold a) st1 = (st2, tr2, c2) ->
              let t := Predict (firstn frame_size (Server.audio_buffer st))
                         (Scores items) :: tr1 ++ tr2 in
              Forall (clear_of (Detector.threshold a))
                (map snd (items_of
                   (snd (detector_frames a (Server.model st) (frames_of t)))))
              ->
              fst (detector_frames a (Server.model st) (frames_of t))
              = Server.model st2 /\
              filter plain_effect
                (snd (detector_frames a (Server.model st) (frames_of t)))
              = filter plain_effect t).
    { intros tr1 st1 st2 tr2 c2 Hm Hp1 Hf1 Hd t. subst t.
      cbn [app items_of frames_of].
      rewrite !frames_of_app, Hf1. cbn [app detector_frames].
      rewrite Ep, Eed.
      destruct (detector_frames a m2' (frames_of tr2)) as [m3 tr3] eqn:Er.
      cbn [fst snd items_of]. intros Hc.
      rewrite items_of_app, (verdicts_no_items _ Hvd) in Hc.
      cbn [app] in Hc. rewrite map_app in Hc.
      apply Forall_app in Hc as [Hc1 Hc2].
      destruct (Hev Hc1) as [Em Et]. subst m2'.
      specialize (IH _ _ _ _ Hd). rewrite Hm, Er in IH.
      destruct (IH Hc2) as [IH1 IH2]. cbn [fst snd] in IH1, IH2.
      split; [exact IH1 |].
      cbn [filter plain_effect]. rewrite !filter_app, Hp1, IH2, Et.
      reflexivity. }
    destruct (_ =? 0);
      match goal with
      | |- context [Server.drain fuel _ ?s] =>
          destruct (Server.drain fuel (Detector.threshold a) s)
            as [[st2 tr2] c2] eqn:Ed
      end;
      intros [= <- <- <-] Hc; cbn [app] in Hc |- *.
    + refine (Hstep _ _ _ _ _ _ _ _ Ed Hc); [reflexivity | |].
      * rewrite filter_app. cbn [filter plain_effect]. apply app_nil_r.
      * rewrite frames_of_app, (proj1 (verdicts_silent _ Hv)). reflexivity.
    + refine (Hstep _ _ _ _ _ _ _ _ Ed Hc); [reflexivity | |].
      * reflexivity.
      * exact (proj1 (verdicts_silent _ Hv)).
Qed.
End Variants.

Lemma well_framed_prefix (f1 : list bytes) : forall (f2 : list bytes) r1 r2,
  well_framed f1 -> well_framed f2 ->
  concat f1 ++ r1 = concat f2 ++ r2 ->
  length r2 < frame_size ->
  exists more, f2 = f1 ++ more.
Proof.
  induction f1 as [|x f1 IH]; intros f2 r1 r2 Hw1 Hw2 Hcat Hr2.
  - now exists f2.
  - apply Forall_cons_iff in Hw1 as [Hx Hw1].
    destruct f2 as [|y f2].
    + exfalso. apply (f_equal (@length byte)) in Hcat.
      cbn [concat app] in Hcat. rewrite !length_app in Hcat. lia.
    + apply Forall_cons_iff in Hw2 as [Hy Hw2].
      cbn [concat] in Hcat. rewrite <- !app_assoc in Hcat.
      apply app_eq_app in Hcat as (l & [[E1 E2]|[E1 E2]]).
      * assert (l = []).
        { apply (f_equal (@length byte)) in E1. rewrite length_app in E1.
          destruct l; [reflexivity | cbn [length] in E1; lia]. }
        subst l. rewrite app_nil_r in E1. subst y. cbn [app] in E2.
        destruct (IH f2 r1 r2 Hw1 Hw2 (eq_sym E2) Hr2) as [more ->].
        now exists more.
      * assert (l = []).
        { apply (f_equal (@length byte)) in E1. rewrite length_app in E1.
          destruct l; [reflexivity | cbn [length] in E1; lia]. }
        subst l. rewrite app_nil_r in E1. subst y. cbn [app] in E2.
        destruct (IH f2 r1 r2 Hw1 Hw2 E2 Hr2) as [more ->].
        now exists more.
Qed.

Section VariantsLoop.
Context {M : Type} `{ScoringCapability M}.
Variable a : Detector.args.

Lemma server_loop_frames reads : forall st : Server.state M,
  let tr := snd (Server.loop (Detector.threshold a) st reads) in
  Forall (clear_of (Detector.threshold a))
    (map snd (items_of
       (snd (detector_frames a (Server.model st) (frames_of tr))))) ->
  fst (detector_frames a (Server.model st) (frames_of tr))
  = Server.model (fst (Server.loop (Detector.threshold a) st reads)) /\
  filter plain_effect
    (snd (detector_frames a (Server.model st) (frames_of tr)))
  = filter plain_effect tr.
Proof.
  induction reads as [|[|b chunk] reads IH]; intros st; try (now split).
  cbn [Server.loop]. unfold Server.iteration.
  destruct (Server.drain _ _ (Server.push st (b :: chunk)))
    as [[st1 tr1] c] eqn:Ed.
  pose proof (server_drain_frames a _ _ _ _ _ Ed) as Hd.
  cbn [Server.push Server.model] in Hd.
  specialize (IH st1). cbv zeta in IH.
  assert (Hsame : forall e : trace,
            (e = [] \/ exists msg, e = [Emit (ErrorEvent msg)]) ->
            let tr := (tr1 ++ e)
                      ++ snd (Server.loop (Detector.threshold a) st1 reads) in
            Forall (clear_of (Detector.threshold a))
              (map snd (items_of
                 (snd (detector_frames a (Server.model st) (frames_of tr)))))
            ->
            fst (detector_frames a (Server.model st) (frames_of tr))
            = Server.model (fst (Server.loop (Detector.threshold a) st1 reads))
            /\
            filter plain_effect
              (snd (detector_frames a (Server.model st) (frames_of tr)))
            = filter plain_effect tr).
  { intros e He tr. subst tr.
    assert (Ee : frames_of e = [] /\ filter plain_effect e = [])
      by (destruct He as [->|[msg ->]]; now split).
    destruct Ee as (Ef & Ep).
    rewrite !frames_of_app, Ef, app_nil_r, detector_frames_app.
    destruct (detector_frames a (Server.model st) (frames_of tr1))
      as [m1 t1] eqn:E1.
    cbn [fst snd] in Hd.
    destruct (detector_frames a m1 _) as [m2 t2] eqn:E2.
    cbn [fst snd]. intros Hc. rewrite items_of_app, map_app in Hc.
    apply Forall_app in Hc as [Hc1 Hc2].
    destruct (Hd Hc1) as [Hd1 Hd2]. subst m1.
    rewrite E2 in IH. destruct (IH Hc2) as [IH1 IH2]. cbn [fst snd] in *.
    split; [exact IH1 |].
    now rewrite !filter_app, Hd2, IH2, Ep, app_nil_r. }
  destruct c as [|msg];
    destruct (Server.loop (Detector.threshold a) st1 reads) as [st2 tr2];
    cbn [fst snd] in *; intros Hc.
  - specialize (Hsame [] (or_introl eq_refl)). cbv zeta in Hsame.
    rewrite !app_nil_r in Hsame. now apply Hsame.
  - apply (Hsame [Emit (ErrorEvent msg)]); [right; now exists msg | exact Hc].
Qed.
End VariantsLoop.

(** X14: the two variants differ only in how they read, in what they do
    at a score on the threshold and in the records that one of them
    alone prints.  On the same byte stream, whatever the sizes of the
    reads of the server and with reads of at most a frame in the
    detector, if every score returned to the detector is away from the
    threshold (a Python float other than the threshold, a binary32 other
    than the threshold rounded to binary32), the scoring calls, detection
    records and resets of the server are the first ones of the detector,
    in the same order; and they are all of them, with the same buffer and
    capability at the end, when the server leaves less than a frame in its
    buffer, as it does when none of its scoring calls raises. *)
Theorem variants_agree {M : Type} `{ScoringCapability M}
    (a : Detector.args) (m : M) (server_reads detector_reads : list bytes) :
  concat (fed server_reads) = concat (fed detector_reads) ->
  Forall (fun data => length data <= frame_size) detector_reads ->
  let server :=
    Server.loop (Detector.threshold a) (Server.init m) server_reads in
  let detector := Detector.loop a (Detector.init m) detector_reads in
  Forall (clear_of (Detector.threshold a))
    (map snd (items_of (snd detector))) ->
  (exists rest,
     filter plain_effect (snd detector)
     = filter plain_effect (snd server) ++ rest) /\
  (existsb is_raise (snd server) = false ->
   length (Server.audio_buffer (fst server)) < frame_size) /\
  (length (Server.audio_buffer (fst server)) < frame_size ->
   filter plain_effect (snd server) = filter plain_effect (snd detector) /\
   Server.model (fst server) = Detector.oww_model (fst detector) /\
   Server.audio_buffer (fst server) = Detector.buffer (fst detector)).
Proof.
  intros Hstream Hall server detector Hclear. subst server detector.
  assert (H0 : @length byte [] < frame_size)
    by (cbn [length]; rewrite frame_size_val; lia).
  pose proof (detector_loop_frames a detector_reads (Detector.init m)) as Hd.
  pose proof (server_loop_frames a server_reads (Server.init m)) as Hs.
  destruct (Server.loop _ (Server.init m) server_reads) as [ss ts] eqn:Es.
  destruct (Detector.loop a (Detector.init m) detector_reads) as [sd td] eqn:Ed.
  apply server_loop_spec in Es as (Hcs & Hws & _ & Hbs).
  apply detector_loop_spec in Ed as (Hcd & Hwd & _ & Hbd).
  cbn [fst snd Server.init Detector.init Server.audio_buffer Detector.buffer
       Server.model Detector.oww_model app] in *.
  specialize (Hbd Hall H0).
  destruct (well_framed_prefix (frames_of ts) (frames_of td)
              (Server.audio_buffer ss) (Detector.buffer sd) Hws Hwd)
    as [more Hmore]; [congruence | exact Hbd |].
  rewrite Hmore, detector_frames_app in Hd.
  destruct (detector_frames a m (frames_of ts)) as [m1 t1] eqn:E1.
  destruct (detector_frames a m1 more) as [m2 t2] eqn:E2.
  injection Hd as Hm2 Htd.
  assert (Hc1 : Forall (clear_of (Detector.threshold a))
                  (map snd (items_of t1))).
  { rewrite <- Htd, items_of_app, map_app in Hclear.
    now apply Forall_app in Hclear as [Hclear _]. }
  cbv zeta in Hs. rewrite ?E1 in Hs.
  destruct (Hs Hc1) as [Hs1 Hs2]. cbn [fst snd] in Hs1, Hs2.
  split; [| split].
  - exists (filter plain_effect t2). now rewrite <- Htd, filter_app, Hs2.
  - intros Hr. now apply Hbs.
  - intros Hb.
    assert (Hf : frames_of ts = frames_of td).
    { apply (well_framed_unique _ _ (Server.audio_buffer ss)
               (Detector.buffer sd)); auto. congruence. }
    assert (more = []).
    { rewrite Hf in Hmore. rewrite <- (app_nil_r (frames_of td)) in Hmore at 1.
      now apply app_inv_head in Hmore. }
    subst more. cbn [detector_frames] in E2. injection E2 as <- <-.
    rewrite app_nil_r in Htd. subst t1.
    split; [now symmetry |]. split; [congruence |].
    rewrite Hf, Hstream, <- Hcd in Hcs.
    now apply app_inv_head in Hcs.
Qed.

Lemma variants_agree_witness :
  let script : scripted :=
    [Scores [("hey_jarvis"%string, py_float 0)]; Raises "scoring failed";
     Scores [("hey_jarvis"%string, py_float (9 # 10))]] in
  let stream := zeros (4096 + 4096) in
  concat (fed (reads_of 4096 stream))
  = concat (fed (reads_of frame_size stream)) /\
  length (frames_of
            (snd (Server.loop Detector.float_0_65 (Server.init script)
                    (reads_of 4096 stream)))) = 2 /\
  length (frames_of
            (snd (Detector.loop Detector.default_args (Detector.init script)
                    (reads_of frame_size stream)))) = 3 /\
  exists rest,
    filter plain_effect
      (snd (Detector.loop Detector.default_args (Detector.init script)
              (reads_of frame_size stream)))
    = filter plain_effect
        (snd (Server.loop Detector.float_0_65 (Server.init script)
                (reads_of 4096 stream))) ++ rest.
Proof.
  intros script stream.
  assert (Hs : concat (fed (reads_of 4096 stream))
               = concat (fed (reads_of frame_size stream)))
    by (vm_compute; reflexivity).
  assert (Hall : Forall (fun data => length data <= frame_size)
                   (reads_of frame_size stream))
    by (apply reads_of_spec; rewrite frame_size_val; lia).
  assert (Ei : map snd (items_of
                 (snd (Detector.loop Detector.default_args
                         (Detector.init script) (reads_of frame_size stream))))
               = [py_float 0; py_float (9 # 10)])
    by (vm_compute; reflexivity).
  assert (Hc : Forall (clear_of (Detector.threshold Detector.default_args))
                 (map snd (items_of
                    (snd (Detector.loop Detector.default_args
                            (Detector.init script)
                            (reads_of frame_size stream)))))).
  { rewrite Ei. repeat constructor; cbn; intros E; discriminate E. }
  split; [exact Hs |].
  split; [vm_compute; reflexivity |].
  split; [vm_compute; reflexivity |].
  exact (proj1 (variants_agree Detector.default_args script
                  (reads_of 4096 stream) (reads_of frame_size stream)
                  Hs Hall Hc)).
Defined.

(** ** Bounds on the telemetry *)

Lemma round3_mono (q1 q2 : Q) : (q1 <= q2)%Q -> (round3 q1 <= round3 q2)%Q.
Proof.
  intros Hle. unfold round3, Qle. cbn [Qnum Qden].
  apply Z.mul_le_mono_nonneg_r; [lia |].
  apply round_half_even_mono.
  apply Qmult_le_compat_r; [exact Hle | discriminate].
Qed.

Lemma round3_zero : (round3 0 == 0)%Q.
Proof. reflexivity. Qed.

Lemma verdicts_bounded threshold (tr : trace) :
  forallb is_verdict tr = true -> Forall (telemetry_bounded threshold) tr.
Proof.
  induction tr as [|x tr IH]; [constructor |].
  cbn [forallb]. intros E. apply andb_true_iff in E as [Ex Et].
  constructor; [| now apply IH].
  destruct x as [f o| |[]]; cbn in Ex |- *; try exact I; discriminate.
Qed.

Section TelemetryBounds.
Context {M : Type} `{ScoringCapability M}.
Variable threshold : Q.

Lemma server_evaluate_bounded items : forall (m : M) mx,
  max_bounded threshold mx ->
  max_bounded threshold (snd (fst (Server.evaluate threshold items m mx))).
Proof.
  induction items as [|[name score] items IH]; intros m mx Hb; [exact Hb |].
  cbn [Server.evaluate Server.check].
  destruct (Qgtb score threshold) eqn:Et.
  - specialize (IH (reset m) 0%Q).
    destruct (Server.evaluate threshold items (reset m) 0) as [[m2 mx2] tr2].
    apply IH. split; [apply Qle_refl | now right].
  - specialize (IH m (if Qgtb score mx then score else mx)).
    destruct (Server.evaluate threshold items m _) as [[m2 mx2] tr2].
    apply IH. destruct Hb as [H0 Hb].
    destruct (Qgtb score mx) eqn:Em; [| now split].
    apply Qgtb_lt in Em. split; [lra |]. left.
    apply Qnot_lt_le. intros Hlt. apply Qgtb_lt in Hlt. congruence.
Qed.

Lemma server_drain_bounded fuel : forall st : Server.state M,
  max_bounded threshold (Server.max_score st) ->
  max_bounded threshold
    (Server.max_score (fst (fst (Server.drain fuel threshold st)))) /\
  Forall (telemetry_bounded threshold)
    (snd (fst (Server.drain fuel threshold st))).
Proof.
  induction fuel as [|fuel IH]; intros st Hb; cbn [Server.drain];
    [split; [exact Hb | constructor] |].
  destruct (frame_size <=? _); [| split; [exact Hb | constructor]].
  unfold Server.process_frame.
  destruct (predict (Server.model st) _) as [m1 [items|msg]].
  - pose proof (server_evaluate_bounded items m1 _ Hb) as He.
    pose proof (server_evaluate_verdicts threshold items m1
                  (Server.max_score st)) as Hv.
    destruct (Server.evaluate threshold items m1 (Server.max_score st))
      as [[m2 mx] tr0].
    cbn [fst snd] in He, Hv. apply (verdicts_bounded threshold) in Hv.
    assert (Hr : telemetry_bounded threshold
                   (Emit (DebugEvent (Server.frames_processed st + 1)
                            (round3 mx)))).
    { destruct He as [H0 [Hle| ->]]; cbn [telemetry_bounded].
      - split; [| left; now apply round3_mono].
        apply (round3_mono 0 mx) in H0. now rewrite round3_zero in H0.
      - split; [now rewrite round3_zero | right; apply round3_zero]. }
    destruct (_ =? 0);
      match goal with
      | |- context [Server.drain fuel threshold ?s] =>
          destruct (IH s) as [Hb2 Hf2];
          [cbn [Server.max_score];
           first [exact He | split; [apply Qle_refl | now right]] |];
          destruct (Server.drain fuel threshold s) as [[st2 tr2] c2]
      end;
      cbn [fst snd] in *; (split; [exact Hb2 |]);
      cbn [app]; (constructor; [exact I |]);
      repeat (apply Forall_app; split); auto.
  - cbn [fst snd Server.max_score]. split; [exact Hb |].
    constructor; [exact I | constructor].
Qed.

Lemma server_loop_bounded reads : forall st : Server.state M,
  max_bounded threshold (Server.max_score st) ->
  max_bounded threshold
    (Server.max_score (fst (Server.loop threshold st reads))) /\
  Forall (telemetry_bounded threshold) (snd (Server.loop threshold st reads)).
Proof.
  induction reads as [|[|b chunk] reads IH]; intros st Hb; cbn [Server.loop];
    try (split; [exact Hb | constructor]).
  unfold Server.iteration.
  pose proof (server_drain_bounded
                (length (Server.audio_buffer (Server.push st (b :: chunk))))
                (Server.push st (b :: chunk)) Hb) as [Hb1 Hf1].
  destruct (Server.drain _ threshold (Server.push st (b :: chunk)))
    as [[st1 tr1] c]. cbn [fst snd] in Hb1, Hf1.
  destruct (IH st1 Hb1) as [Hb2 Hf2].
  destruct c as [|msg];
    destruct (Server.loop threshold st1 reads) as [st2 tr2];
    cbn [fst snd] in *; (split; [exact Hb2 |]);
    repeat (apply Forall_app; split); auto.
  constructor; [exact I | constructor].
Qed.
End TelemetryBounds.

(** X15: the rolling maximum of the server is never negative and never
    above the threshold (unless it is 0), because a score above the
    threshold clears it.  So every telemetry record of a run reports a
    maximum between 0 and the rounded threshold, also when the scoring
    capability returns negative scores or scores above the threshold. *)
Theorem telemetry_bounds {M : Type} `{ScoringCapability M}
    (threshold : Q) (m : M) (reads : list bytes) :
  max_bounded threshold
    (Server.max_score (fst (Server.loop threshold (Server.init m) reads))) /\
  Forall (telemetry_bounded threshold)
    (snd (Server.loop threshold (Server.init m) reads)).
Proof.
  apply server_loop_bounded. split; [apply Qle_refl | now right].
Qed.

(** ** Typing the transcript *)

Lemma string_app_assoc (s1 s2 s3 : string) :
  (s1 ++ (s2 ++ s3) = (s1 ++ s2) ++ s3)%string.
Proof.
  induction s1 as [|c s1 IH]; [reflexivity |].
  cbn [String.append]. now rewrite IH.
Qed.

Lemma listen_replace_app old new (s1 s2 : string) :
  Listen.replace old new (s1 ++ s2)
  = (Listen.replace old new s1 ++ Listen.replace old new s2)%string.
Proof.
  induction s1 as [|c s1 IH]; [reflexivity |].
  cbn [String.append Listen.replace]. rewrite IH.
  destruct (Ascii.eqb c old); [apply string_app_assoc | reflexivity].
Qed.

(** The three replacements in a row act on each character by itself. *)
Lemma listen_escape_cons (c : Ascii.ascii) (text : string) :
  Listen.escape (String c text)
  = ((if Ascii.eqb c Listen.backslash
      then String Listen.backslash (String Listen.backslash EmptyString)
      else if Ascii.eqb c Listen.dquote
      then String Listen.backslash (String Listen.dquote EmptyString)
      else if Ascii.eqb c Listen.newline
      then String Listen.backslash (String "n" EmptyString)
      else String c EmptyString) ++ Listen.escape text)%string.
Proof.
  unfold Listen.escape. cbn [Listen.replace].
  destruct (Ascii.eqb_spec c Listen.backslash) as [->|Hb].
  - now rewrite !listen_replace_app.
  - cbn [Listen.replace].
    destruct (Ascii.eqb_spec c Listen.dquote) as [->|Hq].
    + now rewrite !listen_replace_app.
    + cbn [Listen.replace].
      destruct (Ascii.eqb_spec c Listen.newline) as [->|Hn]; reflexivity.
Qed.

Lemma listen_read_escape (text rest : string) :
  Listen.read_literal (Listen.escape text ++ String Listen.dquote rest)
  = Some (text, rest).
Proof.
  induction text as [|c text IH]; [reflexivity |].
  rewrite listen_escape_cons.
  destruct (Ascii.eqb_spec c Listen.backslash) as [->|Hb];
    [cbn [String.append Listen.read_literal]; cbn; now rewrite IH |].
  destruct (Ascii.eqb_spec c Listen.dquote) as [->|Hq];
    [cbn [String.append Listen.read_literal]; cbn; now rewrite IH |].
  destruct (Ascii.eqb_spec c Listen.newline) as [->|Hn];
    [cbn [String.append Listen.read_literal]; cbn; now rewrite IH |].
  cbn [String.append Listen.read_literal].
  destruct (Ascii.eqb_spec c Listen.dquote); [contradiction |].
  destruct (Ascii.eqb_spec c Listen.backslash); [contradiction |].
  now rewrite IH.
Qed.

(** X16: whatever the transcript, the escaped text read back as a string
    literal with backslash escapes is the transcript itself and ends at
    the closing quote of the script: no quote, backslash or newline of the
    transcript can close the literal early or reach the rest of the
    script.  In particular escaping loses nothing. *)
Theorem escape_keeps_literal_closed (text rest : string) :
  Listen.read_literal (Listen.escape text ++ String Listen.dquote rest)
  = Some (text, rest) /\
  exists tail,
    Listen.script_tail = String Listen.dquote tail /\
    Listen.script text = (Listen.script_head ++ Listen.escape text
                          ++ String Listen.dquote tail)%string /\
    Listen.read_literal (Listen.escape text ++ Listen.script_tail)
    = Some (text, tail).
Proof.
  split; [apply listen_read_escape |].
  eexists. split; [reflexivity |]. split; [reflexivity |].
  apply listen_read_escape.
Qed.

(** A transcript that tries to close the literal and to add a command is
    typed as it is. *)
Example escape_example :
  let text := (String Listen.dquote (String Listen.newline "do shell script "))
                %string in
  Listen.escape text
  = String Listen.backslash
      (String Listen.dquote
         (String Listen.backslash (String "n" "do shell script "))) /\
  Listen.read_literal (Listen.escape text ++ Listen.script_tail)
  = Some (text, (String Listen.newline "        key code 36"
                 ++ String Listen.newline "    end tell"
                 ++ String Listen.newline "    ")%string).
Proof. split; reflexivity. Qed.
